(** * Fintruth ingestion pipeline: segmenter, extractor, orchestrator

    A shallow embedding of the TypeScript sources
      - lib/transcript/segmentTranscript.ts
      - lib/llm/extractPredictions.ts
      - lib/transcript/fetchTranscript.ts
      - lib/pipeline/runIngestion.ts
      - lib/rateLimit.ts
      - app/api/ingest/channel/route.ts
    together with the properties their specification states about them,
    and with further properties read off the code.

    JavaScript strings are sequences of UTF-16 code units; they are
    modelled as [list N].  Numbers that the code only copies around
    (time stamps) are rationals. *)

From Stdlib Require Import ZArith NArith QArith List String Ascii Lia Bool.
From stdpp Require Import gmap.

Local Open Scope nat_scope.
Set Warnings "-register-all".

(* ===================================================================== *)
(** * JavaScript strings                                                  *)
(* ===================================================================== *)

Module JsString.

Definition jsstring := list N.

(** An ASCII literal as a JavaScript string. *)
Definition js (s : string) : jsstring :=
  List.map N_of_ascii (list_ascii_of_string s).

(** An ASCII literal in which every apostrophe stands for a double quote. *)
Definition jsq (s : string) : jsstring :=
  List.map (fun c => if (c =? 39)%N then 34%N else c) (js s).

(** The code units matched by the regular expression class [\s]; they are
    also the ones [String.prototype.trim] strips (WhiteSpace and
    LineTerminator of ECMA-262). *)
Definition isWhiteSpace (c : N) : bool :=
  ((9 <=? c) && (c <=? 13) || (c =? 32) || (c =? 160) || (c =? 5760)
   || ((8192 <=? c) && (c <=? 8202)) || (c =? 8232) || (c =? 8233)
   || (c =? 8239) || (c =? 8287) || (c =? 12288) || (c =? 65279))%N.

Fixpoint dropWhile {A} (p : A -> bool) (l : list A) : list A :=
  match l with
  | [] => []
  | x :: r => if p x then dropWhile p r else l
  end.

Definition trimStart (s : jsstring) : jsstring := dropWhile isWhiteSpace s.
Definition trimEnd (s : jsstring) : jsstring :=
  rev (dropWhile isWhiteSpace (rev s)).

(** [s.trim()] *)
Definition trim (s : jsstring) : jsstring := trimEnd (trimStart s).

(** A string has ink when one of its code units is not white space. *)
Definition hasInk (s : jsstring) : bool :=
  existsb (fun c => negb (isWhiteSpace c)) s.

(** JavaScript truthiness of a string: non-empty. *)
Definition truthy (s : jsstring) : bool :=
  match s with [] => false | _ => true end.

(** [s.split(/\s+/)]: the pieces between maximal runs of white space.  The
    empty string yields one empty piece; leading or trailing white space
    yields an empty first or last piece. *)
Fixpoint splitWs (acc : jsstring) (inSep : bool) (s : jsstring)
  : list jsstring :=
  match s with
  | [] => [acc]
  | c :: r =>
      if isWhiteSpace c
      then (if inSep then splitWs [] true r else acc :: splitWs [] true r)
      else splitWs (acc ++ [c]) false r
  end.

Definition split_ws (s : jsstring) : list jsstring := splitWs [] false s.

Definition eqb (a b : jsstring) : bool := bool_decide (a = b).

(** The last code unit, which a pattern anchored with [$] looks at. *)
Definition lastUnit (s : jsstring) : option N := last s.

(** [hay.includes(needle)] *)
Fixpoint isPrefix (p s : jsstring) : bool :=
  match p, s with
  | [], _ => true
  | _ :: _, [] => false
  | a :: p', b :: s' => (a =? b)%N && isPrefix p' s'
  end.

Fixpoint includes (hay needle : jsstring) : bool :=
  isPrefix needle hay ||
  match hay with
  | [] => false
  | _ :: r => includes r needle
  end.

(** [s.toLowerCase()] on the code units whose lower-case form is an ASCII
    letter: A-Z and the Kelvin sign U+212A.  Every other code unit is kept
    as it is.  Its lower-case form is not made of ASCII letters alone (the
    one that holds an ASCII letter at all is U+0130, which becomes [i]
    followed by U+0307), and the sources only compare the result with, or
    search it for, ASCII literals that do not end in [i]: the outcome is
    the same either way. *)
Definition lowerUnit (c : N) : N :=
  if ((65 <=? c) && (c <=? 90))%N then (c + 32)%N
  else if (c =? 8490)%N then 107%N
  else c.

Definition toLowerCase (s : jsstring) : jsstring := List.map lowerUnit s.

(** [parts.join(sep)] *)
Fixpoint join (sep : jsstring) (parts : list jsstring) : jsstring :=
  match parts with
  | [] => []
  | [p] => p
  | p :: r => p ++ sep ++ join sep r
  end.

End JsString.

Import JsString.

(* ===================================================================== *)
(** * Segmenter: lib/transcript/segmentTranscript.ts                      *)
(* ===================================================================== *)

Module Segmenter.

(** Prisma's [TranscriptChunk] row, without [createdAt]. *)
Record TranscriptChunk := mkChunk {
  id : jsstring;
  videoId : jsstring;
  text : jsstring;
  startTime : Q;
}.

Record SegmentedBlock := mkBlock {
  blockText : jsstring;
  blockStartTime : Q;
  chunkIds : list jsstring;
}.

Definition MIN_WORDS_PER_BLOCK := 30.
Definition MAX_WORDS_PER_BLOCK := 120.
Definition TARGET_CHUNKS_PER_BLOCK := 5.

(** [text.trim().split(/\s+/).filter(Boolean).length] *)
Definition countWords (t : jsstring) : nat :=
  length (List.filter truthy (split_ws (trim t))).

(** [/[.!?]$/.test(text.trim())] *)
Definition endsWithSentence (t : jsstring) : bool :=
  match lastUnit (trim t) with
  | Some c => ((c =? 46) || (c =? 33) || (c =? 63))%N
  | None => false
  end.

(** The mutable variables of [segmentTranscript]'s loop. *)
Record LoopState := mkState {
  blocks : list SegmentedBlock;
  currentText : jsstring;
  currentStartTime : Q;
  currentChunkIds : list jsstring;
}.

(** [currentText ? `${currentText} ${chunkText}` : chunkText] *)
Definition appendChunk (cur chunkText : jsstring) : jsstring :=
  if truthy cur then cur ++ js " " ++ chunkText else chunkText.

(** [isLastChunk || (hasEnoughWords && (isSentenceEnd || isTooLong ||
    hasEnoughChunks))], on the text and ids after the chunk was added. *)
Definition shouldFinalize (n i : nat) (cur : jsstring) (ids : list jsstring)
  : bool :=
  let wordCount := countWords cur in
  let isLastChunk := i =? n - 1 in
  let hasEnoughWords := MIN_WORDS_PER_BLOCK <=? wordCount in
  let isSentenceEnd := endsWithSentence cur in
  let isTooLong := MAX_WORDS_PER_BLOCK <=? wordCount in
  let hasEnoughChunks := TARGET_CHUNKS_PER_BLOCK <=? length ids in
  isLastChunk || (hasEnoughWords && (isSentenceEnd || isTooLong || hasEnoughChunks)).

(** One iteration of the [for] loop, at index [i] with [chunk = chunks[i]].
    [chunks[i + 1]] is read only under the guard [i < chunks.length - 1],
    where it exists; the [None] branch is never taken. *)
Definition loopBody (chunks : list TranscriptChunk) (i : nat)
  (chunk : TranscriptChunk) (st : LoopState) : LoopState :=
  let chunkText := trim (text chunk) in
  if negb (truthy chunkText) then st
  else
    let cur := appendChunk (currentText st) chunkText in
    let ids := currentChunkIds st ++ [id chunk] in
    if shouldFinalize (length chunks) i cur ids && truthy (trim cur)
    then
      {| blocks := blocks st ++
           [ {| blockText := trim cur;
                blockStartTime := currentStartTime st;
                chunkIds := ids |} ];
         currentText := [];
         currentStartTime :=
           if i <? length chunks - 1
           then match chunks !! (i + 1) with
                | Some next => startTime next
                | None => currentStartTime st
                end
           else currentStartTime st;
         currentChunkIds := [] |}
    else
      {| blocks := blocks st;
         currentText := cur;
         currentStartTime := currentStartTime st;
         currentChunkIds := ids |}.

(** The loop from index [i] on; [todo] is [chunks.slice(i)]. *)
Fixpoint forLoop (chunks : list TranscriptChunk) (i : nat)
  (todo : list TranscriptChunk) (st : LoopState) : LoopState :=
  match todo with
  | [] => st
  | chunk :: rest => forLoop chunks (S i) rest (loopBody chunks i chunk st)
  end.

Definition initState (first : TranscriptChunk) : LoopState :=
  {| blocks := []; currentText := [];
     currentStartTime := startTime first; currentChunkIds := [] |}.

(** "Handle any remaining text" after the loop. *)
Definition flushRemaining (st : LoopState) : list SegmentedBlock :=
  if truthy (trim (currentText st))
  then blocks st ++
       [ {| blockText := trim (currentText st);
            blockStartTime := currentStartTime st;
            chunkIds := currentChunkIds st |} ]
  else blocks st.

Definition segmentTranscript (chunks : list TranscriptChunk)
  : list SegmentedBlock :=
  match chunks with
  | [] => []
  | first :: _ => flushRemaining (forLoop chunks 0 chunks (initState first))
  end.

(** The loop state when iteration [i] starts. *)
Definition stateBefore (chunks : list TranscriptChunk) (i : nat)
  : option LoopState :=
  match chunks with
  | [] => None
  | first :: _ => Some (forLoop chunks 0 (take i chunks) (initState first))
  end.

(** [chunks.slice(i, j)] for [0 <= i <= j]. *)
Definition slice {A} (l : list A) (i j : nat) : list A := take (j - i) (drop i l).

(** [segmentByChunkCount]: the loop [for (i = 0; i < n; i += chunksPerBlock)].
    With [chunksPerBlock = 0] the source loop does not end; the model
    returns [None] when its fuel is used up.  [blockChunks[0]] is read
    only when the joined text is not blank, and then the group is not
    empty: the branch for an empty group is never taken. *)
Fixpoint chunkCountLoop (fuel : nat) (chunks : list TranscriptChunk)
  (chunksPerBlock i : nat) (out : list SegmentedBlock)
  : option (list SegmentedBlock) :=
  match fuel with
  | 0 => None
  | S fuel' =>
      if i <? length chunks then
        let blockChunks := slice chunks i (i + chunksPerBlock) in
        let t := join (js " ") (List.map (fun c => trim (text c)) blockChunks) in
        let ids := List.map id blockChunks in
        let out' :=
          if truthy (trim t)
          then match blockChunks with
               | c0 :: _ =>
                   out ++ [ {| blockText := trim t;
                               blockStartTime := startTime c0;
                               chunkIds := ids |} ]
               | [] => out
               end
          else out in
        chunkCountLoop fuel' chunks chunksPerBlock (i + chunksPerBlock) out'
      else Some out
  end.

Definition segmentByChunkCount (chunks : list TranscriptChunk)
  (chunksPerBlock : nat) : option (list SegmentedBlock) :=
  match chunks with
  | [] => Some []
  | _ => chunkCountLoop (S (length chunks)) chunks chunksPerBlock 0 []
  end.

(** [chunks.slice(i, j)] for integers of either sign: a negative index
    counts from the end, and both ends are clamped to the array. *)
Definition sliceZ {A} (l : list A) (i j : Z) : list A :=
  let len := Z.of_nat (length l) in
  let from := if (i <? 0)%Z then Z.max (len + i) 0 else Z.min i len in
  let to := if (j <? 0)%Z then Z.max (len + j) 0 else Z.min j len in
  take (Z.to_nat (to - from)) (drop (Z.to_nat from) l).

(** [segmentWithOverlap]: the loop [for (i = 0; i < n; i += step)] with its
    two [break]s.  The loop need not end when [step <= 0]; the model
    returns [None] when its fuel is used up. *)
Fixpoint overlapLoop (fuel : nat) (chunks : list TranscriptChunk)
  (chunksPerBlock step i : Z) (out : list SegmentedBlock)
  : option (list SegmentedBlock) :=
  match fuel with
  | 0 => None
  | S fuel' =>
      if (i <? Z.of_nat (length chunks))%Z then
        match sliceZ chunks i (i + chunksPerBlock) with
        | [] => Some out
        | (c0 :: _) as blockChunks =>
            let t := join (js " ") (List.map (fun c => trim (text c)) blockChunks) in
            let ids := List.map id blockChunks in
            let out' :=
              if truthy (trim t)
              then out ++ [ {| blockText := trim t;
                               blockStartTime := startTime c0;
                               chunkIds := ids |} ]
              else out in
            if (Z.of_nat (length chunks) <=? i + chunksPerBlock)%Z
            then Some out'
            else overlapLoop fuel' chunks chunksPerBlock step (i + step) out'
        end
      else Some out
  end.

(** [segmentWithOverlap(chunks, chunksPerBlock, overlapChunks)], run for at
    most [fuel] iterations of its loop. *)
Definition segmentWithOverlap (fuel : nat) (chunks : list TranscriptChunk)
  (chunksPerBlock overlapChunks : Z) : option (list SegmentedBlock) :=
  match chunks with
  | [] => Some []
  | _ => overlapLoop fuel chunks chunksPerBlock
           (chunksPerBlock - overlapChunks) 0 []
  end.

End Segmenter.

(* ===================================================================== *)
(** * What the platform decides                                           *)
(* ===================================================================== *)

(** Number formatting and the wording of the platform's own error messages
    (JavaScript engine, Prisma client) are not fixed by the sources; every
    statement below holds for all of them. *)
Class Engine := {
  (** the double denoted by a JSON number literal is [+0] or [-0] *)
  Number_isZero : jsstring -> bool;
  (** [String(n)] for the double denoted by a JSON number literal *)
  Number_toString : jsstring -> jsstring;
  (** message of the [SyntaxError] of [JSON.parse] on a text *)
  syntaxErrorMessage : jsstring -> jsstring;
  (** message of the [TypeError] of reading a property of [null] *)
  nullPropertyMessage : jsstring -> jsstring;
  (** message of the [TypeError] of an object without primitive value *)
  toPrimitiveMessage : jsstring;
  (** message of Prisma's "record to update not found" *)
  recordNotFoundMessage : jsstring;
  (** message of Prisma's foreign-key violation *)
  foreignKeyMessage : jsstring;
  (** message of Prisma's rejection of a row without a required field *)
  validationMessage : jsstring;
}.

(** A thrown value: an [Error] with its message, or anything else. *)
Inductive Thrown :=
| JsError (message : jsstring)
| NonError.

(** [err instanceof Error ? err.message : 'Unknown error'] *)
Definition messageOf (e : Thrown) : jsstring :=
  match e with
  | JsError m => m
  | NonError => js "Unknown error"
  end.

(** A synchronous computation: a value or a thrown one. *)
Inductive Result (A : Type) :=
| Ok (a : A)
| Raise (e : Thrown).
Arguments Ok {A} a.
Arguments Raise {A} e.

Definition rbind {A B} (r : Result A) (k : A -> Result B) : Result B :=
  match r with
  | Ok a => k a
  | Raise e => Raise e
  end.

(** [xs.map(f)] where [f] may throw: stops at the first throw. *)
Fixpoint rmap {A B} (f : A -> Result B) (xs : list A) : Result (list B) :=
  match xs with
  | [] => Ok []
  | x :: r => rbind (f x) (fun y => rbind (rmap f r) (fun ys => Ok (y :: ys)))
  end.

(* ===================================================================== *)
(** * JSON values and [JSON.parse]                                        *)
(* ===================================================================== *)

Module Json.

(** A number keeps the literal it was read from. *)
Inductive value :=
| JNull
| JBool (b : bool)
| JNumber (literal : jsstring)
| JString (s : jsstring)
| JArray (items : list value)
| JObject (members : list (jsstring * value)).

Inductive presult (A : Type) :=
| POk (a : A) (rest : jsstring)
| PSyntax
| PFuel.
Arguments POk {A} a rest.
Arguments PSyntax {A}.
Arguments PFuel {A}.

(** JSON white space: space, tab, line feed, carriage return. *)
Definition isJsonWs (c : N) : bool :=
  ((c =? 32) || (c =? 9) || (c =? 10) || (c =? 13))%N.

Definition skipWs (s : jsstring) : jsstring := dropWhile isJsonWs s.

Definition isDigit (c : N) : bool := ((48 <=? c) && (c <=? 57))%N.

Definition hexVal (c : N) : option N :=
  if isDigit c then Some (c - 48)%N
  else if ((97 <=? c) && (c <=? 102))%N then Some (c - 87)%N
  else if ((65 <=? c) && (c <=? 70))%N then Some (c - 55)%N
  else None.

Definition hex4 (a b c d : N) : option N :=
  match hexVal a, hexVal b, hexVal c, hexVal d with
  | Some x, Some y, Some z, Some w => Some (((x * 16 + y) * 16 + z) * 16 + w)%N
  | _, _, _, _ => None
  end.

(** The character after a backslash, [u] apart. *)
Definition simpleEscape (e : N) : option N :=
  if (e =? 34)%N then Some 34%N
  else if (e =? 92)%N then Some 92%N
  else if (e =? 47)%N then Some 47%N
  else if (e =? 98)%N then Some 8%N
  else if (e =? 102)%N then Some 12%N
  else if (e =? 110)%N then Some 10%N
  else if (e =? 114)%N then Some 13%N
  else if (e =? 116)%N then Some 9%N
  else None.

(** The rest of a string literal, after its opening quote. *)
Fixpoint parseString (s acc : jsstring) : option (jsstring * jsstring) :=
  match s with
  | [] => None
  | c :: r =>
      if (c =? 34)%N then Some (acc, r)
      else if (c =? 92)%N then
        match r with
        | [] => None
        | e :: r1 =>
            if (e =? 117)%N then
              match r1 with
              | h1 :: h2 :: h3 :: h4 :: r2 =>
                  match hex4 h1 h2 h3 h4 with
                  | Some u => parseString r2 (acc ++ [u])
                  | None => None
                  end
              | _ => None
              end
            else
              match simpleEscape e with
              | Some x => parseString r1 (acc ++ [x])
              | None => None
              end
        end
      else if (c <? 32)%N then None
      else parseString r (acc ++ [c])
  end.

Fixpoint spanDigits (s : jsstring) : jsstring * jsstring :=
  match s with
  | [] => ([], [])
  | c :: r =>
      if isDigit c
      then let '(d, rest) := spanDigits r in (c :: d, rest)
      else ([], s)
  end.

(** A number literal: an optional minus sign; a zero, or a non-zero digit
    and further digits; optionally a point and digits; optionally an
    exponent mark, a sign and digits.  Each part returns what it read and
    what is left. *)
Definition signPart (s : jsstring) : jsstring * jsstring :=
  match s with
  | c :: r => if (c =? 45)%N then ([c], r) else ([], s)
  | [] => ([], s)
  end.

Definition intPart (s : jsstring) : option (jsstring * jsstring) :=
  match s with
  | c :: r =>
      if (c =? 48)%N then Some ([c], r)
      else if isDigit c
           then let '(d, rest) := spanDigits r in Some (c :: d, rest)
           else None
  | [] => None
  end.

Definition fracPart (s : jsstring) : option (jsstring * jsstring) :=
  match s with
  | c :: r =>
      if (c =? 46)%N then
        match spanDigits r with
        | ([], _) => None
        | (d, rest) => Some (c :: d, rest)
        end
      else Some ([], s)
  | [] => Some ([], s)
  end.

Definition expPart (s : jsstring) : option (jsstring * jsstring) :=
  match s with
  | c :: r =>
      if ((c =? 101) || (c =? 69))%N then
        let '(sg, r1) :=
          match r with
          | x :: r' =>
              if ((x =? 43) || (x =? 45))%N then ([x], r') else ([], r)
          | [] => ([], r)
          end in
        match spanDigits r1 with
        | ([], _) => None
        | (d, rest) => Some (c :: sg ++ d, rest)
        end
      else Some ([], s)
  | [] => Some ([], s)
  end.

Definition parseNumber (s : jsstring) : option (jsstring * jsstring) :=
  let '(sign, s1) := signPart s in
  match intPart s1 with
  | None => None
  | Some (ds, s2) =>
      match fracPart s2 with
      | None => None
      | Some (fs, s3) =>
          match expPart s3 with
          | None => None
          | Some (es, s4) => Some (sign ++ ds ++ fs ++ es, s4)
          end
      end
  end.

(** A literal name ([true], [false], [null]) at the head of [s]. *)
Definition parseWord (w : jsstring) (v : value) (s : jsstring) : presult value :=
  if isPrefix w s then POk v (drop (length w) s) else PSyntax.

(** Recursive descent, one unit of fuel per value and per element. *)
Fixpoint parseValue (fuel : nat) (s : jsstring) : presult value :=
  match fuel with
  | 0 => PFuel
  | S f =>
      match skipWs s with
      | [] => PSyntax
      | c :: r =>
          if (c =? 34)%N then
            match parseString r [] with
            | Some (str, rest) => POk (JString str) rest
            | None => PSyntax
            end
          else if (c =? 91)%N then
            match skipWs r with
            | c' :: r' =>
                if (c' =? 93)%N then POk (JArray []) r'
                else parseElements f r []
            | [] => PSyntax
            end
          else if (c =? 123)%N then
            match skipWs r with
            | c' :: r' =>
                if (c' =? 125)%N then POk (JObject []) r'
                else parseMembers f r []
            | [] => PSyntax
            end
          else if (c =? 116)%N then parseWord (js "true") (JBool true) (c :: r)
          else if (c =? 102)%N then parseWord (js "false") (JBool false) (c :: r)
          else if (c =? 110)%N then parseWord (js "null") JNull (c :: r)
          else
            match parseNumber (c :: r) with
            | Some (lit, rest) => POk (JNumber lit) rest
            | None => PSyntax
            end
      end
  end
with parseElements (fuel : nat) (s : jsstring) (acc : list value)
  : presult value :=
  match fuel with
  | 0 => PFuel
  | S f =>
      match parseValue f s with
      | POk v rest =>
          match skipWs rest with
          | c :: r =>
              if (c =? 44)%N then parseElements f r (acc ++ [v])
              else if (c =? 93)%N then POk (JArray (acc ++ [v])) r
              else PSyntax
          | [] => PSyntax
          end
      | PSyntax => PSyntax
      | PFuel => PFuel
      end
  end
with parseMembers (fuel : nat) (s : jsstring) (acc : list (jsstring * value))
  : presult value :=
  match fuel with
  | 0 => PFuel
  | S f =>
      match skipWs s with
      | q :: r =>
          if (q =? 34)%N then
            match parseString r [] with
            | Some (key, r1) =>
                match skipWs r1 with
                | colon :: r2 =>
                    if (colon =? 58)%N then
                      match parseValue f r2 with
                      | POk v rest =>
                          match skipWs rest with
                          | c :: r3 =>
                              if (c =? 44)%N
                              then parseMembers f r3 (acc ++ [(key, v)])
                              else if (c =? 125)%N
                                   then POk (JObject (acc ++ [(key, v)])) r3
                                   else PSyntax
                          | [] => PSyntax
                          end
                      | PSyntax => PSyntax
                      | PFuel => PFuel
                      end
                    else PSyntax
                | [] => PSyntax
                end
            | None => PSyntax
            end
          else PSyntax
      | [] => PSyntax
      end
  end.

(** [JSON.parse(text)]: one value, white space around it, nothing else.
    [None] is the [SyntaxError]. *)
Definition JSON_parse (text : jsstring) : option value :=
  match parseValue (2 * length text + 1) text with
  | POk v rest =>
      match skipWs rest with
      | [] => Some v
      | _ :: _ => None
      end
  | PSyntax => None
  | PFuel => None
  end.

(** [obj[name]] on the members in source order: [JSON.parse] lets the last
    of several equal keys win. *)
Fixpoint lookupMember (name : jsstring) (members : list (jsstring * value))
  : option value :=
  match members with
  | [] => None
  | (k, v) :: r =>
      match lookupMember name r with
      | Some v' => Some v'
      | None => if eqb k name then Some v else None
      end
  end.

End Json.

Import Json.

(* ===================================================================== *)
(** * Response parser: lib/llm/extractPredictions.ts                      *)
(* ===================================================================== *)

Module Parser.

Inductive Confidence := Low | Medium | High.
Inductive PredictionType := Price | Direction | RelativePerformance | Macro.

Record ExtractedPrediction := mkPrediction {
  claim : jsstring;
  asset : option jsstring;
  horizonMonths : option jsstring;   (* the number, as its JSON literal *)
  confidence : Confidence;
  predictionType : PredictionType;
}.

(** The string each enumeration value stands for. *)
Definition confidenceText (c : Confidence) : jsstring :=
  match c with
  | Low => js "low"
  | Medium => js "medium"
  | High => js "high"
  end.

Definition predictionTypeText (t : PredictionType) : jsstring :=
  match t with
  | Price => js "price"
  | Direction => js "direction"
  | RelativePerformance => js "relative performance"
  | Macro => js "macro"
  end.

Definition validateConfidence (value : jsstring) : Confidence :=
  let normalized := trim (toLowerCase value) in
  if eqb normalized (js "low") then Low
  else if eqb normalized (js "medium") then Medium
  else if eqb normalized (js "high") then High
  else Medium.

Definition validatePredictionType (value : jsstring) : PredictionType :=
  let normalized := trim (toLowerCase value) in
  if eqb normalized (js "price") then Price
  else if eqb normalized (js "direction") then Direction
  else if eqb normalized (js "relative performance") then RelativePerformance
  else if eqb normalized (js "macro") then Macro
  else Direction.

(** [text.match(/\[[\s\S]*\]/)]: from the first opening bracket to the
    last closing bracket after it. *)
Definition jsonMatch (text : jsstring) : option jsstring :=
  match dropWhile (fun c => negb (c =? 91)%N) text with
  | [] => None
  | open :: rest =>
      match rev (dropWhile (fun c => negb (c =? 93)%N) (rev rest)) with
      | [] => None
      | body => Some (open :: body)
      end
  end.

Section WithEngine.
Context `{Engine}.

(** JavaScript truthiness of a property read; [None] is [undefined]. *)
Definition truthyValue (v : option value) : bool :=
  match v with
  | None => false
  | Some JNull => false
  | Some (JBool b) => b
  | Some (JNumber lit) => negb (Number_isZero lit)
  | Some (JString s) => truthy s
  | Some (JArray _) => true
  | Some (JObject _) => true
  end.

(** [String(v)].  An array joins its elements with commas, [null] elements
    as empty strings.  A plain object prints as [[object Object]] unless
    it has a member named [toString]: that member is not callable, and the
    conversion throws a [TypeError]. *)
Fixpoint toStringValue (v : value) : Result jsstring :=
  match v with
  | JNull => Ok (js "null")
  | JBool true => Ok (js "true")
  | JBool false => Ok (js "false")
  | JNumber lit => Ok (Number_toString lit)
  | JString s => Ok s
  | JArray items =>
      rbind
        ((fix each (l : list value) : Result (list jsstring) :=
            match l with
            | [] => Ok []
            | x :: r =>
                rbind (match x with
                       | JNull => Ok []
                       | _ => toStringValue x
                       end)
                      (fun a => rbind (each r) (fun b => Ok (a :: b)))
            end) items)
        (fun parts => Ok (join (js ",") parts))
  | JObject members =>
      match lookupMember (js "toString") members with
      | Some _ => Raise (JsError toPrimitiveMessage)
      | None => Ok (js "[object Object]")
      end
  end.

(** [p[name]] for an element [p] of the parsed array.  Reading a property
    of [null] throws; primitives and arrays have none of the names read
    here. *)
Definition getProperty (p : value) (name : jsstring) : Result (option value) :=
  match p with
  | JNull => Raise (JsError (nullPropertyMessage name))
  | JObject members => Ok (lookupMember name members)
  | _ => Ok None
  end.

(** [String(x || dflt)] *)
Definition stringOr (x : option value) (dflt : jsstring) : Result jsstring :=
  match x with
  | Some v => if truthyValue x then toStringValue v else Ok dflt
  | None => Ok dflt
  end.

(** The callback of [parsed.map]. *)
Definition normalizePrediction (p : value) : Result ExtractedPrediction :=
  rbind (getProperty p (js "claim")) (fun pclaim =>
  rbind (stringOr pclaim []) (fun claim' =>
  rbind (getProperty p (js "asset")) (fun passet =>
  rbind (match passet with
         | Some v => if truthyValue passet
                     then rbind (toStringValue v) (fun s => Ok (Some s))
                     else Ok None
         | None => Ok None
         end) (fun asset' =>
  rbind (getProperty p (js "horizonMonths")) (fun phorizon =>
  let horizon' := match phorizon with
                  | Some (JNumber lit) => Some lit
                  | _ => None
                  end in
  rbind (getProperty p (js "confidence")) (fun pconf =>
  rbind (stringOr pconf (js "medium")) (fun conf =>
  rbind (getProperty p (js "predictionType")) (fun ptype =>
  rbind (stringOr ptype (js "direction")) (fun type' =>
  Ok {| claim := claim';
        asset := asset';
        horizonMonths := horizon';
        confidence := validateConfidence conf;
        predictionType := validatePredictionType type' |}))))))))).

(** The filter after the map: [p.claim.trim().length > 0]. *)
Definition hasClaim (p : ExtractedPrediction) : bool := truthy (trim (claim p)).

(** The body of the [try] block. *)
Definition parseMatched (span : jsstring) : Result (list ExtractedPrediction) :=
  match JSON_parse span with
  | None => Raise (JsError (syntaxErrorMessage span))
  | Some (JArray items) =>
      rbind (rmap normalizePrediction items)
            (fun ps => Ok (List.filter hasClaim ps))
  | Some _ => Raise (JsError (js "Response is not an array"))
  end.

Definition parseJsonResponse (text : jsstring)
  : Result (list ExtractedPrediction) :=
  match jsonMatch text with
  | None =>
      if includes (toLowerCase text) (js "no prediction")
         || includes (toLowerCase text) (js "[]")
         || eqb (trim text) (js "[]")
      then Ok []
      else Raise (JsError (js "No JSON array found in response"))
  | Some span =>
      match parseMatched span with
      | Ok ps => Ok ps
      | Raise err =>
          Raise (JsError (js "Failed to parse JSON: " ++ messageOf err))
      end
  end.

End WithEngine.

End Parser.

(** An engine to run examples with: the conversions are those of integer
    literals, the messages are V8's and Prisma's. *)
Definition exampleEngine : Engine := {|
  Number_isZero := fun lit => forallb (fun c => (c =? 48)%N || (c =? 45)%N) lit;
  Number_toString := fun lit => lit;
  syntaxErrorMessage := fun _ => js "Unexpected token in JSON";
  nullPropertyMessage := fun _ => js "Cannot read properties of null";
  toPrimitiveMessage := js "Cannot convert object to primitive value";
  recordNotFoundMessage := js "Record to update not found.";
  foreignKeyMessage := js "Foreign key constraint failed";
  validationMessage := js "Argument is missing.";
|}.


(* ===================================================================== *)
(** * Effects: thrown values, the database, the model, the clock          *)
(* ===================================================================== *)

Module Effects.

Export Segmenter Parser.

(** A computation over a state: it returns or throws, and leaves a state
    behind either way. *)
Definition ST (S A : Type) : Type := S -> Result A * S.

#[export] Instance ST_ret {S} : MRet (ST S) :=
  fun A a s => (Ok a, s).

#[export] Instance ST_bind {S} : MBind (ST S) :=
  fun A B k m s =>
    match m s with
    | (Ok a, s') => k a s'
    | (Raise e, s') => (Raise e, s')
    end.

Definition throw {S A} (e : Thrown) : ST S A := fun s => (Raise e, s).

(** [try { m } catch (err) { h err }] *)
Definition tryCatch {S A} (m : ST S A) (h : Thrown -> ST S A) : ST S A :=
  fun s =>
    match m s with
    | (Ok a, s') => (Ok a, s')
    | (Raise e, s') => h e s'
    end.

(** [try { m } finally { f }] *)
Definition tryFinally {S A} (m : ST S A) (f : ST S unit) : ST S A :=
  fun s =>
    match m s with
    | (r, s') =>
        match f s' with
        | (Ok _, s'') => (r, s'')
        | (Raise e, s'') => (Raise e, s'')
        end
    end.

Definition gets {S A} (f : S -> A) : ST S A := fun s => (Ok (f s), s).
Definition modify {S} (f : S -> S) : ST S unit := fun s => (Ok tt, f s).

(** A synchronous call that may throw. *)
Definition liftResult {S A} (r : Result A) : ST S A := fun s => (r, s).

Inductive DbOp :=
| VideoFindUnique
| VideoUpdate
| CreatorFindUnique
| PredictionCreate
| ChunkFindMany
| TranscriptTransaction.

#[export] Instance DbOp_eq_dec : EqDecision DbOp.
Proof. solve_decision. Defined.

Inductive Event :=
| EvDb (op : DbOp)
| EvSleep (ms : Z)
| EvModelCall (prompt : jsstring).

(** What [model.generateContent(prompt)] followed by
    [response.response.text()] does. *)
Inductive ModelReply :=
| ModelThrows (e : Thrown)
| ModelText (t : jsstring).

Record Creator := mkCreator {
  creatorKey : jsstring;
  creatorChannelId : jsstring;
}.

Record Video := mkVideo {
  videoKey : jsstring;
  videoCreatorId : jsstring;
  transcriptFetched : bool;
  predictionsExtracted : bool;
}.

(** A row of the [Prediction] table, without [id] and [createdAt]. *)
Record Prediction := mkRow {
  rowVideoId : jsstring;
  transcriptChunkId : jsstring;
  timestamp : Q;
  transcriptText : jsstring;
  predictedClaim : jsstring;
  rowAsset : option jsstring;
  rowHorizonMonths : option jsstring;
  rowConfidence : Confidence;
  rowPredictionType : PredictionType;
}.

(** The database, the state of the process, what the outside world will
    answer, and what happened so far.
    - [creators] is keyed by channel id (unique), [videos] by id;
    - [dbFault op n] is the reason, if any, for which the [n]-th call of
      [op] is rejected (connection loss, validation of the row, ...);
    - [modelReply n] is the answer to the [n]-th model call;
    - time passes only while the process sleeps. *)
Record World := mkWorld {
  creators : gmap jsstring Creator;
  videos : gmap jsstring Video;
  transcriptChunks : list TranscriptChunk;
  predictions : list Prediction;
  runningPipelines : gset jsstring;
  lastRequestTime : Z;
  GEMINI_API_KEY : option jsstring;
  clock : Z;
  idsIssued : nat;
  trace : list Event;
  dbFault : DbOp -> nat -> option Thrown;
  modelReply : nat -> ModelReply;
  newId : nat -> jsstring;
}.

Abbreviation M := (ST World).

Definition withTrace (t : list Event) (w : World) : World :=
  mkWorld (creators w) (videos w) (transcriptChunks w) (predictions w)
    (runningPipelines w) (lastRequestTime w) (GEMINI_API_KEY w) (clock w)
    (idsIssued w) t (dbFault w) (modelReply w) (newId w).

Definition withVideos (v : gmap jsstring Video) (w : World) : World :=
  mkWorld (creators w) v (transcriptChunks w) (predictions w)
    (runningPipelines w) (lastRequestTime w) (GEMINI_API_KEY w) (clock w)
    (idsIssued w) (trace w) (dbFault w) (modelReply w) (newId w).

Definition withPredictions (p : list Prediction) (w : World) : World :=
  mkWorld (creators w) (videos w) (transcriptChunks w) p
    (runningPipelines w) (lastRequestTime w) (GEMINI_API_KEY w) (clock w)
    (idsIssued w) (trace w) (dbFault w) (modelReply w) (newId w).

Definition withChunks (c : list TranscriptChunk) (n : nat) (w : World) : World :=
  mkWorld (creators w) (videos w) c (predictions w)
    (runningPipelines w) (lastRequestTime w) (GEMINI_API_KEY w) (clock w)
    n (trace w) (dbFault w) (modelReply w) (newId w).

Definition withRunning (r : gset jsstring) (w : World) : World :=
  mkWorld (creators w) (videos w) (transcriptChunks w) (predictions w)
    r (lastRequestTime w) (GEMINI_API_KEY w) (clock w)
    (idsIssued w) (trace w) (dbFault w) (modelReply w) (newId w).

Definition withLastRequestTime (t : Z) (w : World) : World :=
  mkWorld (creators w) (videos w) (transcriptChunks w) (predictions w)
    (runningPipelines w) t (GEMINI_API_KEY w) (clock w)
    (idsIssued w) (trace w) (dbFault w) (modelReply w) (newId w).

Definition withClock (t : Z) (w : World) : World :=
  mkWorld (creators w) (videos w) (transcriptChunks w) (predictions w)
    (runningPipelines w) (lastRequestTime w) (GEMINI_API_KEY w) t
    (idsIssued w) (trace w) (dbFault w) (modelReply w) (newId w).

Definition logEvent (e : Event) (w : World) : World :=
  withTrace (trace w ++ [e]) w.

Definition isDb (op : DbOp) (e : Event) : bool :=
  match e with
  | EvDb o => bool_decide (o = op)
  | _ => false
  end.

Definition isModelCall (e : Event) : bool :=
  match e with
  | EvModelCall _ => true
  | _ => false
  end.

Definition dbCalls (op : DbOp) (w : World) : nat :=
  length (List.filter (isDb op) (trace w)).

Definition modelCalls (w : World) : nat :=
  length (List.filter isModelCall (trace w)).

(** Every database call is logged, and rejected when the world says so. *)
Definition dbCall (op : DbOp) : M unit :=
  fun w =>
    match dbFault w op (dbCalls op w) with
    | Some e => (Raise e, logEvent (EvDb op) w)
    | None => (Ok tt, logEvent (EvDb op) w)
    end.

(** [Date.now()] *)
Definition dateNow : M Z := gets clock.

(** [await sleep(ms)] *)
Definition sleep (ms : Z) : M unit :=
  modify (fun w => logEvent (EvSleep ms) (withClock (clock w + ms) w)).

(** [model.generateContent(prompt)] and [response.response.text()] *)
Definition generateContent (prompt : jsstring) : M jsstring :=
  fun w =>
    match modelReply w (modelCalls w) with
    | ModelThrows e => (Raise e, logEvent (EvModelCall prompt) w)
    | ModelText t => (Ok t, logEvent (EvModelCall prompt) w)
    end.

Section Prisma.
Context `{Engine}.

(** [prisma.video.findUnique({ where: { id } })] *)
Definition video_findUnique (vid : jsstring) : M (option Video) :=
  dbCall VideoFindUnique ;; gets (fun w => videos w !! vid).

(** [prisma.video.update({ where: { id }, data })]; throws when there is
    no such record. *)
Definition video_update (vid : jsstring) (f : Video -> Video) : M unit :=
  dbCall VideoUpdate ;;
  v ← gets (fun w => videos w !! vid);
  match v with
  | None => throw (JsError recordNotFoundMessage)
  | Some row => modify (fun w => withVideos (<[vid := f row]> (videos w)) w)
  end.

Definition setTranscriptFetched (v : Video) : Video :=
  mkVideo (videoKey v) (videoCreatorId v) true (predictionsExtracted v).

Definition setPredictionsExtracted (v : Video) : Video :=
  mkVideo (videoKey v) (videoCreatorId v) (transcriptFetched v) true.

(** [prisma.creator.findUnique({ where: { channelId } })] *)
Definition creator_findUnique (channel : jsstring) : M (option Creator) :=
  dbCall CreatorFindUnique ;; gets (fun w => creators w !! channel).

Definition hasChunk (cid : jsstring) (w : World) : bool :=
  existsb (fun c => eqb (id c) cid) (transcriptChunks w).

(** [prisma.prediction.create({ data })]; the video and the chunk the row
    points to must exist. *)
Definition prediction_create (row : Prediction) : M unit :=
  dbCall PredictionCreate ;;
  ok ← gets (fun w => bool_decide (is_Some (videos w !! rowVideoId row))
                      && hasChunk (transcriptChunkId row) w);
  if ok : bool
  then modify (fun w => withPredictions (predictions w ++ [row]) w)
  else throw (JsError foreignKeyMessage).

Fixpoint insertByStartTime (c : TranscriptChunk) (l : list TranscriptChunk)
  : list TranscriptChunk :=
  match l with
  | [] => [c]
  | x :: r =>
      if Qle_bool (startTime x) (startTime c)
      then x :: insertByStartTime c r
      else c :: l
  end.

Definition sortByStartTime (l : list TranscriptChunk) : list TranscriptChunk :=
  fold_right insertByStartTime [] l.

(** [prisma.transcriptChunk.findMany({ where: { videoId },
    orderBy: { startTime: 'asc' } })] *)
Definition getTranscriptChunks (vid : jsstring) : M (list TranscriptChunk) :=
  dbCall ChunkFindMany ;;
  gets (fun w =>
    sortByStartTime
      (List.filter (fun c => eqb (videoId c) vid) (transcriptChunks w))).

End Prisma.

End Effects.

(* ===================================================================== *)
(** * Extractor: lib/llm/extractPredictions.ts                            *)
(* ===================================================================== *)

Module Extractor.

Import Effects.

Definition newline : jsstring := [10%N].

Definition SYSTEM_PROMPT : jsstring :=
  join newline
    [ js "You are a financial analyst.";
      [];
      js "Extract ONLY explicit or implicit future-oriented financial predictions.";
      [];
      js "Rules:";
      js "- Prediction must refer to the future";
      js "- Ignore general advice or explanations";
      js "- Ignore past statements";
      [];
      js "For each prediction return:";
      js "- claim";
      js "- asset or market";
      js "- time horizon in months";
      js "- confidence level (low / medium / high)";
      js "- prediction type (price, direction, relative performance, macro)";
      [];
      js "Return JSON array only." ].

Record ExtractionResult := mkResult {
  blockIndex : nat;
  resultStartTime : Q;
  resultChunkIds : list jsstring;
  resultTranscriptText : jsstring;
  resultPredictions : list ExtractedPrediction;
  resultError : option jsstring;
}.

Definition withError (e : jsstring) (r : ExtractionResult) : ExtractionResult :=
  mkResult (blockIndex r) (resultStartTime r) (resultChunkIds r)
    (resultTranscriptText r) (resultPredictions r) (Some e).

Definition withPredictionList (ps : list ExtractedPrediction)
  (r : ExtractionResult) : ExtractionResult :=
  mkResult (blockIndex r) (resultStartTime r) (resultChunkIds r)
    (resultTranscriptText r) ps (resultError r).

Definition MIN_REQUEST_INTERVAL_MS : Z := 1000.

Definition enforceRateLimit : M unit :=
  now ← dateNow;
  last ← gets lastRequestTime;
  let timeSinceLastRequest := (now - last)%Z in
  (if (timeSinceLastRequest <? MIN_REQUEST_INTERVAL_MS)%Z
   then sleep (MIN_REQUEST_INTERVAL_MS - timeSinceLastRequest)
   else mret tt) ;;
  now' ← dateNow;
  modify (withLastRequestTime now').

(** [Math.min(1000 * Math.pow(2, attempt), 10000)] *)
Definition backoffMs (attempt : nat) : Z :=
  Z.min (1000 * 2 ^ Z.of_nat attempt) 10000.

Definition promptFor (block : SegmentedBlock) : jsstring :=
  SYSTEM_PROMPT ++ newline ++ newline ++ js "Transcript:" ++ newline
  ++ [34%N] ++ blockText block ++ [34%N].

(** [lastError?.message || 'Max retries exceeded'] *)
Definition finalError (lastError : option Thrown) : jsstring :=
  match lastError with
  | Some e => if truthy (messageOf e) then messageOf e
              else js "Max retries exceeded"
  | None => js "Max retries exceeded"
  end.

Section WithEngine.
Context `{Engine}.

(** The body of the [try] block of one attempt. *)
Definition attemptOnce (block : SegmentedBlock) : M (list ExtractedPrediction) :=
  enforceRateLimit ;;
  responseText ← generateContent (promptFor block);
  liftResult (parseJsonResponse responseText).

(** The loop [for (attempt = 0; attempt < retries; attempt++)], with
    [todo = retries - attempt] iterations left.  An attempt either returns
    from the function or, in the [catch] block, keeps the thrown value,
    sleeps and goes on. *)
Fixpoint retryLoop (result : ExtractionResult) (block : SegmentedBlock)
  (todo attempt : nat) (lastError : option Thrown) : M ExtractionResult :=
  match todo with
  | 0 => mret (withError (finalError lastError) result)
  | S todo' =>
      r ← tryCatch
            (ps ← attemptOnce block; mret (inl ps))
            (fun err => sleep (backoffMs attempt) ;; mret (inr err));
      match r with
      | inl ps => mret (withPredictionList ps result)
      | inr err => retryLoop result block todo' (S attempt) (Some err)
      end
  end.

(** The two constructors of the client of the model, between the check of
    the key and the loop, only build objects. *)
Definition extractPredictionsFromBlock (block : SegmentedBlock)
  (blockIndex : nat) (retries : nat) : M ExtractionResult :=
  let result :=
    mkResult blockIndex (blockStartTime block) (chunkIds block)
      (blockText block) [] None in
  apiKey ← gets GEMINI_API_KEY;
  match apiKey with
  | Some (_ :: _) => retryLoop result block retries 0 None
  | _ =>
      mret (withError (js "GEMINI_API_KEY environment variable is not set")
              result)
  end.

Record Stats := mkStats {
  totalBlocks : nat;
  blocksWithPredictions : nat;
  totalPredictions : nat;
  errors : list jsstring;
}.

Definition pushError (e : jsstring) (s : Stats) : Stats :=
  mkStats (totalBlocks s) (blocksWithPredictions s) (totalPredictions s)
    (errors s ++ [e]).

Definition countBlock (n : nat) (s : Stats) : Stats :=
  mkStats (totalBlocks s) (S (blocksWithPredictions s))
    (totalPredictions s + n) (errors s).

(** Decimal digits of a natural number, as [`${i}`] prints an index. *)
Fixpoint digitsOf (fuel n : nat) (acc : jsstring) : jsstring :=
  match fuel with
  | 0 => acc
  | S f =>
      let acc' := N.of_nat (48 + n mod 10) :: acc in
      if n / 10 =? 0 then acc' else digitsOf f (n / 10) acc'
  end.

Definition natToString (n : nat) : jsstring := digitsOf (S n) n [].

(** [prisma.prediction.create] for one prediction of a block;
    [result.chunkIds[0]] is [undefined] when the block has no chunk id,
    and Prisma rejects the row. *)
Definition storePrediction (vid : jsstring) (result : ExtractionResult)
  (prediction : ExtractedPrediction) : M unit :=
  match resultChunkIds result with
  | [] => throw (JsError validationMessage)
  | first :: _ =>
      prediction_create
        {| rowVideoId := vid;
           transcriptChunkId := first;
           timestamp := resultStartTime result;
           transcriptText := resultTranscriptText result;
           predictedClaim := claim prediction;
           rowAsset := asset prediction;
           rowHorizonMonths := horizonMonths prediction;
           rowConfidence := confidence prediction;
           rowPredictionType := predictionType prediction |}
  end.

(** [for (const prediction of result.predictions) { try ... catch ... }] *)
Fixpoint storeLoop (vid : jsstring) (result : ExtractionResult)
  (todo : list ExtractedPrediction) (stats : Stats) : M Stats :=
  match todo with
  | [] => mret stats
  | prediction :: rest =>
      stats' ← tryCatch
                 (storePrediction vid result prediction ;; mret stats)
                 (fun err =>
                    mret (pushError
                            (js "Failed to store prediction: " ++ messageOf err)
                            stats));
      storeLoop vid result rest stats'
  end.

(** [for (let i = 0; i < blocks.length; i++)]; [todo] is [blocks.slice(i)]. *)
Fixpoint blocksLoop (vid : jsstring) (i : nat) (todo : list SegmentedBlock)
  (stats : Stats) : M Stats :=
  match todo with
  | [] => mret stats
  | block :: rest =>
      result ← extractPredictionsFromBlock block i 3;
      match resultError result with
      | Some (c :: e) =>
          blocksLoop vid (S i) rest
            (pushError (js "Block " ++ natToString i ++ js ": " ++ c :: e) stats)
      | _ =>
          stats' ←
            (if 0 <? length (resultPredictions result)
             then storeLoop vid result (resultPredictions result)
                    (countBlock (length (resultPredictions result)) stats)
             else mret stats);
          blocksLoop vid (S i) rest stats'
      end
  end.

Definition extractPredictionsForVideo (vid : jsstring)
  (blocks : list SegmentedBlock) : M Stats :=
  stats ← blocksLoop vid 0 blocks (mkStats (length blocks) 0 0 []);
  video_update vid setPredictionsExtracted ;;
  mret stats.

End WithEngine.

End Extractor.

(* ===================================================================== *)
(** * Transcript fetch: lib/transcript/fetchTranscript.ts                 *)
(* ===================================================================== *)

Module Transcript.

Import Effects.

Record TranscriptEntry := mkEntry {
  entryText : jsstring;
  entryStartTime : Q;
}.

(** An entry of the youtube-transcript library. *)
Record RawEntry := mkRaw {
  rawText : jsstring;
  offset : Q;
  duration : Q;
}.

Record FetchTranscriptResult := mkFetch {
  success : bool;
  resultVideoId : jsstring;
  chunksStored : nat;
  error : option jsstring;
  transcriptEntries : option (list TranscriptEntry);
}.

Definition withFetchError (e : jsstring) (r : FetchTranscriptResult)
  : FetchTranscriptResult :=
  mkFetch (success r) (resultVideoId r) (chunksStored r) (Some e)
    (transcriptEntries r).

Definition withSuccess (r : FetchTranscriptResult) : FetchTranscriptResult :=
  mkFetch true (resultVideoId r) (chunksStored r) (error r)
    (transcriptEntries r).

Definition withChunksStored (n : nat) (r : FetchTranscriptResult)
  : FetchTranscriptResult :=
  mkFetch (success r) (resultVideoId r) n (error r) (transcriptEntries r).

(** The two sources of captions.  [fetchTranscriptUsingYtApi] (OAuth and
    the YouTube Data API) answers [null] or a result;
    [YoutubeTranscript.fetchTranscript] answers an array, or nothing.
    Both are taken as they come: any computation over the world. *)
Class CaptionSources := {
  fetchTranscriptUsingYtApi : jsstring -> M (option FetchTranscriptResult);
  YoutubeTranscript_fetchTranscript : jsstring -> M (option (list RawEntry));
}.

(** [s.replace(/pat/g, rep)] for a literal pattern. *)
Fixpoint replaceAllFrom (pat rep : jsstring) (skip : nat) (s : jsstring)
  : jsstring :=
  match s with
  | [] => []
  | c :: r =>
      match skip with
      | S k => replaceAllFrom pat rep k r
      | 0 =>
          if isPrefix pat s
          then rep ++ replaceAllFrom pat rep (length pat - 1) r
          else c :: replaceAllFrom pat rep 0 r
      end
  end.

Definition replaceAll (pat rep s : jsstring) : jsstring :=
  replaceAllFrom pat rep 0 s.

Definition normalizeTranscript (rawTranscript : list RawEntry)
  : list TranscriptEntry :=
  List.map
    (fun entry =>
       {| entryText :=
            trim
              (replaceAll [10%N] (js " ")
              (replaceAll (js "&#39;") (js "'")
              (replaceAll (js "&quot;") [34%N]
              (replaceAll (js "&gt;") (js ">")
              (replaceAll (js "&lt;") (js "<")
              (replaceAll (js "&amp;") (js "&") (rawText entry)))))));
          entryStartTime := (offset entry / 1000)%Q |})
    rawTranscript.

Definition permanentErrors : list jsstring :=
  [ js "Transcript is disabled";
    js "Transcripts are disabled";
    js "video does not have transcripts" ].

Definition isPermanent (errorMessage : jsstring) : bool :=
  existsb
    (fun msg => includes (toLowerCase errorMessage) (toLowerCase msg))
    permanentErrors.

Section WithEngine.
Context `{Engine} `{CaptionSources}.

(** The chunks of one video after [createMany]: fresh ids, in order. *)
Fixpoint newChunks (w : World) (vid : jsstring) (n : nat)
  (entries : list TranscriptEntry) : list TranscriptChunk :=
  match entries with
  | [] => []
  | e :: r =>
      mkChunk (newId w n) vid (entryText e) (entryStartTime e)
      :: newChunks w vid (S n) r
  end.

(** The transaction: delete the video's chunks (the predictions that point
    to them go with them), insert the new ones, set the flag.  All or
    nothing: without the video the insertion is rejected and nothing
    changes. *)
Definition replaceChunks (vid : jsstring) (entries : list TranscriptEntry)
  : M unit :=
  dbCall TranscriptTransaction ;;
  v ← gets (fun w => videos w !! vid);
  match v with
  | None => throw (JsError foreignKeyMessage)
  | Some row =>
      modify (fun w =>
        let kept :=
          List.filter (fun c => negb (eqb (videoId c) vid))
            (transcriptChunks w) in
        let keptPredictions :=
          List.filter
            (fun p => existsb (fun c => eqb (id c) (transcriptChunkId p)) kept)
            (predictions w) in
        withVideos (<[vid := setTranscriptFetched row]> (videos w))
          (withPredictions keptPredictions
             (withChunks (kept ++ newChunks w vid (idsIssued w) entries)
                (idsIssued w + length entries) w)))
  end.

(** The inner [try] block, from "Fetch transcript from YouTube" on.  Its
    [catch] block only throws again. *)
Definition fetchAndStore (vid : jsstring) (result : FetchTranscriptResult)
  : M FetchTranscriptResult :=
  ytApiResult ← fetchTranscriptUsingYtApi vid;
  step ←
    match ytApiResult with
    | Some (mkFetch true _ _ _ (Some entries)) => mret (inr entries)
    | _ =>
        rawTranscript ← YoutubeTranscript_fetchTranscript vid;
        match rawTranscript with
        | None | Some [] =>
            mret (inl (withFetchError
                         (js "No transcript available for this video") result))
        | Some raw => mret (inr (normalizeTranscript raw))
        end
    end;
  match step with
  | inl early => mret early
  | inr [] =>
      mret (withFetchError (js "Failed to parse transcript entries") result)
  | inr normalizedTranscript =>
      replaceChunks vid normalizedTranscript ;;
      mret (withChunksStored (length normalizedTranscript) (withSuccess result))
  end.

Definition fetchTranscriptForVideo (vid : jsstring) : M FetchTranscriptResult :=
  let result := mkFetch false vid 0 None None in
  tryCatch
    (video ← video_findUnique vid;
     match video with
     | None => mret (withFetchError (js "Video not found: " ++ vid) result)
     | Some v =>
         if transcriptFetched v
         then mret (withFetchError (js "Transcript already fetched")
                      (withSuccess result))
         else fetchAndStore vid result
     end)
    (fun err =>
       let errorMessage := messageOf err in
       (if isPermanent errorMessage
        then tryCatch (video_update vid setTranscriptFetched)
                      (fun _ => mret tt)
        else mret tt) ;;
       mret (withFetchError errorMessage result)).

End WithEngine.

Section Batch.
Context `{Engine} `{CaptionSources}.



End Batch.

End Transcript.

(* ===================================================================== *)
(** * Orchestrator: lib/pipeline/runIngestion.ts                          *)
(* ===================================================================== *)

Module Orchestrator.

Import Effects.
Import Extractor.
Import Transcript.

Record VideoFetchStage := mkVideoFetch {
  videoFetchSuccess : bool;
  videosFound : Z;
  videosInserted : Z;
  videosSkipped : Z;
  videoFetchErrors : list jsstring;
}.

Record TranscriptFetchStage := mkTranscriptFetch {
  transcriptFetchSuccess : bool;
  transcriptVideosProcessed : nat;
  totalChunks : nat;
  transcriptFetchErrors : list jsstring;
}.

Record PredictionExtractionStage := mkPredictionExtraction {
  predictionExtractionSuccess : bool;
  predictionVideosProcessed : nat;
  stageTotalPredictions : nat;
  predictionExtractionErrors : list jsstring;
}.

(** [completedAt] is the instant whose ISO text the source stores. *)
Record PipelineResult := mkPipelineResult {
  channelId : jsstring;
  creatorId : jsstring;
  videoFetch : VideoFetchStage;
  transcriptFetch : TranscriptFetchStage;
  predictionExtraction : PredictionExtractionStage;
  totalDurationMs : Z;
  completedAt : option Z;
}.

Record PipelineOptions := mkOptions {
  maxVideos : option Z;
  skipVideoFetch : bool;
  skipTranscriptFetch : bool;
  skipPredictionExtraction : bool;
}.

(** What [fetchVideosForChannel] resolves to. *)
Record FetchVideosResult := mkFetchVideos {
  fetchedFound : Z;
  fetchedInserted : Z;
  fetchedSkipped : Z;
  fetchedErrors : list jsstring;
}.

(** lib/youtube/fetchVideos.ts is not part of the sources at hand; its
    three functions are taken as they come: any computation over the
    world. *)
Class VideoSource := {
  fetchVideosForChannel : jsstring -> Z -> M FetchVideosResult;
  getUnfetchedVideos : jsstring -> M (list Video);
  getVideosWithoutPredictions : jsstring -> M (list Video);
}.

Definition withCreatorId (c : jsstring) (r : PipelineResult) : PipelineResult :=
  mkPipelineResult (channelId r) c (videoFetch r) (transcriptFetch r)
    (predictionExtraction r) (totalDurationMs r) (completedAt r).

Definition withVideoFetch (s : VideoFetchStage) (r : PipelineResult)
  : PipelineResult :=
  mkPipelineResult (channelId r) (creatorId r) s (transcriptFetch r)
    (predictionExtraction r) (totalDurationMs r) (completedAt r).

Definition withTranscriptFetch (s : TranscriptFetchStage) (r : PipelineResult)
  : PipelineResult :=
  mkPipelineResult (channelId r) (creatorId r) (videoFetch r) s
    (predictionExtraction r) (totalDurationMs r) (completedAt r).

Definition withPredictionExtraction (s : PredictionExtractionStage)
  (r : PipelineResult) : PipelineResult :=
  mkPipelineResult (channelId r) (creatorId r) (videoFetch r)
    (transcriptFetch r) s (totalDurationMs r) (completedAt r).

Definition withCompletion (d t : Z) (r : PipelineResult) : PipelineResult :=
  mkPipelineResult (channelId r) (creatorId r) (videoFetch r)
    (transcriptFetch r) (predictionExtraction r) d (Some t).

Definition initialResult (channel : jsstring) : PipelineResult :=
  mkPipelineResult channel []
    (mkVideoFetch false 0 0 0 [])
    (mkTranscriptFetch false 0 0 [])
    (mkPredictionExtraction false 0 0 [])
    0 None.

(** [result.stages.videoFetch.errors.push(m)] and its siblings. *)
Definition pushVideoFetchError (m : jsstring) (r : PipelineResult) :=
  let s := videoFetch r in
  withVideoFetch
    (mkVideoFetch (videoFetchSuccess s) (videosFound s) (videosInserted s)
       (videosSkipped s) (videoFetchErrors s ++ [m])) r.

Definition pushTranscriptFetchError (m : jsstring) (r : PipelineResult) :=
  let s := transcriptFetch r in
  withTranscriptFetch
    (mkTranscriptFetch (transcriptFetchSuccess s) (transcriptVideosProcessed s)
       (totalChunks s) (transcriptFetchErrors s ++ [m])) r.

Definition pushPredictionExtractionErrors (ms : list jsstring)
  (r : PipelineResult) :=
  let s := predictionExtraction r in
  withPredictionExtraction
    (mkPredictionExtraction (predictionExtractionSuccess s)
       (predictionVideosProcessed s) (stageTotalPredictions s)
       (predictionExtractionErrors s ++ ms)) r.

Definition setVideoFetchSuccess (b : bool) (r : PipelineResult) :=
  let s := videoFetch r in
  withVideoFetch
    (mkVideoFetch b (videosFound s) (videosInserted s) (videosSkipped s)
       (videoFetchErrors s)) r.

Definition setTranscriptFetchSuccess (r : PipelineResult) :=
  let s := transcriptFetch r in
  withTranscriptFetch
    (mkTranscriptFetch true (transcriptVideosProcessed s) (totalChunks s)
       (transcriptFetchErrors s)) r.

Definition setPredictionExtractionSuccess (r : PipelineResult) :=
  let s := predictionExtraction r in
  withPredictionExtraction
    (mkPredictionExtraction true (predictionVideosProcessed s)
       (stageTotalPredictions s) (predictionExtractionErrors s)) r.

Definition countTranscript (chunks : nat) (r : PipelineResult) :=
  let s := transcriptFetch r in
  withTranscriptFetch
    (mkTranscriptFetch (transcriptFetchSuccess s)
       (S (transcriptVideosProcessed s)) (totalChunks s + chunks)
       (transcriptFetchErrors s)) r.

Definition countExtraction (n : nat) (r : PipelineResult) :=
  let s := predictionExtraction r in
  withPredictionExtraction
    (mkPredictionExtraction (predictionExtractionSuccess s)
       (S (predictionVideosProcessed s)) (stageTotalPredictions s + n)
       (predictionExtractionErrors s)) r.

(** The function body runs over its [result] object and the world: what
    was written to [result] before a throw is still there in the [catch]
    block. *)
Abbreviation P := (ST (PipelineResult * World)).

Definition liftW {A} (m : M A) : P A :=
  fun s =>
    match m (snd s) with
    | (r, w') => (r, (fst s, w'))
    end.

Definition update (f : PipelineResult -> PipelineResult) : P unit :=
  modify (fun s => (f (fst s), snd s)).

(** [options.maxVideos || 50] *)
Definition maxVideosOr50 (options : PipelineOptions) : Z :=
  match maxVideos options with
  | Some n => if (n =? 0)%Z then 50%Z else n
  | None => 50%Z
  end.

Section WithCollaborators.
Context `{Engine} `{CaptionSources} `{VideoSource}.

Definition stage1 (channel : jsstring) (options : PipelineOptions) : P unit :=
  if negb (skipVideoFetch options)
  then
    tryCatch
      (fetchResult ← liftW (fetchVideosForChannel channel (maxVideosOr50 options));
       update (withVideoFetch
                 (mkVideoFetch
                    (length (fetchedErrors fetchResult) =? 0)
                    (fetchedFound fetchResult) (fetchedInserted fetchResult)
                    (fetchedSkipped fetchResult) (fetchedErrors fetchResult))))
      (fun err =>
         update (pushVideoFetchError (messageOf err)) ;;
         update (setVideoFetchSuccess false))
  else update (setVideoFetchSuccess true).

(** [for (const video of unfetchedVideos)] *)
Fixpoint transcriptLoop (todo : list Video) : P unit :=
  match todo with
  | [] => mret tt
  | video :: rest =>
      transcriptResult ← liftW (fetchTranscriptForVideo (videoKey video));
      (if success transcriptResult
       then update (countTranscript (chunksStored transcriptResult))
       else match error transcriptResult with
            | Some (c :: e) =>
                update (pushTranscriptFetchError
                          (videoKey video ++ js ": " ++ c :: e))
            | _ => mret tt
            end) ;;
      transcriptLoop rest
  end.

Definition stage2 (creator : Creator) (options : PipelineOptions) : P unit :=
  if negb (skipTranscriptFetch options)
  then
    unfetchedVideos ← liftW (getUnfetchedVideos (creatorKey creator));
    transcriptLoop unfetchedVideos ;;
    update setTranscriptFetchSuccess
  else update setTranscriptFetchSuccess.

(** [for (const video of videosForPrediction)] *)
Fixpoint extractionLoop (todo : list Video) : P unit :=
  match todo with
  | [] => mret tt
  | video :: rest =>
      chunks ← liftW (getTranscriptChunks (videoKey video));
      match chunks with
      | [] =>
          liftW (video_update (videoKey video) setPredictionsExtracted) ;;
          extractionLoop rest
      | _ :: _ =>
          let blocks := segmentTranscript chunks in
          extractionResult ←
            liftW (extractPredictionsForVideo (videoKey video) blocks);
          update (countExtraction (totalPredictions extractionResult)) ;;
          update (pushPredictionExtractionErrors (errors extractionResult)) ;;
          extractionLoop rest
      end
  end.

Definition stage3 (creator : Creator) (options : PipelineOptions) : P unit :=
  if negb (skipPredictionExtraction options)
  then
    videosForPrediction ← liftW (getVideosWithoutPredictions (creatorKey creator));
    extractionLoop videosForPrediction ;;
    update setPredictionExtractionSuccess
  else update setPredictionExtractionSuccess.

(** The outer [try] block. *)
Definition pipelineBody (channel : jsstring) (options : PipelineOptions)
  : P unit :=
  stage1 channel options ;;
  creator ← liftW (creator_findUnique channel);
  match creator with
  | None => throw (JsError (js "Creator not found for channel: " ++ channel))
  | Some c =>
      update (withCreatorId (creatorKey c)) ;;
      stage2 c options ;;
      stage3 c options
  end.

(** The outer [catch] block: the message goes to the first stage that has
    not reported success. *)
Definition attributeError (err : Thrown) : P unit :=
  update (fun r =>
    if negb (videoFetchSuccess (videoFetch r))
    then pushVideoFetchError (messageOf err) r
    else if negb (transcriptFetchSuccess (transcriptFetch r))
         then pushTranscriptFetchError (messageOf err) r
         else pushPredictionExtractionErrors [messageOf err] r).

Definition runIngestionPipeline (channel : jsstring) (options : PipelineOptions)
  : M PipelineResult :=
  fun w =>
    let startTime := clock w in
    let run : P PipelineResult :=
      tryCatch (pipelineBody channel options) attributeError ;;
      now ← liftW dateNow;
      update (withCompletion (now - startTime) now) ;;
      gets fst in
    match run (initialResult channel, w) with
    | (r, (_, w')) => (r, w')
    end.

(** The in-memory lock. *)
Definition isPipelineRunning (channel : jsstring) : M bool :=
  gets (fun w => bool_decide (channel ∈ runningPipelines w)).

Definition markPipelineRunning (channel : jsstring) : M bool :=
  running ← gets (fun w => bool_decide (channel ∈ runningPipelines w));
  if running : bool
  then mret false
  else modify (fun w => withRunning ({[ channel ]} ∪ runningPipelines w) w) ;;
       mret true.

Definition markPipelineComplete (channel : jsstring) : M unit :=
  modify (fun w => withRunning (runningPipelines w ∖ {[ channel ]}) w).

(** [try { return await run } finally { markPipelineComplete(channelId) }],
    after the lock was taken; [None] is the [null] of a refused start. *)
Definition withLock {A} (channel : jsstring) (run : M A) : M (option A) :=
  started ← markPipelineRunning channel;
  if started : bool
  then tryFinally (a ← run; mret (Some a)) (markPipelineComplete channel)
  else mret None.

Definition runIngestionPipelineWithLock (channel : jsstring)
  (options : PipelineOptions) : M (option PipelineResult) :=
  withLock channel (runIngestionPipeline channel options).

End WithCollaborators.

End Orchestrator.

(* ===================================================================== *)
(** * Rate limiter: lib/rateLimit.ts                                      *)
(* ===================================================================== *)

Module RateLimit.

Import JsString.

Record RateLimitEntry := mkRateLimitEntry {
  count : Z;
  resetAt : Z;
}.

Record RateLimitConfig := mkRateLimitConfig {
  windowMs : Z;
  maxRequests : Z;
}.

Record RateLimitResult := mkRateLimitResult {
  allowed : bool;
  remaining : Z;
  resultResetAt : Z;
}.

(** [rateLimitStore], the map of the module. *)
Definition Store := gmap jsstring RateLimitEntry.

(** [checkRateLimit(key, config)] when [Date.now()] is [now]: the result,
    and the store it leaves. *)
Definition checkRateLimit (now : Z) (key : jsstring) (config : RateLimitConfig)
  (store : Store) : RateLimitResult * Store :=
  let opened :=
    let newEntry := mkRateLimitEntry 1 (now + windowMs config) in
    (mkRateLimitResult true (maxRequests config - 1) (resetAt newEntry),
     <[key := newEntry]> store) in
  match store !! key with
  | None => opened
  | Some entry =>
      if (resetAt entry <=? now)%Z then opened
      else if (maxRequests config <=? count entry)%Z
      then (mkRateLimitResult false 0 (resetAt entry), store)
      else
        let entry' := mkRateLimitEntry (count entry + 1) (resetAt entry) in
        (mkRateLimitResult true (maxRequests config - count entry')
           (resetAt entry'),
         <[key := entry']> store)
  end.

(** [cleanupRateLimitStore()] when [Date.now()] is [now]: every entry is
    visited once, and deleted when its window is over. *)
Definition cleanupRateLimitStore (now : Z) (store : Store) : Store :=
  filter (fun kv => (now < resetAt kv.2)%Z) store.

Definition INGEST_RATE_LIMIT : RateLimitConfig := mkRateLimitConfig 60000 5.

(** [validateApiKey(providedKey)], with [process.env.INGEST_API_KEY] as
    [expectedKey]; [None] is [null] or [undefined]. *)
Definition validateApiKey (expectedKey providedKey : option jsstring) : bool :=
  match expectedKey with
  | None | Some [] => true
  | Some expected =>
      match providedKey with
      | Some provided => eqb provided expected
      | None => false
      end
  end.

End RateLimit.

(* ===================================================================== *)
(** * Video discovery: fetchVideosForChannel and its helpers              *)
(* ===================================================================== *)

(** The code stands after [segmentWithOverlap] in
    lib/transcript/segmentTranscript.ts.  The orchestrator above takes
    these functions as a [VideoSource], whatever they do; here is what
    the code at hand does. *)
Module FetchVideos.

Import JsString.
Import Effects.
Import Orchestrator.

Definition FINANCE_KEYWORDS : list jsstring :=
  [ js "market"; js "stock"; js "invest"; js "economy" ].

Definition isFinanceRelated (title description : jsstring) : bool :=
  let text := toLowerCase (title ++ js " " ++ description) in
  existsb (fun keyword => includes text keyword) FINANCE_KEYWORDS.

(** [response.data.items?.[0]] of [youtube.channels.list]. *)
Record ChannelInfo := mkChannelInfo {
  snippetTitle : option jsstring;
  snippetCustomUrl : option jsstring;
  snippetAvatarUrl : option jsstring;
}.

(** The [data] of [prisma.creator.create]. *)
Record CreatorData := mkCreatorData {
  dataChannelId : jsstring;
  dataName : jsstring;
  dataYoutubeHandle : option jsstring;
  dataAvatarUrl : option jsstring;
}.

(** An item of [youtube.search.list]; [None] is a part that is missing. *)
Record SearchItem := mkSearchItem {
  itemVideoId : option jsstring;
  itemTitle : option jsstring;
  itemDescription : option jsstring;
  itemPublishedAt : option jsstring;
}.

Record SearchListResponse := mkSearchListResponse {
  items : option (list SearchItem);
  nextPageToken : option jsstring;
}.

(** The [data] of [prisma.video.create]. *)
Record VideoData := mkVideoData {
  dataId : jsstring;
  dataCreatorId : jsstring;
  dataTitle : jsstring;
  dataDescription : jsstring;
  dataUrl : jsstring;
  dataPublishedAt : jsstring;
}.

(** The YouTube Data API, the two inserts, and the API key of the
    process.  The calls are taken as they come: any computation over the
    world.  [search_list key channelId maxResults pageToken]. *)
Class YouTubeApi := {
  YOUTUBE_API_KEY : option jsstring;
  channels_list : jsstring -> jsstring -> M (option ChannelInfo);
  creator_create : CreatorData -> M jsstring;
  search_list : jsstring -> jsstring -> Z -> option jsstring
                -> M SearchListResponse;
  video_create : VideoData -> M unit;
}.

(** [x || dflt] for a string that may be missing. *)
Definition orString (x : option jsstring) (dflt : jsstring) : jsstring :=
  match x with
  | Some (c :: s) => c :: s
  | _ => dflt
  end.

(** [x || null], [x || undefined] *)
Definition orNull (x : option jsstring) : option jsstring :=
  match x with
  | Some (c :: s) => Some (c :: s)
  | _ => None
  end.

(** The function body runs over its [result] object and the world. *)
Abbreviation V := (ST (FetchVideosResult * World)).

Definition liftV {A} (m : M A) : V A :=
  fun s =>
    match m (snd s) with
    | (r, w') => (r, (fst s, w'))
    end.

Definition updateV (f : FetchVideosResult -> FetchVideosResult) : V unit :=
  modify (fun s => (f (fst s), snd s)).

Definition addFound (n : Z) (r : FetchVideosResult) : FetchVideosResult :=
  mkFetchVideos (fetchedFound r + n) (fetchedInserted r) (fetchedSkipped r)
    (fetchedErrors r).

Definition addInserted (r : FetchVideosResult) : FetchVideosResult :=
  mkFetchVideos (fetchedFound r) (fetchedInserted r + 1) (fetchedSkipped r)
    (fetchedErrors r).

Definition addSkipped (r : FetchVideosResult) : FetchVideosResult :=
  mkFetchVideos (fetchedFound r) (fetchedInserted r) (fetchedSkipped r + 1)
    (fetchedErrors r).

Definition addError (e : jsstring) (r : FetchVideosResult) : FetchVideosResult :=
  mkFetchVideos (fetchedFound r) (fetchedInserted r) (fetchedSkipped r)
    (fetchedErrors r ++ [e]).

Section WithApi.
Context `{YouTubeApi}.

Definition ensureCreator (channelId : jsstring) : M jsstring :=
  match YOUTUBE_API_KEY with
  | Some (c :: k) =>
      let apiKey := c :: k in
      existingCreator ← creator_findUnique channelId;
      match existingCreator with
      | Some creator => mret (creatorKey creator)
      | None =>
          channel ← channels_list apiKey channelId;
          match channel with
          | None => throw (JsError (js "Channel not found: " ++ channelId))
          | Some info =>
              creator_create
                {| dataChannelId := channelId;
                   dataName := orString (snippetTitle info) (js "Unknown");
                   dataYoutubeHandle := orNull (snippetCustomUrl info);
                   dataAvatarUrl := orNull (snippetAvatarUrl info) |}
          end
      end
  | _ => throw (JsError (js "YOUTUBE_API_KEY environment variable is not set"))
  end.

(** One pass of [for (const video of videos)]. *)
Definition videoStep (creatorId : jsstring) (video : SearchItem) : V unit :=
  let title := orString (itemTitle video) [] in
  let description := orString (itemDescription video) [] in
  match orNull (itemVideoId video), orNull (itemPublishedAt video) with
  | Some videoId, Some publishedAt =>
      if negb (isFinanceRelated title description)
      then updateV addSkipped
      else
        existingVideo ← liftV (video_findUnique videoId);
        match existingVideo with
        | Some _ => updateV addSkipped
        | None =>
            tryCatch
              (liftV (video_create
                        {| dataId := videoId;
                           dataCreatorId := creatorId;
                           dataTitle := title;
                           dataDescription := description;
                           dataUrl := js "https://www.youtube.com/watch?v="
                                      ++ videoId;
                           dataPublishedAt := publishedAt |}) ;;
               updateV addInserted)
              (fun err =>
                 updateV (addError (js "Failed to insert video " ++ videoId
                                    ++ js ": " ++ messageOf err)))
        end
  | _, _ =>
      updateV (addError (js "Missing video ID or publishedAt for video"))
  end.

Fixpoint videosLoop (creatorId : jsstring) (videos : list SearchItem) : V unit :=
  match videos with
  | [] => mret tt
  | video :: rest => videoStep creatorId video ;; videosLoop creatorId rest
  end.

(** One pass of the [do ... while] loop: the next page token and the new
    total. *)
Definition pageStep (apiKey channelId creatorId : jsstring) (maxResults : Z)
  (pageToken : option jsstring) (totalFetched : Z)
  : V (option jsstring * Z) :=
  searchResponse ←
    liftV (search_list apiKey channelId
             (Z.min 50 (maxResults - totalFetched)) pageToken);
  let videos := match items searchResponse with
                | Some l => l
                | None => []
                end in
  updateV (addFound (Z.of_nat (length videos))) ;;
  videosLoop creatorId videos ;;
  mret (orNull (nextPageToken searchResponse),
        (totalFetched + Z.of_nat (length videos))%Z).

(** The [do ... while (pageToken && totalFetched < maxResults)] loop.  It
    need not end; the model returns [None] when its fuel is used up. *)
Fixpoint pagesLoop (fuel : nat) (apiKey channelId creatorId : jsstring)
  (maxResults : Z) (pageToken : option jsstring) (totalFetched : Z)
  (s : FetchVideosResult * World)
  : option (Result unit * (FetchVideosResult * World)) :=
  match fuel with
  | 0 => None
  | S fuel' =>
      match pageStep apiKey channelId creatorId maxResults pageToken
              totalFetched s with
      | (Ok (Some token, total), s') =>
          if (total <? maxResults)%Z
          then pagesLoop fuel' apiKey channelId creatorId maxResults
                 (Some token) total s'
          else Some (Ok tt, s')
      | (Ok (None, _), s') => Some (Ok tt, s')
      | (Raise e, s') => Some (Raise e, s')
      end
  end.

(** [fetchVideosForChannel(channelId, maxResults)], with at most [fuel]
    pages. *)
Definition fetchVideosForChannel (fuel : nat) (channelId : jsstring)
  (maxResults : Z) (w : World) : option (Result FetchVideosResult * World) :=
  match YOUTUBE_API_KEY with
  | Some (c :: k) =>
      let apiKey := c :: k in
      match ensureCreator channelId w with
      | (Raise e, w1) => Some (Raise e, w1)
      | (Ok creatorId, w1) =>
          match pagesLoop fuel apiKey channelId creatorId maxResults None 0
                  (mkFetchVideos 0 0 0 [], w1) with
          | None => None
          | Some (Ok _, (result, w2)) => Some (Ok result, w2)
          | Some (Raise err, (result, w2)) =>
              Some (Ok (addError (js "API error: " ++ messageOf err) result), w2)
          end
      end
  | _ =>
      Some (Raise (JsError (js "YOUTUBE_API_KEY environment variable is not set")),
            w)
  end.

End WithApi.

End FetchVideos.

(* ===================================================================== *)
(** * Ingest route: app/api/ingest/channel/route.ts                       *)
(* ===================================================================== *)

Module IngestRoute.

Import JsString.
Import Json.
Import Effects.
Import Transcript.
Import Orchestrator.
Import RateLimit.

(** What the handler reads of the request: three headers ([None] when the
    header is missing) and what [await request.json()] gives or throws. *)
Record Request := mkRequest {
  headerApiKey : option jsstring;
  headerForwardedFor : option jsstring;
  headerRealIp : option jsstring;
  requestJson : Result value;
}.

(** The status and the JSON body of a response, with the headers the
    handler sets. *)
Record Response := mkResponse {
  status : nat;
  responseError : option jsstring;
  responseMessage : jsstring;
  responseChannelId : option jsstring;
  responseResult : option PipelineResult;
  retryAfter : option Z;
  rateLimitRemaining : option Z;
  rateLimitReset : option Z;
}.

(** The state of the process besides the world: the store of the rate
    limiter and [process.env.INGEST_API_KEY]. *)
Record Server := mkServer {
  rateLimitStore : Store;
  INGEST_API_KEY : option jsstring;
}.

Definition withStore (store : Store) (s : Server) : Server :=
  mkServer store (INGEST_API_KEY s).

(** What the platform decides besides [Engine]: the message of the
    [TypeError] of calling [startsWith] on a value that has none, and how
    the [options] of the body, any JSON value, are read as
    [PipelineOptions]. *)
Class Platform := {
  notAFunctionMessage : jsstring;
  decodeOptions : option value -> PipelineOptions;
}.

Abbreviation H := (ST (Server * World)).

Definition liftH {A} (m : M A) : H A :=
  fun s =>
    match m (snd s) with
    | (r, w') => (r, (fst s, w'))
    end.

(** [a || b || 'unknown'] on two headers. *)
Definition clientIpOf (request : Request) : jsstring :=
  match headerForwardedFor request with
  | Some (c :: s) => c :: s
  | _ =>
      match headerRealIp request with
      | Some (c :: s) => c :: s
      | _ => js "unknown"
      end
  end.

(** [Math.ceil(ms / 1000)] *)
Definition ceilSeconds (ms : Z) : Z := (- ((- ms) / 1000))%Z.

Definition unauthorized : Response :=
  mkResponse 401 (Some (js "Unauthorized")) (js "Invalid or missing API key")
    None None None None None.

Definition rateLimited (now : Z) (limit : RateLimitResult) : Response :=
  mkResponse 429 (Some (js "Rate limit exceeded"))
    (js "Too many requests. Please try again later.")
    None None
    (Some (ceilSeconds (resultResetAt limit - now)))
    (Some 0%Z) (Some (resultResetAt limit)).

Definition badRequest (message : jsstring) : Response :=
  mkResponse 400 (Some (js "Bad request")) message None None None None None.

Definition conflict (message : jsstring) (channel : option jsstring) : Response :=
  mkResponse 409 (Some (js "Conflict")) message channel None None None None.

Definition completed (result : PipelineResult) (limit : RateLimitResult)
  : Response :=
  mkResponse 200 None (js "Ingestion pipeline completed") None (Some result)
    None (Some (remaining limit)) (Some (resultResetAt limit)).

Definition internalError (message : jsstring) : Response :=
  mkResponse 500 (Some (js "Internal server error")) message
    None None None None None.

Section WithCollaborators.
Context `{Engine} `{CaptionSources} `{VideoSource} `{Platform}.

(** The part of [POST] after the rate limiter let the request through. *)
Definition ingest (request : Request) (limit : RateLimitResult) : H Response :=
  body ← liftResult (requestJson request);
  channelId ← liftResult (getProperty body (js "channelId"));
  if negb (truthyValue channelId)
  then mret (badRequest (js "channelId is required"))
  else
    match channelId with
    | Some (JString channel) =>
        if negb (isPrefix (js "UC") channel) || negb (length channel =? 24)
        then mret (badRequest
                     (jsq "Invalid channelId format. YouTube channel IDs start with 'UC' and are 24 characters long."))
        else
          running ← liftH (isPipelineRunning channel);
          if running : bool
          then mret (conflict (js "Pipeline is already running for this channel")
                       (Some channel))
          else
            options ← liftResult (getProperty body (js "options"));
            result ← liftH (runIngestionPipelineWithLock channel
                              (decodeOptions options));
            match result with
            | None =>
                mret (conflict
                        (js "Pipeline could not be started - another instance may be running")
                        None)
            | Some r => mret (completed r limit)
            end
    | _ => throw (JsError notAFunctionMessage)
    end.

(** [POST /api/ingest/channel] *)
Definition POST (request : Request) : H Response :=
  tryCatch
    (expectedKey ← gets (fun s => INGEST_API_KEY (fst s));
     if negb (validateApiKey expectedKey (headerApiKey request))
     then mret unauthorized
     else
       now ← liftH dateNow;
       store ← gets (fun s => rateLimitStore (fst s));
       let checked :=
         checkRateLimit now (js "ingest:" ++ clientIpOf request)
           INGEST_RATE_LIMIT store in
       modify (fun s => (withStore (snd checked) (fst s), snd s)) ;;
       if negb (allowed (fst checked))
       then mret (rateLimited now (fst checked))
       else ingest request (fst checked))
    (fun err => mret (internalError (messageOf err))).

End WithCollaborators.

End IngestRoute.

(* ===================================================================== *)
(** * Vocabulary of the statements                                        *)
(* ===================================================================== *)

Module Properties.

Import Segmenter.

(** [t] is the trimmed text of a running block right after a kept chunk of
    [chunks] was appended to it, the block holding fewer than 120 words
    before that. *)
Definition builtWithin (chunks : list TranscriptChunk) (t : jsstring) : Prop :=
  exists before chunk,
    In chunk chunks /\ trim (text chunk) <> []
    /\ t = trim (appendChunk before (trim (text chunk)))
    /\ countWords before < MAX_WORDS_PER_BLOCK.

(** Running text: empty, or built by appending a kept chunk to fewer than
    120 words; and never 120 words or more between iterations. *)
Definition runningOk (chunks : list TranscriptChunk) (st : LoopState) : Prop :=
  Forall (fun b => builtWithin chunks (blockText b)) (blocks st)
  /\ (currentText st = [] \/ builtWithin chunks (trim (currentText st)))
  /\ countWords (currentText st) < MAX_WORDS_PER_BLOCK.

(** Before the last iteration every block pushed so far has 30 words. *)
Definition earlyOk (n k : nat) (st : LoopState) : Prop :=
  k <= n - 1 ->
  Forall (fun b => MIN_WORDS_PER_BLOCK <= countWords (blockText b)) (blocks st).

(** [ceil(n / k)] for [k >= 1]. *)
Definition ceilDiv (n k : nat) : nat := (n + k - 1) / k.

Import Parser.

(** [s] when it is one of [allowed], else [dflt]. *)
Definition oneOf (allowed : list jsstring) (dflt s : jsstring) : jsstring :=
  if existsb (eqb s) allowed then s else dflt.

Section ParserVocabulary.
Context `{Engine}.

(** [s] is [String(x || dflt)]. *)
Definition coerced (x : option value) (dflt s : jsstring) : Prop :=
  if truthyValue x
  then exists v, x = Some v /\ toStringValue v = Ok s
  else s = dflt.

(** [p] is what the members of one record of the response normalize to,
    field by field. *)
Definition normalizedFrom (members : list (jsstring * value))
  (p : ExtractedPrediction) : Prop :=
  let field name := lookupMember (js name) members in
  coerced (field "claim"%string) [] (claim p)
  /\ (if truthyValue (field "asset"%string)
      then exists s, coerced (field "asset"%string) [] s /\ asset p = Some s
      else asset p = None)
  /\ horizonMonths p
     = match field "horizonMonths"%string with
       | Some (JNumber lit) => Some lit
       | _ => None
       end
  /\ (exists c,
        coerced (field "confidence"%string) (js "medium") c
        /\ confidenceText (confidence p)
           = oneOf [js "low"; js "medium"; js "high"] (js "medium")
               (trim (toLowerCase c)))
  /\ (exists t,
        coerced (field "predictionType"%string) (js "direction") t
        /\ predictionTypeText (predictionType p)
           = oneOf [js "price"; js "direction"; js "relative performance";
                    js "macro"]
               (js "direction") (trim (toLowerCase t))).

(** Every value of the record can be printed: no member is, or holds, an
    object with a member named [toString]. *)
Definition printable (members : list (jsstring * value)) : Prop :=
  Forall (fun kv => exists s, toStringValue (snd kv) = Ok s) members.

(** The members of the record that the callback converts with [String]
    can be converted: each of [claim], [asset], [confidence] and
    [predictionType] that is there and truthy prints. *)
Definition readable (members : list (jsstring * value)) : Prop :=
  forall name v,
    In name [js "claim"; js "asset"; js "confidence"; js "predictionType"] ->
    lookupMember name members = Some v ->
    truthyValue (Some v) = true ->
    exists s, toStringValue v = Ok s.

End ParserVocabulary.

Import Effects.

(** What a computation leaves alone: the video table, the answers of the
    outside world, the configuration. *)
Definition stable (w w' : World) : Prop :=
  videos w' = videos w
  /\ dbFault w' = dbFault w
  /\ modelReply w' = modelReply w
  /\ GEMINI_API_KEY w' = GEMINI_API_KEY w.

(** [m] is stable however it ends. *)
Definition keeps {A} (m : M A) : Prop :=
  forall w, stable w (snd (m w)).

(** [m] never throws. *)
Definition returns {S A} (m : ST S A) : Prop :=
  forall s, exists a, fst (m s) = Ok a.

Section ExtractorVocabulary.
Context `{Engine}.

(** The thrown value an attempt ends with when the model answers [r]: the
    one of the call, or the one of the parser on the text. *)
Definition attemptFailure (r : ModelReply) : option Thrown :=
  match r with
  | ModelThrows e => Some e
  | ModelText t =>
      match parseJsonResponse t with
      | Ok _ => None
      | Raise e => Some e
      end
  end.

End ExtractorVocabulary.

(** A chunk the segmenter keeps: its trimmed text is not empty. *)
Definition kept (c : TranscriptChunk) : bool := truthy (trim (text c)).

(** The running text as a list: nothing when it is empty. *)
Definition optionalText (t : jsstring) : list jsstring :=
  if truthy t then [t] else [].

(** The running block is empty, or holds trimmed text with ink and at
    least one chunk id. *)
Definition runningShape (st : LoopState) : Prop :=
  (currentText st = [] /\ currentChunkIds st = [])
  \/ (hasInk (currentText st) = true
      /\ trim (currentText st) = currentText st
      /\ currentChunkIds st <> []).

(** A block with text and chunk ids. *)
Definition solidBlock (b : SegmentedBlock) : Prop :=
  blockText b <> [] /\ trim (blockText b) = blockText b /\ chunkIds b <> [].

(** The texts held by a loop state: those of the blocks pushed, then the
    running text when there is one. *)
Definition textsOf (st : LoopState) : list jsstring :=
  map blockText (blocks st) ++ optionalText (currentText st).

(** The trimmed texts of the kept chunks. *)
Definition keptTexts (l : list TranscriptChunk) : list jsstring :=
  map (fun c => trim (text c)) (List.filter kept l).

(** A block that covers the run of [len] chunks from position [s]. *)
Definition spanBlock (chunks : list TranscriptChunk) (b : SegmentedBlock) : Prop :=
  exists (s len : nat) (c0 : TranscriptChunk),
    chunks !! s = Some c0 /\ 1 <= len
    /\ blockStartTime b = startTime c0
    /\ chunkIds b = map id (List.filter kept (take len (drop s chunks)))
    /\ (kept c0 = true -> head (chunkIds b) = Some (id c0)).

(** Before iteration [k]: the running block covers the run from some
    position [s] up to [k], and every block pushed covers a run. *)
Definition spanState (chunks : list TranscriptChunk) (k : nat) (st : LoopState)
  : Prop :=
  (exists s : nat,
      s <= k
      /\ currentChunkIds st
         = map id (List.filter kept (take (k - s) (drop s chunks)))
      /\ (forall c0, chunks !! s = Some c0 -> currentStartTime st = startTime c0))
  /\ Forall (spanBlock chunks) (blocks st).

(** A block that is the [j]-th group of [k] chunks. *)
Definition groupBlock (chunks : list TranscriptChunk) (k : nat)
  (b : SegmentedBlock) : Prop :=
  exists (j : nat) (c0 : TranscriptChunk),
    chunks !! (j * k) = Some c0
    /\ blockStartTime b = startTime c0
    /\ head (chunkIds b) = Some (id c0)
    /\ chunkIds b = map id (take k (drop (j * k) chunks)).

(** The [j]-th group of [k] chunks holds a chunk that is kept: its joined
    text is not blank. *)
Definition keptGroup (chunks : list TranscriptChunk) (k j : nat) : bool :=
  existsb kept (slice chunks (j * k) (j * k + k)).

(** Two blocks that follow each other: the first holds [k] ids, and its
    ids after the first [s] are the first [o] ids of the second. *)
Definition overlapChain (k s o : nat) (bs : list SegmentedBlock) : Prop :=
  forall j b b',
    bs !! j = Some b -> bs !! (S j) = Some b' ->
    length (chunkIds b) = k
    /\ drop s (chunkIds b) = take o (chunkIds b').

(** Every chunk from position [i] on is in some block. *)
Definition coveredFrom (chunks : list TranscriptChunk) (i : nat)
  (bs : list SegmentedBlock) : Prop :=
  forall p c, i <= p -> chunks !! p = Some c ->
              exists b, b ∈ bs /\ id c ∈ chunkIds b.

(** A value of the parsed array that has none of the properties read:
    a number, a string, a boolean or an array. *)
Definition propertyless (v : value) : Prop :=
  match v with
  | JNull | JObject _ => False
  | _ => True
  end.







(** The answers of [checkRateLimit] for [key] to calls at the instants
    [times], one after the other. *)
Fixpoint admits (config : RateLimit.RateLimitConfig) (key : jsstring)
  (times : list Z) (store : RateLimit.Store) : list bool :=
  match times with
  | [] => []
  | now :: later =>
      let (result, store') := RateLimit.checkRateLimit now key config store in
      RateLimit.allowed result :: admits config key later store'
  end.

(** The videos of a result that are accounted for: inserted, skipped, or
    named in an error. *)
Definition settled (r : Orchestrator.FetchVideosResult) : Z :=
  (Orchestrator.fetchedInserted r + Orchestrator.fetchedSkipped r
   + Z.of_nat (length (Orchestrator.fetchedErrors r)))%Z.

(** The API [api] with [create] in the place of [prisma.video.create]. *)
Definition withVideoCreate (create : FetchVideos.VideoData -> M unit)
  (api : FetchVideos.YouTubeApi) : FetchVideos.YouTubeApi :=
  {| FetchVideos.YOUTUBE_API_KEY := @FetchVideos.YOUTUBE_API_KEY api;
     FetchVideos.channels_list := @FetchVideos.channels_list api;
     FetchVideos.creator_create := @FetchVideos.creator_create api;
     FetchVideos.search_list := @FetchVideos.search_list api;
     FetchVideos.video_create := create |}.

(** The videos of a page. *)
Definition pageVideos (response : FetchVideos.SearchListResponse)
  : list FetchVideos.SearchItem :=
  match FetchVideos.items response with
  | Some l => l
  | None => []
  end.

End Properties.

(* ===================================================================== *)
(** * Inputs the statements below are run on                              *)
(* ===================================================================== *)

Module Examples.

Import Effects.
Import Extractor.

(** The chunk the tests build: [chunk-<n>] of video [test-video]. *)
Definition chunkAt (n : nat) (t : jsstring) (time : Z) : TranscriptChunk :=
  mkChunk (js "chunk-" ++ natToString n) (js "test-video") t (inject_Z time).

(** [n] words [w], joined by single spaces. *)
Definition words (n : nat) : jsstring := join (js " ") (repeat (js "w") n).

Definition helloBye : list TranscriptChunk :=
  [ chunkAt 0 (js "Hello world.") 0; chunkAt 1 (js "  ") 5; chunkAt 2 (js "Bye") 10 ].

Definition helloBlank : list TranscriptChunk :=
  [ chunkAt 0 (js "Hello") 0; chunkAt 1 (js " ") 5 ].

Definition blankFirst : list TranscriptChunk :=
  [ chunkAt 0 (js "  ") 0; chunkAt 1 (js "hello") 5 ].

Definition longPair : list TranscriptChunk :=
  [ chunkAt 0 (words 60) 0; chunkAt 1 (words 61) 5 ].

Definition oneBlank : list TranscriptChunk := [ chunkAt 0 [] 0 ].

Definition sevenChunks : list TranscriptChunk :=
  [ chunkAt 0 (js "One") 0; chunkAt 1 (js "Two") 5; chunkAt 2 (js "Three") 10;
    chunkAt 3 (js "Four") 15; chunkAt 4 (js "Five") 20; chunkAt 5 (js "Six") 25;
    chunkAt 6 (js "Seven") 30 ].

(** Five chunks, the second with empty text. *)
Definition fiveWithBlank : list TranscriptChunk :=
  [ chunkAt 0 (js "a") 0; chunkAt 1 [] 5; chunkAt 2 (js "b") 10;
    chunkAt 3 (js "c") 15; chunkAt 4 (js "d") 20 ].

(** A world with nothing in its database, whose model always throws an
    [Error] with an empty message. *)
Definition emptyWorld : World :=
  {| creators := ∅;
     videos := ∅;
     transcriptChunks := [];
     predictions := [];
     runningPipelines := ∅;
     lastRequestTime := 0;
     GEMINI_API_KEY := Some (js "key");
     clock := 5000;
     idsIssued := 0;
     trace := [];
     dbFault := fun _ _ => None;
     modelReply := fun _ => ModelThrows (JsError []);
     newId := fun n => js "id-" ++ natToString n |}.

(** The world of [emptyWorld] while a pipeline runs for channel [UC1]. *)
Definition busyWorld : World := withRunning {[ js "UC1" ]} emptyWorld.

(** The same world with one video, whose transcript was fetched. *)
Definition oneVideoWorld : World :=
  withVideos {[ js "v1" := mkVideo (js "v1") (js "c1") true false ]} emptyWorld.

(** Caption sources that find nothing, and a video source that knows no
    video. *)
Definition noCaptions : Transcript.CaptionSources :=
  {| Transcript.fetchTranscriptUsingYtApi := fun _ => mret None;
     Transcript.YoutubeTranscript_fetchTranscript := fun _ => mret None |}.

Definition noVideos : Orchestrator.VideoSource :=
  {| Orchestrator.fetchVideosForChannel :=
       fun _ _ => mret (Orchestrator.mkFetchVideos 0 0 0 []);
     Orchestrator.getUnfetchedVideos := fun _ => mret [];
     Orchestrator.getVideosWithoutPredictions := fun _ => mret [] |}.

Definition defaultOptions : Orchestrator.PipelineOptions :=
  Orchestrator.mkOptions None false false false.

Definition helloBlock : SegmentedBlock :=
  mkBlock (js "hello") (inject_Z 5) [js "chunk-1"].

(** Responses of the model. *)
Definition marketUp : jsstring := jsq "[{'claim':'Market will go up'}]".

Definition wrappedReply : jsstring :=
  jsq "Here: [{'claim':'Nifty falls','confidence':' HIGH ','horizonMonths':6},{'claim':'  '}] ok".

Definition wrappedSpan : jsstring :=
  jsq "[{'claim':'Nifty falls','confidence':' HIGH ','horizonMonths':6},{'claim':'  '}]".

Definition wrappedRecords : list (list (jsstring * value)) :=
  [ [ (js "claim", JString (js "Nifty falls"));
      (js "confidence", JString (js " HIGH "));
      (js "horizonMonths", JNumber (js "6")) ];
    [ (js "claim", JString (js "  ")) ] ].

(** A reply whose one record has a claim that [String] cannot convert. *)
Definition toStringReply : jsstring := jsq "[{'claim':{'toString':1}}]".

Definition toStringRecords : list (list (jsstring * value)) :=
  [ [ (js "claim", JObject [ (js "toString", JNumber (js "1")) ]) ] ].

(** The world of [emptyWorld] with a model that throws once and then
    answers with one prediction. *)
Definition flakyWorld : World :=
  {| creators := ∅;
     videos := ∅;
     transcriptChunks := [];
     predictions := [];
     runningPipelines := ∅;
     lastRequestTime := 0;
     GEMINI_API_KEY := Some (js "key");
     clock := 5000;
     idsIssued := 0;
     trace := [];
     dbFault := fun _ _ => None;
     modelReply := fun n =>
       match n with
       | 0 => ModelThrows (JsError (js "busy"))
       | S _ => ModelText marketUp
       end;
     newId := fun n => js "id-" ++ Extractor.natToString n |}.

(** The world of [emptyWorld] with one video whose transcript was not
    fetched yet. *)
Definition freshVideoWorld : World :=
  withVideos {[ js "v1" := mkVideo (js "v1") (js "c1") false false ]} emptyWorld.

(** Caption sources for a video whose owner switched the transcript off:
    no OAuth result, and the library throws. *)
Definition disabledCaptions : Transcript.CaptionSources :=
  {| Transcript.fetchTranscriptUsingYtApi := fun _ => mret None;
     Transcript.YoutubeTranscript_fetchTranscript :=
       fun _ => throw (JsError (js "Transcript is disabled on this video")) |}.

(** Caption sources that cannot reach YouTube. *)
Definition offlineCaptions : Transcript.CaptionSources :=
  {| Transcript.fetchTranscriptUsingYtApi := fun _ => mret None;
     Transcript.YoutubeTranscript_fetchTranscript :=
       fun _ => throw (JsError (js "fetch failed")) |}.

(** A YouTube API with a key, whose channel has one page of two videos,
    one of them on finance; every insert goes through. *)
Definition twoVideosApi : FetchVideos.YouTubeApi :=
  {| FetchVideos.YOUTUBE_API_KEY := Some (js "yt-key");
     FetchVideos.channels_list :=
       fun _ _ => mret (Some (FetchVideos.mkChannelInfo (Some (js "Fin")) None None));
     FetchVideos.creator_create := fun _ => mret (js "c1");
     FetchVideos.search_list :=
       fun _ _ n _ =>
         mret (FetchVideos.mkSearchListResponse
                 (Some (take (Z.to_nat n)
                          [ FetchVideos.mkSearchItem (Some (js "a")) (Some (js "Stock Market Today"))
                              None (Some (js "2024-01-01"));
                            FetchVideos.mkSearchItem (Some (js "b")) (Some (js "My cat"))
                              None (Some (js "2024-01-02")) ]))
                 None);
     FetchVideos.video_create := fun _ => mret tt |}.

(** An insert that goes through for finance-related videos only. *)
Definition pickyCreate (d : FetchVideos.VideoData) : M unit :=
  if FetchVideos.isFinanceRelated (FetchVideos.dataTitle d)
       (FetchVideos.dataDescription d)
  then mret tt
  else throw (JsError (js "not about finance")).

End Examples.

(* ===================================================================== *)
(** * Properties of the string functions                                  *)
(* ===================================================================== *)

Module JsStringFacts.

Lemma truthy_dropWhile (p : N -> bool) (s : jsstring) :
  truthy (dropWhile p s) = existsb (fun c => negb (p c)) s.
Proof.
  induction s as [|c r IH]; simpl; [reflexivity|].
  destruct (p c); simpl; [exact IH | reflexivity].
Qed.

Lemma truthy_rev (s : jsstring) : truthy (rev s) = truthy s.
Proof.
  destruct s as [|c r]; simpl; [reflexivity|].
  destruct (rev r ++ [c]) eqn:E; [|reflexivity].
  apply app_eq_nil in E. destruct E as [_ E]. discriminate E.
Qed.

Lemma existsb_rev {A} (p : A -> bool) (l : list A) :
  existsb p (rev l) = existsb p l.
Proof.
  induction l as [|x r IH]; simpl; [reflexivity|].
  rewrite existsb_app, IH. simpl. rewrite orb_false_r. apply orb_comm.
Qed.

Lemma hasInk_dropWhile (s : jsstring) :
  hasInk (dropWhile isWhiteSpace s) = hasInk s.
Proof.
  unfold hasInk. induction s as [|c r IH]; simpl; [reflexivity|].
  destruct (isWhiteSpace c) eqn:E; simpl; [exact IH|].
  rewrite E. reflexivity.
Qed.

(** [s.trim()] is non-empty exactly when [s] has ink. *)
Lemma truthy_trim (s : jsstring) : truthy (trim s) = hasInk s.
Proof.
  unfold trim, trimEnd, trimStart.
  rewrite truthy_rev, truthy_dropWhile.
  fold (hasInk (rev (dropWhile isWhiteSpace s))).
  unfold hasInk at 1. rewrite existsb_rev.
  apply hasInk_dropWhile.
Qed.

Lemma hasInk_app (a b : jsstring) : hasInk (a ++ b) = hasInk a || hasInk b.
Proof. apply existsb_app. Qed.

Lemma truthy_hasInk (s : jsstring) : hasInk s = true -> truthy s = true.
Proof. destruct s; [discriminate | reflexivity]. Qed.

Lemma dropWhile_idem {A} (p : A -> bool) (l : list A) :
  dropWhile p (dropWhile p l) = dropWhile p l.
Proof.
  induction l as [|x r IH]; simpl; [reflexivity|].
  destruct (p x) eqn:E; [exact IH|]. simpl. rewrite E. reflexivity.
Qed.

(** Dropping white space at the end keeps a first code unit with ink. *)
Lemma trimEnd_cons_ink (c : N) (r : jsstring) :
  isWhiteSpace c = false -> exists r', trimEnd (c :: r) = c :: r'.
Proof.
  intros Hc. unfold trimEnd. simpl.
  induction (rev r) as [|x t IH]; simpl.
  - rewrite Hc. exists []. reflexivity.
  - destruct (isWhiteSpace x).
    + exact IH.
    + exists (rev (x :: t)).
      change (rev ((x :: t) ++ [c]) = c :: rev (x :: t)).
      rewrite rev_app_distr. reflexivity.
Qed.

Lemma trimStart_fixes (s : jsstring) :
  match s with
  | [] => True
  | c :: _ => isWhiteSpace c = false
  end -> trimStart s = s.
Proof.
  unfold trimStart. destruct s as [|c r]; simpl; [reflexivity|].
  intros ->. reflexivity.
Qed.

Lemma trimStart_head (s : jsstring) :
  match trimStart s with
  | [] => True
  | c :: _ => isWhiteSpace c = false
  end.
Proof.
  unfold trimStart. induction s as [|c r IH]; simpl; [exact I|].
  destruct (isWhiteSpace c) eqn:E; [exact IH | exact E].
Qed.

Lemma trimEnd_idem (s : jsstring) : trimEnd (trimEnd s) = trimEnd s.
Proof.
  unfold trimEnd. rewrite rev_involutive, dropWhile_idem. reflexivity.
Qed.

(** Trimming twice is trimming once. *)
Lemma trim_idem (s : jsstring) : trim (trim s) = trim s.
Proof.
  unfold trim.
  pose proof (trimStart_head s) as Hh.
  destruct (trimStart s) as [|c r].
  - reflexivity.
  - destruct (trimEnd_cons_ink c r Hh) as [r' Hr'].
    pose proof (trimEnd_idem (c :: r)) as Hi.
    rewrite Hr' in *.
    rewrite (trimStart_fixes (c :: r')) by exact Hh.
    exact Hi.
Qed.

Lemma truthy_true_iff (s : jsstring) : truthy s = true <-> s <> [].
Proof. destruct s; simpl; split; congruence. Qed.

Lemma truthy_false_iff (s : jsstring) : truthy s = false <-> s = [].
Proof. destruct s; simpl; split; congruence. Qed.

(** The trimmed text of a chunk that is kept has ink. *)
Lemma trim_ink (s : jsstring) : trim s <> [] -> hasInk (trim s) = true.
Proof.
  intros Hne. rewrite <- truthy_trim, trim_idem.
  apply truthy_true_iff, Hne.
Qed.

End JsStringFacts.

(* ===================================================================== *)
(** * The segmenter                                                       *)
(* ===================================================================== *)

Module SegmenterFacts.

Import Segmenter.
Import JsStringFacts.
Import Properties.
Import Examples.

Lemma appendChunk_ink (cur chunkText : jsstring) :
  hasInk chunkText = true -> hasInk (appendChunk cur chunkText) = true.
Proof.
  intros Hink. unfold appendChunk.
  destruct (truthy cur); [|exact Hink].
  rewrite !hasInk_app, Hink, !orb_true_r. reflexivity.
Qed.

(** The guard [currentText.trim()] of the finalizing branch always holds
    once a kept chunk was appended. *)
Lemma appended_text_truthy (cur t : jsstring) :
  trim t <> [] -> truthy (trim (appendChunk cur (trim t))) = true.
Proof.
  intros Hne. rewrite truthy_trim.
  apply appendChunk_ink, trim_ink, Hne.
Qed.

Lemma forLoop_app (chunks a b : list TranscriptChunk) (i : nat) (st : LoopState) :
  forLoop chunks i (a ++ b) st
  = forLoop chunks (i + length a) b (forLoop chunks i a st).
Proof.
  revert i st. induction a as [|c a IH]; intros i st; simpl.
  - rewrite Nat.add_0_r. reflexivity.
  - rewrite IH. f_equal. lia.
Qed.

(** The run goes through the state before iteration [i], the body at
    [i], and the rest of the loop. *)
Lemma forLoop_through (chunks : list TranscriptChunk) (i : nat)
  (chunk : TranscriptChunk) (st0 : LoopState) :
  chunks !! i = Some chunk ->
  forLoop chunks 0 chunks st0
  = forLoop chunks (S i) (drop (S i) chunks)
      (loopBody chunks i chunk (forLoop chunks 0 (take i chunks) st0)).
Proof.
  intros Hi.
  rewrite <- (take_drop_middle chunks i chunk Hi) at 2.
  rewrite forLoop_app. simpl.
  rewrite length_take_le by (apply lookup_lt_Some in Hi; lia).
  reflexivity.
Qed.

Lemma segmentTranscript_through (chunks : list TranscriptChunk) (i : nat)
  (chunk : TranscriptChunk) (st : LoopState) :
  chunks !! i = Some chunk ->
  stateBefore chunks i = Some st ->
  segmentTranscript chunks
  = flushRemaining
      (forLoop chunks (S i) (drop (S i) chunks) (loopBody chunks i chunk st)).
Proof.
  intros Hi Hst. destruct chunks as [|first rest]; [discriminate Hst|].
  unfold stateBefore in Hst. injection Hst as <-.
  unfold segmentTranscript. f_equal. apply forLoop_through, Hi.
Qed.

Lemma shouldFinalize_true (n i : nat) (cur : jsstring) (ids : list jsstring) :
  shouldFinalize n i cur ids = true <->
  (i = n - 1 \/
   (30 <= countWords cur /\
    (endsWithSentence cur = true \/ 120 <= countWords cur \/ 5 <= length ids))).
Proof.
  unfold shouldFinalize, MIN_WORDS_PER_BLOCK, MAX_WORDS_PER_BLOCK,
    TARGET_CHUNKS_PER_BLOCK.
  rewrite orb_true_iff, andb_true_iff, !orb_true_iff.
  rewrite Nat.eqb_eq, !Nat.leb_le. tauto.
Qed.

(** What one iteration decides, at a state the run reaches. *)
Lemma loopBody_decides
  (chunks : list TranscriptChunk) (i : nat) (chunk : TranscriptChunk)
  (st : LoopState) :
  chunks !! i = Some chunk ->
  stateBefore chunks i = Some st ->
  let st' := loopBody chunks i chunk st in
  let cur := appendChunk (currentText st) (trim (text chunk)) in
  let ids := currentChunkIds st ++ [id chunk] in
  let closed := mkBlock (trim cur) (currentStartTime st) ids in
  let closes :=
    i = length chunks - 1 \/
    (30 <= countWords cur /\
     (endsWithSentence cur = true \/ 120 <= countWords cur \/ 5 <= length ids)) in
  segmentTranscript chunks
    = flushRemaining (forLoop chunks (S i) (drop (S i) chunks) st')
  /\ (trim (text chunk) = [] -> st' = st)
  /\ (trim (text chunk) <> [] ->
      (closes <->
         blocks st' = blocks st ++ [closed]
         /\ currentText st' = [] /\ currentChunkIds st' = [])
      /\ (~ closes ->
         blocks st' = blocks st
         /\ currentText st' = cur /\ currentChunkIds st' = ids)).
Proof.
  intros Hi Hst st' cur ids closed closes.
  split; [|split].
  - apply segmentTranscript_through; assumption.
  - intros Hblank. subst st'. unfold loopBody. rewrite Hblank. reflexivity.
  - intros Hkept.
    assert (Hstep :
      st' = if shouldFinalize (length chunks) i cur ids
            then {| blocks := blocks st ++ [closed];
                    currentText := [];
                    currentStartTime :=
                      if i <? length chunks - 1
                      then match chunks !! (i + 1) with
                           | Some next => startTime next
                           | None => currentStartTime st
                           end
                      else currentStartTime st;
                    currentChunkIds := [] |}
            else {| blocks := blocks st; currentText := cur;
                    currentStartTime := currentStartTime st;
                    currentChunkIds := ids |}).
    { subst st'. unfold loopBody.
      apply truthy_true_iff in Hkept as Ht. rewrite Ht. simpl negb. cbv iota.
      pose proof (appended_text_truthy (currentText st) (text chunk) Hkept) as Hg.
      fold cur in Hg |- *. fold ids. cbv zeta.
      rewrite Hg, andb_true_r. reflexivity. }
    pose proof (shouldFinalize_true (length chunks) i cur ids) as Hiff.
    fold closes in Hiff.
    destruct (shouldFinalize (length chunks) i cur ids) eqn:Hsf.
    + assert (Hc : closes) by (apply Hiff; reflexivity).
      rewrite Hstep. simpl. split.
      * split; [intros _; repeat split; reflexivity | intros _; exact Hc].
      * intros Hn. contradiction.
    + assert (Hc : ~ closes).
      { intros Hc. apply Hiff in Hc. discriminate Hc. }
      rewrite Hstep. simpl. split.
      * split; [intros Hc'; contradiction|].
        intros [Hb _]. exfalso.
        apply (f_equal (@length _)) in Hb.
        rewrite length_app in Hb. simpl in Hb. lia.
      * intros _. repeat split; reflexivity.
Qed.

(** C7. [segmentTranscript] on a white-space chunk followed by the chunk
    "hello": the one block holds the second chunk only and carries the
    start time of the first, skipped one. *)
Theorem segmentTranscript_startTime_of_skipped_chunk :
  segmentTranscript blankFirst
  = [ mkBlock (js "hello") (inject_Z 0) [js "chunk-1"] ]
  /\ startTime (chunkAt 1 (js "hello") 5) = inject_Z 5.
Proof. split; reflexivity. Qed.

Lemma forLoop_prefix_invariant (chunks : list TranscriptChunk)
  (P : nat -> LoopState -> Prop) (st0 : LoopState) :
  P 0 st0 ->
  (forall k c s, chunks !! k = Some c -> P k s -> P (S k) (loopBody chunks k c s)) ->
  forall j, j <= length chunks -> P j (forLoop chunks 0 (take j chunks) st0).
Proof.
  intros H0 Hstep j. induction j as [|j IH]; intros Hj.
  - rewrite take_0. exact H0.
  - destruct (lookup_lt_is_Some_2 chunks j ltac:(lia)) as [c Hc].
    rewrite (take_S_r chunks j c Hc), forLoop_app. simpl.
    rewrite length_take_le by lia.
    apply Hstep; [exact Hc | apply IH; lia].
Qed.

Lemma countWords_nil : countWords [] = 0.
Proof. reflexivity. Qed.

Lemma countWords_trim (t : jsstring) : countWords (trim t) = countWords t.
Proof. unfold countWords. rewrite trim_idem. reflexivity. Qed.

(** What one iteration does to a kept chunk. *)
Lemma loopBody_kept (chunks : list TranscriptChunk) (i : nat)
  (chunk : TranscriptChunk) (st : LoopState) :
  trim (text chunk) <> [] ->
  let cur := appendChunk (currentText st) (trim (text chunk)) in
  let ids := currentChunkIds st ++ [id chunk] in
  (shouldFinalize (length chunks) i cur ids = true
   /\ blocks (loopBody chunks i chunk st)
      = blocks st ++ [mkBlock (trim cur) (currentStartTime st) ids]
   /\ currentText (loopBody chunks i chunk st) = [])
  \/ (shouldFinalize (length chunks) i cur ids = false
      /\ blocks (loopBody chunks i chunk st) = blocks st
      /\ currentText (loopBody chunks i chunk st) = cur).
Proof.
  intros Hkept cur ids. unfold loopBody.
  apply truthy_true_iff in Hkept as Ht. rewrite Ht. simpl negb. cbv iota.
  pose proof (appended_text_truthy (currentText st) (text chunk) Hkept) as Hg.
  fold cur in Hg |- *. fold ids. cbv zeta. rewrite Hg, andb_true_r.
  destruct (shouldFinalize (length chunks) i cur ids); simpl.
  - left. repeat split; reflexivity.
  - right. repeat split; reflexivity.
Qed.

Lemma loopBody_blank (chunks : list TranscriptChunk) (i : nat)
  (chunk : TranscriptChunk) (st : LoopState) :
  trim (text chunk) = [] -> loopBody chunks i chunk st = st.
Proof. intros Hb. unfold loopBody. rewrite Hb. reflexivity. Qed.

Lemma runningOk_step (chunks : list TranscriptChunk) (k : nat)
  (c : TranscriptChunk) (s : LoopState) :
  chunks !! k = Some c -> runningOk chunks s ->
  runningOk chunks (loopBody chunks k c s).
Proof.
  intros Hc (Hb & Hcur & Hlt).
  destruct (decide (trim (text c) = [])) as [Hblank|Hkept].
  { rewrite loopBody_blank by exact Hblank. repeat split; assumption. }
  assert (Hbuilt : builtWithin chunks
            (trim (appendChunk (currentText s) (trim (text c))))).
  { exists (currentText s), c. repeat split; try assumption.
    apply list_elem_of_In. eapply list_elem_of_lookup_2, Hc. }
  destruct (loopBody_kept chunks k c s Hkept) as [(Hsf & Hbl & Ht)|(Hsf & Hbl & Ht)].
  - unfold runningOk. rewrite Hbl, Ht. repeat split.
    + apply Forall_app. split; [exact Hb|]. constructor; [exact Hbuilt|constructor].
    + left. reflexivity.
    + rewrite countWords_nil. unfold MAX_WORDS_PER_BLOCK. lia.
  - unfold runningOk. rewrite Hbl, Ht. repeat split.
    + exact Hb.
    + right. exact Hbuilt.
    + destruct (Nat.lt_ge_cases
                  (countWords (appendChunk (currentText s) (trim (text c))))
                  MAX_WORDS_PER_BLOCK) as [Hl|Hge]; [exact Hl|].
      exfalso.
      assert (Htrue : shouldFinalize (length chunks) k
                (appendChunk (currentText s) (trim (text c)))
                (currentChunkIds s ++ [id c]) = true).
      { apply shouldFinalize_true. right. unfold MAX_WORDS_PER_BLOCK in Hge.
        split; [lia|]. right. left. exact Hge. }
      rewrite Htrue in Hsf. discriminate Hsf.
Qed.

Lemma earlyOk_step (chunks : list TranscriptChunk) (k : nat)
  (c : TranscriptChunk) (s : LoopState) :
  chunks !! k = Some c -> earlyOk (length chunks) k s ->
  earlyOk (length chunks) (S k) (loopBody chunks k c s).
Proof.
  intros Hc Hearly Hk.
  specialize (Hearly ltac:(lia)).
  destruct (decide (trim (text c) = [])) as [Hblank|Hkept].
  { rewrite loopBody_blank by exact Hblank. exact Hearly. }
  destruct (loopBody_kept chunks k c s Hkept) as [(Hsf & Hbl & _)|(_ & Hbl & _)];
    rewrite Hbl; [|exact Hearly].
  apply Forall_app. split; [exact Hearly|].
  constructor; [|constructor]. simpl.
  apply shouldFinalize_true in Hsf. rewrite countWords_trim.
  unfold MIN_WORDS_PER_BLOCK. destruct Hsf as [Hlast|[Hw _]]; [lia | exact Hw].
Qed.

Lemma stateBefore_cons (chunks rest : list TranscriptChunk)
  (first : TranscriptChunk) (i : nat) :
  chunks = first :: rest ->
  stateBefore chunks i
  = Some (forLoop chunks 0 (take i chunks) (initState first)).
Proof. intros ->. reflexivity. Qed.

Lemma segmentTranscript_cons (chunks rest : list TranscriptChunk)
  (first : TranscriptChunk) :
  chunks = first :: rest ->
  segmentTranscript chunks
  = flushRemaining (forLoop chunks 0 chunks (initState first)).
Proof. intros ->. reflexivity. Qed.

(** C1, as the code has it.  At every iteration of the loop of
    [segmentTranscript], on every input: a chunk whose trimmed text is
    empty leaves the running block, the output and the start time as they
    are; a kept chunk is appended, and the running block is then closed
    and pushed to the output exactly when the chunk is the last of the
    input, or the block has at least 30 words and ends a sentence, has at
    least 120 words, or has at least 5 chunks.  The state after the
    iteration is the one the run goes on from.  After the loop, a running
    block that is still open is closed and pushed as well; one is open
    only when the last chunk of the input is blank. *)
Theorem segmentTranscript_finalizes_exactly_when
  (chunks : list TranscriptChunk) :
  (forall i chunk st,
      chunks !! i = Some chunk ->
      stateBefore chunks i = Some st ->
      let st' := loopBody chunks i chunk st in
      let cur := appendChunk (currentText st) (trim (text chunk)) in
      let ids := currentChunkIds st ++ [id chunk] in
      let closed := mkBlock (trim cur) (currentStartTime st) ids in
      let closes :=
        i = length chunks - 1 \/
        (30 <= countWords cur /\
         (endsWithSentence cur = true \/ 120 <= countWords cur
          \/ 5 <= length ids)) in
      segmentTranscript chunks
        = flushRemaining (forLoop chunks (S i) (drop (S i) chunks) st')
      /\ (trim (text chunk) = [] -> st' = st)
      /\ (trim (text chunk) <> [] ->
          (closes <->
             blocks st' = blocks st ++ [closed]
             /\ currentText st' = [] /\ currentChunkIds st' = [])
          /\ (~ closes ->
             blocks st' = blocks st
             /\ currentText st' = cur /\ currentChunkIds st' = ids)))
  /\ (forall final,
        stateBefore chunks (length chunks) = Some final ->
        segmentTranscript chunks
        = blocks final
          ++ (if truthy (trim (currentText final))
              then [ mkBlock (trim (currentText final))
                       (currentStartTime final) (currentChunkIds final) ]
              else [])
        /\ (currentText final <> [] ->
            exists lastChunk,
              last chunks = Some lastChunk /\ trim (text lastChunk) = [])).
Proof.
  split; [intros i chunk st; apply loopBody_decides|].
  intros final Hfinal.
  destruct chunks as [|first rest] eqn:Hchunks; [discriminate Hfinal|].
  rewrite <- Hchunks in *.
  rewrite (stateBefore_cons chunks rest first _ Hchunks) in Hfinal.
  rewrite take_ge in Hfinal by lia. injection Hfinal as Hfinal.
  rewrite (segmentTranscript_cons chunks rest first Hchunks), Hfinal.
  split.
  - unfold flushRemaining. destruct (truthy (trim (currentText final)));
      [reflexivity | rewrite app_nil_r; reflexivity].
  - intros Hopen.
    set (n := length chunks).
    assert (Hn : 1 <= n) by (subst n; rewrite Hchunks; simpl; lia).
    destruct (lookup_lt_is_Some_2 chunks (n - 1) ltac:(lia)) as [c Hc].
    exists c. split.
    { rewrite last_lookup. replace (pred (length chunks)) with (n - 1) by lia.
      exact Hc. }
    destruct (decide (trim (text c) = [])) as [Hblank|Hkept]; [exact Hblank|].
    exfalso. apply Hopen. rewrite <- Hfinal.
    rewrite (forLoop_through chunks (n - 1) c _ Hc).
    replace (S (n - 1)) with (length chunks) by (subst n; lia).
    rewrite drop_all. simpl forLoop.
    destruct (loopBody_kept chunks (n - 1) c
                (forLoop chunks 0 (take (n - 1) chunks) (initState first)) Hkept)
      as [(_ & _ & Ht)|(Hsf & _ & _)]; [exact Ht|].
    assert (Htrue : shouldFinalize (length chunks) (n - 1)
              (appendChunk
                 (currentText
                    (forLoop chunks 0 (take (n - 1) chunks) (initState first)))
                 (trim (text c)))
              (currentChunkIds
                 (forLoop chunks 0 (take (n - 1) chunks) (initState first))
               ++ [id c]) = true).
    { apply shouldFinalize_true. left. reflexivity. }
    rewrite Htrue in Hsf. discriminate Hsf.
Qed.

(** The theorem above at the first chunk of [helloBye]. *)
Lemma segmentTranscript_finalizes_exactly_when_witness :
  helloBye !! 0 = Some (chunkAt 0 (js "Hello world.") 0)
  /\ stateBefore helloBye 0 = Some (initState (chunkAt 0 (js "Hello world.") 0))
  /\ segmentTranscript helloBye
     = flushRemaining
         (forLoop helloBye 1 (drop 1 helloBye)
            (loopBody helloBye 0 (chunkAt 0 (js "Hello world.") 0)
               (initState (chunkAt 0 (js "Hello world.") 0)))).
Proof.
  split; [reflexivity|]. split; [reflexivity|].
  exact (proj1 (proj1 (segmentTranscript_finalizes_exactly_when helloBye) 0
                  (chunkAt 0 (js "Hello world.") 0)
                  (initState (chunkAt 0 (js "Hello world.") 0))
                  eq_refl eq_refl)).
Defined.

(** C1, as claimed, fails on [helloBlank], the chunk "Hello" followed by a
    blank chunk: the output holds the block "Hello", and after no kept
    chunk did the condition for closing hold. *)
Lemma segmentTranscript_residual_block :
  segmentTranscript helloBlank
  = [ mkBlock (js "Hello") (inject_Z 0) [js "chunk-0"] ]
  /\ ~ (exists i chunk st,
          helloBlank !! i = Some chunk
          /\ stateBefore helloBlank i = Some st
          /\ trim (text chunk) <> []
          /\ (i = length helloBlank - 1
              \/ (30 <= countWords (appendChunk (currentText st) (trim (text chunk)))
                  /\ (endsWithSentence
                        (appendChunk (currentText st) (trim (text chunk))) = true
                      \/ 120 <= countWords
                                  (appendChunk (currentText st) (trim (text chunk)))
                      \/ 5 <= length (currentChunkIds st ++ [id chunk]))))).
Proof.
  split; [reflexivity|].
  intros (i & chunk & st & Hi & Hst & Hkept & Hcond).
  destruct i as [|[|i]].
  - injection Hi as <-. injection Hst as <-.
    vm_compute in Hcond. destruct Hcond as [Hc|[Hc _]]; [discriminate Hc | lia].
  - injection Hi as <-. apply Hkept. reflexivity.
  - discriminate Hi.
Qed.

(** The output is what was pushed before the last iteration, followed by
    at most one more block. *)
Lemma segmentTranscript_shape (chunks : list TranscriptChunk) :
  exists early tail,
    segmentTranscript chunks = early ++ tail
    /\ length tail <= 1
    /\ Forall (fun b => MIN_WORDS_PER_BLOCK <= countWords (blockText b)) early.
Proof.
  destruct chunks as [|first rest] eqn:Hchunks.
  { exists [], []. repeat split; [simpl; lia | constructor]. }
  rewrite <- Hchunks.
  set (n := length chunks).
  assert (Hn : 1 <= n) by (subst n; rewrite Hchunks; simpl; lia).
  destruct (lookup_lt_is_Some_2 chunks (n - 1) ltac:(lia)) as [c Hc].
  set (pre := forLoop chunks 0 (take (n - 1) chunks) (initState first)).
  assert (Hpre : stateBefore chunks (n - 1) = Some pre).
  { apply (stateBefore_cons chunks rest first), Hchunks. }
  assert (Hearly : earlyOk n (n - 1) pre).
  { apply (forLoop_prefix_invariant chunks (earlyOk n)).
    - intros _. constructor.
    - intros k c0 s Hk. apply earlyOk_step, Hk.
    - lia. }
  specialize (Hearly (Nat.le_refl _)).
  rewrite (segmentTranscript_through chunks (n - 1) c pre Hc Hpre).
  replace (S (n - 1)) with (length chunks) by (subst n; lia).
  rewrite drop_all. simpl forLoop.
  destruct (decide (trim (text c) = [])) as [Hblank|Hkept].
  - rewrite loopBody_blank by exact Hblank. unfold flushRemaining.
    destruct (truthy (trim (currentText pre))).
    + eexists (blocks pre), [_]. repeat split; [simpl; lia | exact Hearly].
    + exists (blocks pre), []. rewrite app_nil_r.
      repeat split; [simpl; lia | exact Hearly].
  - destruct (loopBody_kept chunks (n - 1) c pre Hkept)
      as [(_ & Hbl & Ht)|(Hsf & _ & _)].
    + unfold flushRemaining. rewrite Ht, Hbl. simpl.
      eexists (blocks pre), [_]. repeat split; [simpl; lia | exact Hearly].
    + exfalso.
      assert (Htrue : shouldFinalize (length chunks) (n - 1)
                (appendChunk (currentText pre) (trim (text c)))
                (currentChunkIds pre ++ [id c]) = true).
      { apply shouldFinalize_true. left. reflexivity. }
      rewrite Htrue in Hsf. discriminate Hsf.
Qed.

Lemma segmentTranscript_built (chunks : list TranscriptChunk) :
  Forall (fun b => builtWithin chunks (blockText b)) (segmentTranscript chunks).
Proof.
  destruct chunks as [|first rest] eqn:Hchunks; [constructor|].
  rewrite <- Hchunks.
  rewrite (segmentTranscript_cons chunks rest first Hchunks).
  assert (Hok : runningOk chunks (forLoop chunks 0 chunks (initState first))).
  { rewrite <- (take_ge chunks (length chunks)) at 3 by lia.
    apply (forLoop_prefix_invariant chunks (fun _ => runningOk chunks)).
    - repeat split; [constructor | left; reflexivity |].
      simpl. rewrite countWords_nil. unfold MAX_WORDS_PER_BLOCK. lia.
    - intros k c s Hk. apply runningOk_step, Hk.
    - lia. }
  destruct Hok as (Hb & Hcur & _). unfold flushRemaining.
  destruct (truthy (trim (currentText _))) eqn:Ht; [|exact Hb].
  apply Forall_app. split; [exact Hb|]. constructor; [|constructor]. simpl.
  destruct Hcur as [Hnil|Hbuilt]; [|exact Hbuilt].
  rewrite Hnil in Ht. discriminate Ht.
Qed.

(** C8, as the code has it.  Every block of the output but the last holds
    at least 30 words.  Every block was closed at the first chunk that
    brought it to 120 words: before its final chunk was appended it held
    fewer than 120 words.  (It may hold more than 120 once that chunk is
    in, whatever the size of the chunk.) *)
Theorem segmentTranscript_bounds (chunks : list TranscriptChunk) :
  (forall j b,
      S j < length (segmentTranscript chunks) ->
      segmentTranscript chunks !! j = Some b ->
      30 <= countWords (blockText b))
  /\ (forall b,
        In b (segmentTranscript chunks) ->
        exists before chunk,
          In chunk chunks /\ trim (text chunk) <> []
          /\ blockText b = trim (appendChunk before (trim (text chunk)))
          /\ countWords before < 120).
Proof.
  split.
  - intros j b Hj Hb.
    destruct (segmentTranscript_shape chunks) as (early & tail & Heq & Htail & Hearly).
    rewrite Heq in Hj, Hb. rewrite length_app in Hj.
    rewrite lookup_app_l in Hb by lia.
    rewrite Forall_forall in Hearly.
    apply (Hearly b). eapply list_elem_of_lookup_2, Hb.
  - intros b Hb.
    pose proof (segmentTranscript_built chunks) as Hall.
    rewrite Forall_forall in Hall. apply (Hall b), list_elem_of_In, Hb.
Qed.

(** The theorem above on [longPair]. *)
Lemma segmentTranscript_bounds_witness :
  In (mkBlock (words 60 ++ js " " ++ words 61) (inject_Z 0)
        [js "chunk-0"; js "chunk-1"])
     (segmentTranscript longPair)
  /\ exists before chunk,
       In chunk longPair /\ trim (text chunk) <> []
       /\ words 60 ++ js " " ++ words 61
          = trim (appendChunk before (trim (text chunk)))
       /\ countWords before < 120.
Proof.
  assert (Hin : In (mkBlock (words 60 ++ js " " ++ words 61) (inject_Z 0)
                      [js "chunk-0"; js "chunk-1"])
                   (segmentTranscript longPair)).
  { vm_compute. left. reflexivity. }
  split; [exact Hin|].
  exact (proj2 (segmentTranscript_bounds longPair) _ Hin).
Defined.

(** C8, as claimed, fails on [longPair]: its one block holds 121 words,
    and neither chunk holds more than 120. *)
Lemma segmentTranscript_block_over_120_words :
  ~ (forall b,
       In b (segmentTranscript longPair) ->
       countWords (blockText b) <= 120
       \/ exists chunk,
            In chunk longPair /\ 120 < countWords (text chunk)
            /\ blockText b = trim (text chunk)).
Proof.
  intros H.
  assert (Hin : In (mkBlock (words 60 ++ js " " ++ words 61) (inject_Z 0)
                      [js "chunk-0"; js "chunk-1"])
                   (segmentTranscript longPair)).
  { vm_compute. left. reflexivity. }
  destruct (H _ Hin) as [Hle|(chunk & Hc & Hgt & _)].
  - vm_compute in Hle. lia.
  - destruct Hc as [<-|[<-|[]]]; vm_compute in Hgt; lia.
Qed.

(** ** Fixed-count segmentation *)

Lemma ceilDiv_0 (k : nat) : 1 <= k -> ceilDiv 0 k = 0.
Proof. intros Hk. unfold ceilDiv. apply Nat.div_small. lia. Qed.

Lemma ceilDiv_step (n i k : nat) :
  1 <= k -> i < n -> ceilDiv (n - i) k = S (ceilDiv (n - (i + k)) k).
Proof.
  intros Hk Hi. unfold ceilDiv.
  destruct (Nat.le_gt_cases (i + k) n) as [Hle|Hgt].
  - replace (n - i + k - 1) with ((n - (i + k) + k - 1) + 1 * k) by lia.
    rewrite Nat.div_add by lia. lia.
  - replace (n - (i + k) + k - 1) with (k - 1) by lia.
    rewrite (Nat.div_small (k - 1) k) by lia.
    replace (n - i + k - 1) with ((n - i - 1) + 1 * k) by lia.
    rewrite Nat.div_add by lia.
    rewrite (Nat.div_small (n - i - 1) k) by lia. reflexivity.
Qed.

Lemma ceilDiv_pos (n k : nat) : 1 <= k -> 1 <= ceilDiv n k -> 1 <= n.
Proof.
  intros Hk Hc. destruct n as [|n]; [|lia].
  rewrite ceilDiv_0 in Hc by exact Hk. lia.
Qed.

Lemma hasInk_join_head (sep p : jsstring) (r : list jsstring) :
  hasInk p = true -> hasInk (join sep (p :: r)) = true.
Proof.
  intros Hp. simpl. destruct r; [exact Hp|].
  rewrite hasInk_app, Hp. reflexivity.
Qed.

Lemma length_slice (chunks : list TranscriptChunk) (i k : nat) :
  length (slice chunks i (i + k)) = Nat.min k (length chunks - i).
Proof.
  unfold slice. replace (i + k - i) with k by lia.
  rewrite length_take, length_drop. reflexivity.
Qed.

Lemma hasInk_trim (s : jsstring) : hasInk (trim s) = hasInk s.
Proof. rewrite <- (truthy_trim (trim s)), trim_idem. apply truthy_trim. Qed.

Lemma hasInk_join_texts (g : list TranscriptChunk) :
  hasInk (join (js " ") (List.map (fun c => trim (text c)) g)) = existsb kept g.
Proof.
  induction g as [|c g IH]; [reflexivity|].
  cbn [List.map existsb]. unfold kept at 1. rewrite truthy_trim.
  destruct g as [|c' g].
  - simpl. rewrite hasInk_trim. destruct (hasInk (text c)); reflexivity.
  - change (join (js " ") (trim (text c) :: List.map (fun c => trim (text c)) (c' :: g)))
      with (trim (text c) ++ js " "
              ++ join (js " ") (List.map (fun c => trim (text c)) (c' :: g))).
    rewrite !hasInk_app, IH, hasInk_trim. reflexivity.
Qed.

Lemma chunkCountLoop_spec (chunks : list TranscriptChunk) (k : nat) :
  1 <= k ->
  forall fuel i out,
    length chunks - i < fuel ->
    exists bs,
      chunkCountLoop fuel chunks k i out = Some (out ++ bs)
      /\ length bs <= ceilDiv (length chunks - i) k
      /\ Forall (fun b => 1 <= length (chunkIds b) <= k) bs
      /\ (forall j b, S j < length bs -> bs !! j = Some b ->
                      length (chunkIds b) = k)
      /\ (Forall (fun c => trim (text c) <> []) chunks ->
          length bs = ceilDiv (length chunks - i) k).
Proof.
  intros Hk fuel. induction fuel as [|fuel IH]; intros i out Hfuel; [lia|].
  simpl. destruct (i <? length chunks) eqn:Hi.
  2:{ apply Nat.ltb_ge in Hi. exists []. rewrite app_nil_r.
      replace (length chunks - i) with 0 by lia.
      rewrite ceilDiv_0 by exact Hk.
      repeat split; try constructor; simpl; intros; lia. }
  apply Nat.ltb_lt in Hi.
  pose proof (length_slice chunks i k) as Hlen.
  pose proof (ceilDiv_step (length chunks) i k Hk Hi) as Hstep.
  set (group := slice chunks i (i + k)) in *.
  destruct group as [|c0 g] eqn:Hgroup; [simpl in Hlen; lia|].
  set (t := join (js " ") (List.map (fun c => trim (text c)) (c0 :: g))).
  set (b := {| blockText := trim t; blockStartTime := startTime c0;
               chunkIds := List.map id (c0 :: g) |}).
  assert (Hids : length (chunkIds b) = Nat.min k (length chunks - i)).
  { subst b. cbn [chunkIds]. rewrite length_map. exact Hlen. }
  destruct (truthy (trim t)) eqn:Ht.
  - destruct (IH (i + k) (out ++ [b]) ltac:(lia)) as (bs & Hrun & Hle & Hall & Hfull & Heq).
    exists (b :: bs). rewrite Hrun, <- app_assoc. simpl.
    repeat split.
    + lia.
    + constructor; [lia | exact Hall].
    + intros j b' Hj Hb'. destruct j as [|j].
      * injection Hb' as <-. simpl in Hj.
        assert (1 <= length chunks - (i + k)).
        { apply (ceilDiv_pos _ k Hk). lia. }
        lia.
      * simpl in Hj, Hb'. apply (Hfull j b'); [lia | exact Hb'].
    + intros Hnb. rewrite (Heq Hnb). lia.
  - destruct (IH (i + k) out ltac:(lia)) as (bs & Hrun & Hle & Hall & Hfull & Heq).
    exists bs. rewrite Hrun. repeat split.
    + lia.
    + exact Hall.
    + exact Hfull.
    + intros Hnb. exfalso.
      assert (Hc0 : trim (text c0) <> []).
      { rewrite Forall_forall in Hnb. apply Hnb.
        assert (Hin : c0 ∈ slice chunks i (i + k)).
        { fold group. rewrite Hgroup. left. }
        unfold slice in Hin.
        apply subseteq_take, subseteq_drop in Hin. exact Hin. }
      rewrite truthy_trim in Ht. subst t. cbn [List.map] in Ht.
      rewrite hasInk_join_head in Ht; [discriminate Ht|].
      apply trim_ink, Hc0.
Qed.

Lemma chunkCountLoop_count (chunks : list TranscriptChunk) (k : nat) :
  1 <= k ->
  forall fuel j out,
    length chunks - j * k < fuel ->
    exists bs,
      chunkCountLoop fuel chunks k (j * k) out = Some (out ++ bs)
      /\ length bs
         = length (List.filter (keptGroup chunks k)
                     (seq j (ceilDiv (length chunks - j * k) k))).
Proof.
  intros Hk fuel. induction fuel as [|fuel IH]; intros j out Hfuel; [lia|].
  simpl. destruct (j * k <? length chunks) eqn:Hi.
  2:{ apply Nat.ltb_ge in Hi. exists []. rewrite app_nil_r.
      replace (length chunks - j * k) with 0 by lia.
      rewrite ceilDiv_0 by exact Hk. split; reflexivity. }
  apply Nat.ltb_lt in Hi.
  pose proof (length_slice chunks (j * k) k) as Hlen.
  rewrite (ceilDiv_step (length chunks) (j * k) k Hk Hi).
  replace (j * k + k) with (S j * k) in * by lia.
  cbn [seq List.filter]. unfold keptGroup at 1.
  replace (j * k + k) with (S j * k) by lia.
  rewrite <- hasInk_join_texts, <- truthy_trim.
  set (group := slice chunks (j * k) (S j * k)) in *.
  destruct group as [|c0 g] eqn:Hgroup; [simpl in Hlen; lia|].
  set (t := join (js " ") (List.map (fun c => trim (text c)) (c0 :: g))).
  destruct (truthy (trim t)) eqn:Ht.
  - destruct (IH (S j) (out ++ [ {| blockText := trim t;
                                    blockStartTime := startTime c0;
                                    chunkIds := List.map id (c0 :: g) |} ])
                ltac:(lia)) as (bs & Hrun & Hcount).
    eexists (_ :: bs). rewrite Hrun, <- app_assoc. split; [reflexivity|].
    simpl. rewrite Hcount. reflexivity.
  - destruct (IH (S j) out ltac:(lia)) as (bs & Hrun & Hcount).
    exists bs. split; [exact Hrun | exact Hcount].
Qed.

Lemma filter_length_all {A} (f : A -> bool) (l : list A) :
  length (List.filter f l) = length l <-> forall x, In x l -> f x = true.
Proof.
  induction l as [|a l IH]; simpl; [tauto|].
  pose proof (List.filter_length_le f l) as Hle.
  destruct (f a) eqn:Ha; simpl.
  - split.
    + intros Hlen x [<-|Hx]; [exact Ha|]. apply IH; [lia | exact Hx].
    + intros Hall. f_equal. apply IH. intros x Hx. apply Hall. right. exact Hx.
  - split; [lia|]. intros Hall. rewrite (Hall a) in Ha; [discriminate Ha|].
    left. reflexivity.
Qed.

(** C9, as the code has it.  For every input of [n] chunks and every block
    size [k >= 1], [segmentByChunkCount] returns one block for each of the
    [ceil(n/k)] groups of [k] consecutive chunks that holds a chunk with
    text that is not blank, and none for a group whose chunks are all
    blank: at most [ceil(n/k)] blocks, exactly [ceil(n/k)] when every
    group holds such a chunk and only then, so in particular when no chunk
    is blank.  Whatever the texts, each block carries between 1 and [k]
    chunk ids, and every block but the last carries exactly [k]: the ids
    of blank chunks are kept. *)
Theorem segmentByChunkCount_counts (chunks : list TranscriptChunk) (k : nat) :
  1 <= k ->
  exists bs,
    segmentByChunkCount chunks k = Some bs
    /\ length bs
       = length (List.filter (keptGroup chunks k)
                   (seq 0 (ceilDiv (length chunks) k)))
    /\ length bs <= ceilDiv (length chunks) k
    /\ (length bs = ceilDiv (length chunks) k
        <-> forall j, j < ceilDiv (length chunks) k -> keptGroup chunks k j = true)
    /\ Forall (fun b => 1 <= length (chunkIds b) <= k) bs
    /\ (forall j b, S j < length bs -> bs !! j = Some b ->
                    length (chunkIds b) = k)
    /\ (Forall (fun c => trim (text c) <> []) chunks ->
        length bs = ceilDiv (length chunks) k).
Proof.
  intros Hk.
  assert (Hiff : forall bs : list SegmentedBlock,
            length bs
            = length (List.filter (keptGroup chunks k)
                        (seq 0 (ceilDiv (length chunks) k))) ->
            (length bs = ceilDiv (length chunks) k
             <-> forall j, j < ceilDiv (length chunks) k ->
                           keptGroup chunks k j = true)).
  { intros bs ->. split.
    - intros Hlen j Hj.
      apply (proj1 (filter_length_all (keptGroup chunks k)
                      (seq 0 (ceilDiv (length chunks) k)))).
      + rewrite length_seq. exact Hlen.
      + apply in_seq. lia.
    - intros Hall.
      transitivity (length (seq 0 (ceilDiv (length chunks) k)));
        [|apply length_seq].
      apply filter_length_all. intros j Hj. apply Hall.
      apply in_seq in Hj. lia. }
  unfold segmentByChunkCount.
  destruct chunks as [|c rest] eqn:Hchunks.
  - exists []. split; [reflexivity|].
    split; [rewrite ceilDiv_0 by exact Hk; reflexivity|].
    split; [simpl; lia|].
    split; [apply Hiff; rewrite ceilDiv_0 by exact Hk; reflexivity|].
    rewrite ceilDiv_0 by exact Hk.
    repeat split; try constructor; simpl; intros; lia.
  - rewrite <- Hchunks in *.
    destruct (chunkCountLoop_spec chunks k Hk (S (length chunks)) 0 [] ltac:(lia))
      as (bs & Hrun & Hrest).
    destruct (chunkCountLoop_count chunks k Hk (S (length chunks)) 0 []
                ltac:(simpl; lia)) as (bs' & Hrun' & Hcount).
    change (0 * k) with 0 in Hrun', Hcount.
    rewrite Hrun in Hrun'. injection Hrun' as <-.
    exists bs. rewrite Nat.sub_0_r in Hrest, Hcount.
    destruct Hrest as (Hle & Hrest).
    split; [exact Hrun|]. split; [exact Hcount|]. split; [exact Hle|].
    split; [exact (Hiff bs Hcount) | exact Hrest].
Qed.

(** The theorem above on the seven chunks of the tests, three per block:
    blocks of 3, 3 and 1 chunk ids. *)
Lemma segmentByChunkCount_counts_witness :
  1 <= 3
  /\ option_map (List.map (fun b => length (chunkIds b)))
       (segmentByChunkCount sevenChunks 3) = Some [3; 3; 1]
  /\ exists bs,
       segmentByChunkCount sevenChunks 3 = Some bs
       /\ length bs
          = length (List.filter (keptGroup sevenChunks 3)
                      (seq 0 (ceilDiv (length sevenChunks) 3)))
       /\ length bs <= ceilDiv (length sevenChunks) 3
       /\ (length bs = ceilDiv (length sevenChunks) 3
           <-> forall j, j < ceilDiv (length sevenChunks) 3 ->
                         keptGroup sevenChunks 3 j = true)
       /\ Forall (fun b => 1 <= length (chunkIds b) <= 3) bs
       /\ (forall j b, S j < length bs -> bs !! j = Some b ->
                       length (chunkIds b) = 3)
       /\ (Forall (fun c => trim (text c) <> []) sevenChunks ->
           length bs = ceilDiv (length sevenChunks) 3).
Proof.
  split; [lia|]. split; [reflexivity|].
  apply (segmentByChunkCount_counts sevenChunks 3). lia.
Defined.

(** Five chunks, the second blank, two per block: the blank chunk keeps
    its place in the first block, and the blocks carry 2, 2 and 1 ids. *)
Lemma segmentByChunkCount_blank_inside :
  option_map (List.map (fun b => length (chunkIds b)))
    (segmentByChunkCount fiveWithBlank 2) = Some [2; 2; 1].
Proof. reflexivity. Qed.

(** C9, as claimed, fails on one chunk with empty text and [k = 1]: no
    block comes out, and [ceil(1/1)] is 1. *)
Lemma segmentByChunkCount_drops_blank_group :
  ~ (exists bs,
       segmentByChunkCount oneBlank 1 = Some bs
       /\ length bs = ceilDiv (length oneBlank) 1).
Proof.
  intros (bs & Hrun & Hlen). vm_compute in Hrun.
  injection Hrun as <-. vm_compute in Hlen. discriminate Hlen.
Qed.

End SegmenterFacts.

(* ===================================================================== *)
(** * [JSON.parse] always has fuel enough                                 *)
(* ===================================================================== *)

Module JsonFacts.

Import Json.

Lemma length_dropWhile {A} (p : A -> bool) (l : list A) :
  length (dropWhile p l) <= length l.
Proof.
  induction l as [|x r IH]; simpl; [lia|].
  destruct (p x); simpl; lia.
Qed.

Lemma length_skipWs (s : jsstring) : length (skipWs s) <= length s.
Proof. apply length_dropWhile. Qed.

(** After [skipWs] found a first code unit, the rest is shorter. *)
Lemma skipWs_cons (s r : jsstring) (c : N) :
  skipWs s = c :: r -> length r < length s.
Proof.
  intros Hs. pose proof (length_skipWs s) as Hl. rewrite Hs in Hl.
  simpl in Hl. lia.
Qed.

Lemma parseString_shorter (n : nat) :
  forall s acc str rest,
    length s <= n ->
    parseString s acc = Some (str, rest) -> length rest < length s.
Proof.
  induction n as [|n IH]; intros s acc str rest Hn;
    destruct s as [|c r]; simpl in *; try discriminate; [lia|].
  destruct (c =? 34)%N.
  { intros [= <- <-]. lia. }
  destruct (c =? 92)%N.
  { destruct r as [|e r1]; [discriminate|].
    destruct (e =? 117)%N.
    - destruct r1 as [|h1 [|h2 [|h3 [|h4 r2]]]]; try discriminate.
      destruct (hex4 h1 h2 h3 h4); [|discriminate].
      intros Hp. apply IH in Hp; simpl in *; lia.
    - destruct (simpleEscape e); [|discriminate].
      intros Hp. apply IH in Hp; simpl in *; lia. }
  destruct (c <? 32)%N; [discriminate|].
  intros Hp. apply IH in Hp; simpl in *; lia.
Qed.

Lemma spanDigits_length (s : jsstring) :
  length (snd (spanDigits s)) <= length s.
Proof.
  induction s as [|c r IH]; simpl; [lia|].
  destruct (isDigit c); [|simpl; lia].
  destruct (spanDigits r) as [d rest]. simpl in *. lia.
Qed.

Lemma signPart_length (s : jsstring) : length (snd (signPart s)) <= length s.
Proof.
  destruct s as [|c r]; simpl; [lia|]. destruct (c =? 45)%N; simpl; lia.
Qed.

Lemma intPart_shorter (s ds rest : jsstring) :
  intPart s = Some (ds, rest) -> length rest < length s.
Proof.
  destruct s as [|c r]; simpl; [discriminate|].
  destruct (c =? 48)%N; [intros [= <- <-]; lia|].
  destruct (isDigit c); [|discriminate].
  pose proof (spanDigits_length r) as Hl.
  destruct (spanDigits r) as [d rest']. intros [= <- <-]. simpl in *. lia.
Qed.

Lemma fracPart_length (s fs rest : jsstring) :
  fracPart s = Some (fs, rest) -> length rest <= length s.
Proof.
  destruct s as [|c r]; simpl; [intros [= <- <-]; simpl; lia|].
  destruct (c =? 46)%N; [|intros [= <- <-]; simpl; lia].
  pose proof (spanDigits_length r) as Hl.
  destruct (spanDigits r) as [[|d0 d] rest']; [discriminate|].
  intros [= <- <-]. simpl in *. lia.
Qed.

Lemma expPart_length (s es rest : jsstring) :
  expPart s = Some (es, rest) -> length rest <= length s.
Proof.
  destruct s as [|c r]; simpl; [intros [= <- <-]; simpl; lia|].
  destruct ((c =? 101) || (c =? 69))%N; [|intros [= <- <-]; simpl; lia].
  destruct r as [|x r'].
  - simpl. discriminate.
  - destruct ((x =? 43) || (x =? 45))%N.
    + pose proof (spanDigits_length r') as Hl.
      destruct (spanDigits r') as [[|d0 d] rest']; [discriminate|].
      intros [= <- <-]. simpl in *. lia.
    + pose proof (spanDigits_length (x :: r')) as Hl.
      destruct (spanDigits (x :: r')) as [[|d0 d] rest']; [discriminate|].
      intros [= <- <-]. simpl in *. lia.
Qed.

Lemma parseNumber_shorter (s lit rest : jsstring) :
  parseNumber s = Some (lit, rest) -> length rest < length s.
Proof.
  unfold parseNumber. pose proof (signPart_length s) as Hs.
  destruct (signPart s) as [sign s1]. simpl in Hs.
  destruct (intPart s1) as [[ds s2]|] eqn:Hi; [|discriminate].
  destruct (fracPart s2) as [[fs s3]|] eqn:Hf; [|discriminate].
  destruct (expPart s3) as [[es s4]|] eqn:He; [|discriminate].
  intros [= <- <-].
  apply intPart_shorter in Hi. apply fracPart_length in Hf.
  apply expPart_length in He. lia.
Qed.

Lemma isPrefix_length (w s : jsstring) :
  isPrefix w s = true -> length w <= length s.
Proof.
  revert s. induction w as [|a w IH]; intros s; simpl; [lia|].
  destruct s as [|b s]; [discriminate|].
  intros Hp. apply andb_true_iff in Hp. destruct Hp as [_ Hp].
  apply IH in Hp. simpl. lia.
Qed.

Lemma parseWord_shorter (w s rest : jsstring) (v v' : value) :
  w <> [] -> parseWord w v s = POk v' rest -> length rest < length s.
Proof.
  intros Hw. unfold parseWord. destruct (isPrefix w s) eqn:Hp; [|discriminate].
  intros [= <- <-]. apply isPrefix_length in Hp.
  rewrite length_drop. destruct w; [contradiction|]. simpl in *. lia.
Qed.

(** A value, the elements of an array and the members of an object all
    read at least one code unit. *)
Lemma parse_shorter (fuel : nat) :
  (forall s v rest, parseValue fuel s = POk v rest -> length rest < length s)
  /\ (forall s acc v rest,
        parseElements fuel s acc = POk v rest -> length rest < length s)
  /\ (forall s acc v rest,
        parseMembers fuel s acc = POk v rest -> length rest < length s).
Proof.
  induction fuel as [|f (IHv & IHe & IHm)];
    [repeat split; intros; discriminate|].
  split; [|split].
  - intros s v rest. cbn [parseValue].
    destruct (skipWs s) as [|c r] eqn:Hs; [discriminate|].
    apply skipWs_cons in Hs as Hr.
    destruct (c =? 34)%N.
    { destruct (parseString r []) as [[str rest']|] eqn:Hp; [|discriminate].
      apply (parseString_shorter (length r)) in Hp; [|lia].
      intros [= <- <-]. lia. }
    destruct (c =? 91)%N.
    { destruct (skipWs r) as [|c' r'] eqn:Hs'; [discriminate|].
      apply skipWs_cons in Hs' as Hr'.
      destruct (c' =? 93)%N; [intros [= <- <-]; lia|].
      intros Hp. apply IHe in Hp. lia. }
    destruct (c =? 123)%N.
    { destruct (skipWs r) as [|c' r'] eqn:Hs'; [discriminate|].
      apply skipWs_cons in Hs' as Hr'.
      destruct (c' =? 125)%N; [intros [= <- <-]; lia|].
      intros Hp. apply IHm in Hp. lia. }
    destruct (c =? 116)%N.
    { intros Hp. apply parseWord_shorter in Hp; [|discriminate].
      simpl in Hp. lia. }
    destruct (c =? 102)%N.
    { intros Hp. apply parseWord_shorter in Hp; [|discriminate].
      simpl in Hp. lia. }
    destruct (c =? 110)%N.
    { intros Hp. apply parseWord_shorter in Hp; [|discriminate].
      simpl in Hp. lia. }
    destruct (parseNumber (c :: r)) as [[lit rest']|] eqn:Hp; [|discriminate].
    apply parseNumber_shorter in Hp. intros [= <- <-]. simpl in Hp. lia.
  - intros s acc v rest. cbn [parseElements].
    destruct (parseValue f s) as [x rest'| |] eqn:Hp; try discriminate.
    apply IHv in Hp.
    destruct (skipWs rest') as [|c r] eqn:Hs; [discriminate|].
    apply skipWs_cons in Hs as Hr.
    destruct (c =? 44)%N.
    { intros Hq. apply IHe in Hq. lia. }
    destruct (c =? 93)%N; [|discriminate].
    intros [= <- <-]. lia.
  - intros s acc v rest. cbn [parseMembers].
    destruct (skipWs s) as [|q r] eqn:Hs; [discriminate|].
    apply skipWs_cons in Hs as Hr.
    destruct (q =? 34)%N; [|discriminate].
    destruct (parseString r []) as [[key r1]|] eqn:Hk; [|discriminate].
    apply (parseString_shorter (length r)) in Hk; [|lia].
    destruct (skipWs r1) as [|colon r2] eqn:Hs1; [discriminate|].
    apply skipWs_cons in Hs1 as Hr1.
    destruct (colon =? 58)%N; [|discriminate].
    destruct (parseValue f r2) as [x rest'| |] eqn:Hp; try discriminate.
    apply IHv in Hp.
    destruct (skipWs rest') as [|c r3] eqn:Hs3; [discriminate|].
    apply skipWs_cons in Hs3 as Hr3.
    destruct (c =? 44)%N.
    { intros Hq. apply IHm in Hq. lia. }
    destruct (c =? 125)%N; [|discriminate].
    intros [= <- <-]. lia.
Qed.

(** With two units of fuel per code unit the parser never stops for lack
    of fuel. *)
Lemma parse_fuel_enough (fuel : nat) :
  (forall s, 2 * length s < fuel -> parseValue fuel s <> PFuel)
  /\ (forall s acc, 2 * length s + 1 < fuel -> parseElements fuel s acc <> PFuel)
  /\ (forall s acc, 2 * length s + 1 < fuel -> parseMembers fuel s acc <> PFuel).
Proof.
  induction fuel as [|f (IHv & IHe & IHm)]; [repeat split; intros; lia|].
  split; [|split].
  - intros s Hf. cbn [parseValue].
    destruct (skipWs s) as [|c r] eqn:Hs; [discriminate|].
    apply skipWs_cons in Hs as Hr.
    destruct (c =? 34)%N.
    { destruct (parseString r []) as [[str rest']|]; discriminate. }
    destruct (c =? 91)%N.
    { destruct (skipWs r) as [|c' r'] eqn:Hs'; [discriminate|].
      destruct (c' =? 93)%N; [discriminate|]. apply IHe. lia. }
    destruct (c =? 123)%N.
    { destruct (skipWs r) as [|c' r'] eqn:Hs'; [discriminate|].
      destruct (c' =? 125)%N; [discriminate|]. apply IHm. lia. }
    unfold parseWord.
    destruct (c =? 116)%N; [destruct (isPrefix _ _); discriminate|].
    destruct (c =? 102)%N; [destruct (isPrefix _ _); discriminate|].
    destruct (c =? 110)%N; [destruct (isPrefix _ _); discriminate|].
    destruct (parseNumber (c :: r)) as [[lit rest']|]; discriminate.
  - intros s acc Hf. cbn [parseElements].
    pose proof (IHv s ltac:(lia)) as Hv.
    destruct (parseValue f s) as [x rest'| |] eqn:Hp;
      [|discriminate|contradiction].
    apply (proj1 (parse_shorter f)) in Hp.
    destruct (skipWs rest') as [|c r] eqn:Hs; [discriminate|].
    apply skipWs_cons in Hs as Hr.
    destruct (c =? 44)%N; [apply IHe; lia|].
    destruct (c =? 93)%N; discriminate.
  - intros s acc Hf. cbn [parseMembers].
    destruct (skipWs s) as [|q r] eqn:Hs; [discriminate|].
    apply skipWs_cons in Hs as Hr.
    destruct (q =? 34)%N; [|discriminate].
    destruct (parseString r []) as [[key r1]|] eqn:Hk; [|discriminate].
    apply (parseString_shorter (length r)) in Hk; [|lia].
    destruct (skipWs r1) as [|colon r2] eqn:Hs1; [discriminate|].
    apply skipWs_cons in Hs1 as Hr1.
    destruct (colon =? 58)%N; [|discriminate].
    pose proof (IHv r2 ltac:(lia)) as Hv.
    destruct (parseValue f r2) as [x rest'| |] eqn:Hp;
      [|discriminate|contradiction].
    apply (proj1 (parse_shorter f)) in Hp.
    destruct (skipWs rest') as [|c r3] eqn:Hs3; [discriminate|].
    apply skipWs_cons in Hs3 as Hr3.
    destruct (c =? 44)%N; [apply IHm; lia|].
    destruct (c =? 125)%N; discriminate.
Qed.

(** [JSON_parse] answers [None] for a syntax error only. *)
Lemma JSON_parse_fuel (text : jsstring) :
  parseValue (2 * length text + 1) text <> PFuel.
Proof. apply (proj1 (parse_fuel_enough _)). lia. Qed.

End JsonFacts.

(* ===================================================================== *)
(** * The response parser                                                 *)
(* ===================================================================== *)

Module ParserFacts.

Import Parser.
Import JsStringFacts.
Import Properties.

Lemma eqb_true (a b : jsstring) : eqb a b = true -> a = b.
Proof. unfold eqb. apply bool_decide_eq_true_1. Qed.

Lemma eqb_refl (a : jsstring) : eqb a a = true.
Proof. unfold eqb. apply bool_decide_eq_true_2. reflexivity. Qed.

Lemma validateConfidence_text (c : jsstring) :
  confidenceText (validateConfidence c)
  = oneOf [js "low"; js "medium"; js "high"] (js "medium")
      (trim (toLowerCase c)).
Proof.
  unfold validateConfidence, oneOf. cbn [existsb].
  destruct (eqb (trim (toLowerCase c)) (js "low")) eqn:E1.
  { apply eqb_true in E1. rewrite E1. reflexivity. }
  destruct (eqb (trim (toLowerCase c)) (js "medium")) eqn:E2.
  { apply eqb_true in E2. rewrite E2. reflexivity. }
  destruct (eqb (trim (toLowerCase c)) (js "high")) eqn:E3.
  { apply eqb_true in E3. rewrite E3. reflexivity. }
  reflexivity.
Qed.

Lemma validatePredictionType_text (t : jsstring) :
  predictionTypeText (validatePredictionType t)
  = oneOf [js "price"; js "direction"; js "relative performance"; js "macro"]
      (js "direction") (trim (toLowerCase t)).
Proof.
  unfold validatePredictionType, oneOf. cbn [existsb].
  destruct (eqb (trim (toLowerCase t)) (js "price")) eqn:E1.
  { apply eqb_true in E1. rewrite E1. reflexivity. }
  destruct (eqb (trim (toLowerCase t)) (js "direction")) eqn:E2.
  { apply eqb_true in E2. rewrite E2. reflexivity. }
  destruct (eqb (trim (toLowerCase t)) (js "relative performance")) eqn:E3.
  { apply eqb_true in E3. rewrite E3. reflexivity. }
  destruct (eqb (trim (toLowerCase t)) (js "macro")) eqn:E4.
  { apply eqb_true in E4. rewrite E4. reflexivity. }
  reflexivity.
Qed.

Lemma rmap_Forall2 {A B} (f : A -> Result B) (xs : list A) (ys : list B) :
  rmap f xs = Ok ys -> Forall2 (fun x y => f x = Ok y) xs ys.
Proof.
  revert ys. induction xs as [|x r IH]; intros ys; simpl.
  - intros [= <-]. constructor.
  - destruct (f x) as [y|e] eqn:Hx; simpl; [|discriminate].
    destruct (rmap f r) as [ys'|e]; simpl; [|discriminate].
    intros [= <-]. constructor; [exact Hx | apply IH; reflexivity].
Qed.

Lemma rmap_total {A B} (f : A -> Result B) (xs : list A) :
  Forall (fun x => exists y, f x = Ok y) xs -> exists ys, rmap f xs = Ok ys.
Proof.
  induction 1 as [|x r [y Hy] _ [ys Hys]]; simpl.
  - exists []. reflexivity.
  - rewrite Hy, Hys. exists (y :: ys). reflexivity.
Qed.

(** Induction on a value, through the items of an array. *)
Lemma value_items_ind (P : value -> Prop) :
  P JNull ->
  (forall b, P (JBool b)) ->
  (forall lit, P (JNumber lit)) ->
  (forall s, P (JString s)) ->
  (forall items, Forall P items -> P (JArray items)) ->
  (forall members, P (JObject members)) ->
  forall v, P v.
Proof.
  intros Hnull Hbool Hnumber Hstring Harray Hobject.
  exact (fix go (v : value) : P v :=
           match v with
           | JNull => Hnull
           | JBool b => Hbool b
           | JNumber lit => Hnumber lit
           | JString s => Hstring s
           | JArray items =>
               Harray items
                 ((fix all (l : list value) : Forall P l :=
                     match l with
                     | [] => @List.Forall_nil value P
                     | x :: r => @List.Forall_cons value P x r (go x) (all r)
                     end) items)
           | JObject members => Hobject members
           end).
Qed.

Lemma rmap_raise {A B} (f : A -> Result B) (xs : list A) (e : Thrown) :
  rmap f xs = Raise e -> exists x, In x xs /\ f x = Raise e.
Proof.
  induction xs as [|x r IH]; simpl; [discriminate|].
  destruct (f x) as [y|e'] eqn:Hx; simpl.
  - destruct (rmap f r) as [ys|e'']; simpl; [discriminate|].
    intros [= ->]. destruct (IH eq_refl) as (x' & Hin & Hx').
    exists x'. split; [right; exact Hin | exact Hx'].
  - intros [= ->]. exists x. split; [left; reflexivity | exact Hx].
Qed.

Section WithEngine.
Context `{Engine}.

Lemma stringOr_coerced (x : option value) (dflt s : jsstring) :
  stringOr x dflt = Ok s -> coerced x dflt s.
Proof.
  unfold stringOr, coerced. destruct x as [v|].
  - destruct (truthyValue (Some v)).
    + intros Hs. exists v. split; [reflexivity | exact Hs].
    + intros [= <-]. reflexivity.
  - simpl. intros [= <-]. reflexivity.
Qed.

Lemma normalizePrediction_sound (members : list (jsstring * value))
  (p : ExtractedPrediction) :
  normalizePrediction (JObject members) = Ok p -> normalizedFrom members p.
Proof.
  unfold normalizePrediction, normalizedFrom. cbn [getProperty rbind].
  destruct (stringOr (lookupMember (js "claim") members) []) as [cl|e] eqn:Hcl;
    cbn [rbind]; [|discriminate].
  set (passet := lookupMember (js "asset") members).
  destruct (match passet with
            | Some v => if truthyValue passet
                        then rbind (toStringValue v) (fun s => Ok (Some s))
                        else Ok None
            | None => Ok None
            end) as [as'|e] eqn:Has; cbn [rbind]; [|discriminate].
  destruct (stringOr (lookupMember (js "confidence") members) (js "medium"))
    as [cf|e] eqn:Hcf; cbn [rbind]; [|discriminate].
  destruct (stringOr (lookupMember (js "predictionType") members) (js "direction"))
    as [ty|e] eqn:Hty; cbn [rbind]; [|discriminate].
  intros [= <-]. cbn [claim asset horizonMonths confidence predictionType].
  split; [apply stringOr_coerced, Hcl|].
  split.
  { destruct passet as [v|] eqn:Hp.
    - destruct (truthyValue (Some v)) eqn:Htv.
      + destruct (toStringValue v) as [s|e] eqn:Hs; cbn [rbind] in Has;
          [|discriminate]. injection Has as <-.
        exists s. split; [|reflexivity].
        unfold coerced. rewrite Htv. exists v. split; [reflexivity | exact Hs].
      + injection Has as <-. reflexivity.
    - simpl. injection Has as <-. reflexivity. }
  split; [reflexivity|].
  split.
  - exists cf. split; [apply stringOr_coerced, Hcf | apply validateConfidence_text].
  - exists ty. split; [apply stringOr_coerced, Hty | apply validatePredictionType_text].
Qed.

Lemma lookupMember_In (name : jsstring) (members : list (jsstring * value))
  (v : value) :
  lookupMember name members = Some v -> exists k, In (k, v) members.
Proof.
  induction members as [|[k x] r IH]; simpl; [discriminate|].
  destruct (lookupMember name r) as [v'|].
  - intros [= ->]. destruct (IH eq_refl) as [k' Hk']. exists k'. right. exact Hk'.
  - destruct (eqb k name); [|discriminate].
    intros [= ->]. exists k. left. reflexivity.
Qed.

Lemma printable_lookup (name : jsstring) (members : list (jsstring * value))
  (v : value) :
  printable members -> lookupMember name members = Some v ->
  exists s, toStringValue v = Ok s.
Proof.
  intros Hp Hl. destruct (lookupMember_In name members v Hl) as [k Hk].
  unfold printable in Hp. rewrite Forall_forall in Hp.
  apply (Hp (k, v)), list_elem_of_In, Hk.
Qed.

Lemma stringOr_total (name dflt : jsstring) (members : list (jsstring * value)) :
  printable members ->
  exists s, stringOr (lookupMember name members) dflt = Ok s.
Proof.
  intros Hp. unfold stringOr.
  destruct (lookupMember name members) as [v|] eqn:Hl; [|eexists; reflexivity].
  destruct (truthyValue (Some v)); [|eexists; reflexivity].
  exact (printable_lookup name members v Hp Hl).
Qed.

Lemma normalizePrediction_total (members : list (jsstring * value)) :
  printable members -> exists p, normalizePrediction (JObject members) = Ok p.
Proof.
  intros Hp. unfold normalizePrediction. cbn [getProperty rbind].
  destruct (stringOr_total (js "claim") [] members Hp) as [cl ->].
  destruct (stringOr_total (js "confidence") (js "medium") members Hp) as [cf ->].
  destruct (stringOr_total (js "predictionType") (js "direction") members Hp)
    as [ty ->].
  cbn [rbind].
  destruct (lookupMember (js "asset") members) as [v|] eqn:Hl;
    [|cbn [rbind]; eexists; reflexivity].
  destruct (truthyValue (Some v)); [|cbn [rbind]; eexists; reflexivity].
  destruct (printable_lookup _ members v Hp Hl) as [s ->].
  cbn [rbind]. eexists. reflexivity.
Qed.

(** [String(v)] throws nothing but the [TypeError] of an object without
    primitive value. *)
Lemma toStringValue_raise (v : value) (e : Thrown) :
  toStringValue v = Raise e -> e = JsError toPrimitiveMessage.
Proof.
  revert e. induction v as [|b|lit|s|items IH|members] using value_items_ind;
    intros e; simpl.
  - discriminate.
  - destruct b; discriminate.
  - discriminate.
  - discriminate.
  - induction IH as [|x r Hx _ IHr]; simpl; [discriminate|].
    destruct (match x with JNull => Ok [] | _ => toStringValue x end)
      as [a|e'] eqn:Hhead; simpl.
    + destruct ((fix each (l : list value) : Result (list jsstring) :=
                   match l with
                   | [] => Ok []
                   | x :: r =>
                       rbind (match x with
                              | JNull => Ok []
                              | _ => toStringValue x
                              end)
                             (fun a => rbind (each r) (fun b => Ok (a :: b)))
                   end) r) as [parts|e''] eqn:Hr; simpl.
      * discriminate.
      * intros [= ->]. apply IHr. reflexivity.
    + intros [= ->]. destruct x; try discriminate Hhead; exact (Hx _ Hhead).
  - destruct (lookupMember (js "toString") members); [|discriminate].
    intros [= <-]. reflexivity.
Qed.

Lemma stringOr_raise (x : option value) (dflt : jsstring) (e : Thrown) :
  stringOr x dflt = Raise e ->
  e = JsError toPrimitiveMessage
  /\ exists v, x = Some v /\ truthyValue (Some v) = true
               /\ toStringValue v = Raise e.
Proof.
  unfold stringOr. destruct x as [v|]; [|discriminate].
  destruct (truthyValue (Some v)) eqn:Ht; [|discriminate].
  intros Hs. split; [exact (toStringValue_raise v e Hs)|].
  exists v. repeat split; assumption.
Qed.

Lemma stringOr_readable (name dflt : jsstring) (members : list (jsstring * value)) :
  readable members ->
  In name [js "claim"; js "asset"; js "confidence"; js "predictionType"] ->
  exists s, stringOr (lookupMember name members) dflt = Ok s.
Proof.
  intros Hr Hin. unfold stringOr.
  destruct (lookupMember name members) as [v|] eqn:Hl; [|eexists; reflexivity].
  destruct (truthyValue (Some v)) eqn:Ht; [|eexists; reflexivity].
  exact (Hr name v Hin Hl Ht).
Qed.

Lemma stringOr_Ok (x : option value) (dflt s : jsstring) (v : value) :
  stringOr x dflt = Ok s -> x = Some v -> truthyValue (Some v) = true ->
  toStringValue v = Ok s.
Proof. unfold stringOr. intros Hs -> Ht. rewrite Ht in Hs. exact Hs. Qed.

(** A record normalizes when its members can be read, and only then; a
    record that does not normalize throws the [TypeError] of [String]. *)
Lemma normalizePrediction_readable (members : list (jsstring * value)) :
  (readable members -> exists p, normalizePrediction (JObject members) = Ok p)
  /\ (forall p, normalizePrediction (JObject members) = Ok p -> readable members)
  /\ (forall e, normalizePrediction (JObject members) = Raise e ->
                e = JsError toPrimitiveMessage).
Proof.
  unfold normalizePrediction. cbn [getProperty rbind].
  split; [|split].
  - intros Hr.
    destruct (stringOr_readable (js "claim") [] members Hr) as [cl ->];
      [simpl; tauto|].
    destruct (stringOr_readable (js "confidence") (js "medium") members Hr)
      as [cf ->]; [simpl; tauto|].
    destruct (stringOr_readable (js "predictionType") (js "direction") members Hr)
      as [ty ->]; [simpl; tauto|].
    cbn [rbind].
    destruct (lookupMember (js "asset") members) as [v|] eqn:Hl;
      [|cbn [rbind]; eexists; reflexivity].
    destruct (truthyValue (Some v)) eqn:Ht; [|cbn [rbind]; eexists; reflexivity].
    destruct (Hr (js "asset") v ltac:(simpl; tauto) Hl Ht) as [s ->].
    cbn [rbind]. eexists. reflexivity.
  - intros p.
    destruct (stringOr (lookupMember (js "claim") members) []) as [cl|e] eqn:Hcl;
      cbn [rbind]; [|discriminate].
    destruct (lookupMember (js "asset") members) as [va|] eqn:Hla.
    + destruct (truthyValue (Some va)) eqn:Hta.
      * destruct (toStringValue va) as [sa|e] eqn:Hsa; cbn [rbind]; [|discriminate].
        destruct (stringOr (lookupMember (js "confidence") members) (js "medium"))
          as [cf|e] eqn:Hcf; cbn [rbind]; [|discriminate].
        destruct (stringOr (lookupMember (js "predictionType") members)
                    (js "direction")) as [ty|e] eqn:Hty; cbn [rbind]; [|discriminate].
        intros _ name v [<-|[<-|[<-|[<-|[]]]]] Hl Ht.
        -- exists cl. exact (stringOr_Ok _ _ _ v Hcl Hl Ht).
        -- rewrite Hla in Hl. injection Hl as <-. exists sa. exact Hsa.
        -- exists cf. exact (stringOr_Ok _ _ _ v Hcf Hl Ht).
        -- exists ty. exact (stringOr_Ok _ _ _ v Hty Hl Ht).
      * cbn [rbind].
        destruct (stringOr (lookupMember (js "confidence") members) (js "medium"))
          as [cf|e] eqn:Hcf; cbn [rbind]; [|discriminate].
        destruct (stringOr (lookupMember (js "predictionType") members)
                    (js "direction")) as [ty|e] eqn:Hty; cbn [rbind]; [|discriminate].
        intros _ name v [<-|[<-|[<-|[<-|[]]]]] Hl Ht.
        -- exists cl. exact (stringOr_Ok _ _ _ v Hcl Hl Ht).
        -- rewrite Hla in Hl. injection Hl as <-. rewrite Hta in Ht. discriminate Ht.
        -- exists cf. exact (stringOr_Ok _ _ _ v Hcf Hl Ht).
        -- exists ty. exact (stringOr_Ok _ _ _ v Hty Hl Ht).
    + cbn [rbind].
      destruct (stringOr (lookupMember (js "confidence") members) (js "medium"))
        as [cf|e] eqn:Hcf; cbn [rbind]; [|discriminate].
      destruct (stringOr (lookupMember (js "predictionType") members)
                  (js "direction")) as [ty|e] eqn:Hty; cbn [rbind]; [|discriminate].
      intros _ name v [<-|[<-|[<-|[<-|[]]]]] Hl Ht.
      -- exists cl. exact (stringOr_Ok _ _ _ v Hcl Hl Ht).
      -- rewrite Hla in Hl. discriminate Hl.
      -- exists cf. exact (stringOr_Ok _ _ _ v Hcf Hl Ht).
      -- exists ty. exact (stringOr_Ok _ _ _ v Hty Hl Ht).
  - intros e.
    destruct (stringOr (lookupMember (js "claim") members) []) as [cl|e1] eqn:Hcl;
      cbn [rbind].
    2:{ intros [= <-]. apply (stringOr_raise _ _ _ Hcl). }
    destruct (match lookupMember (js "asset") members with
              | Some v => if truthyValue (lookupMember (js "asset") members)
                          then rbind (toStringValue v) (fun s => Ok (Some s))
                          else Ok None
              | None => Ok None
              end) as [as'|e2] eqn:Has; cbn [rbind].
    2:{ intros [= <-].
        destruct (lookupMember (js "asset") members) as [va|]; [|discriminate Has].
        destruct (truthyValue (Some va)); [|discriminate Has].
        destruct (toStringValue va) as [sa|e3] eqn:Hsa; [discriminate Has|].
        injection Has as <-. exact (toStringValue_raise va e3 Hsa). }
    destruct (stringOr (lookupMember (js "confidence") members) (js "medium"))
      as [cf|e3] eqn:Hcf; cbn [rbind].
    2:{ intros [= <-]. apply (stringOr_raise _ _ _ Hcf). }
    destruct (stringOr (lookupMember (js "predictionType") members) (js "direction"))
      as [ty|e4] eqn:Hty; cbn [rbind]; [discriminate|].
    intros [= <-]. apply (stringOr_raise _ _ _ Hty).
Qed.

Lemma printable_readable (members : list (jsstring * value)) :
  printable members -> readable members.
Proof. intros Hp name v _ Hl _. exact (printable_lookup name members v Hp Hl). Qed.

End WithEngine.

Import Examples.

(** C3, as the code has it.  When the bracketed span of a response parses
    to an array of records, every result of [parseJsonResponse] is the
    list of the normalized records whose trimmed claim is not empty, where
    a record normalizes field by field: [claim] is [String] of the member,
    or empty; [asset] is [String] of the member, or [null];
    [horizonMonths] is the member when it is a number, else [null];
    [confidence] is the trimmed lower-case member when that is low, medium
    or high, else medium; [predictionType] likewise among its four values,
    else direction.  There is a result exactly when, in every record, each
    of the four members given to [String] is absent, falsy or can be
    converted; in particular when every member can be printed.  Otherwise
    [String] throws on an object that has a member named [toString], and
    the response as a whole fails with "Failed to parse JSON: " and the
    message of that [TypeError]: no record of it is returned.  The response
    with the one record [{"claim":"Market will go up"}] yields one
    prediction, with the defaults. *)
Theorem parseJsonResponse_normalizes `{Engine}
  (text span : jsstring) (records : list (list (jsstring * value))) :
  jsonMatch text = Some span ->
  JSON_parse span = Some (JArray (List.map JObject records)) ->
  (forall ps,
      parseJsonResponse text = Ok ps ->
      exists qs,
        Forall2 normalizedFrom records qs
        /\ ps = List.filter hasClaim qs
        /\ Forall (fun p => trim (claim p) <> []) ps)
  /\ ((exists ps, parseJsonResponse text = Ok ps) <-> Forall readable records)
  /\ (forall e,
         parseJsonResponse text = Raise e ->
         e = JsError (js "Failed to parse JSON: " ++ toPrimitiveMessage))
  /\ (Forall printable records -> exists ps, parseJsonResponse text = Ok ps)
  /\ parseJsonResponse marketUp
     = Ok [ mkPrediction (js "Market will go up") None None Medium Direction ].
Proof.
  intros Hmatch Hparse.
  assert (Hrun : parseJsonResponse text
                 = match rmap normalizePrediction (List.map JObject records) with
                   | Ok qs => Ok (List.filter hasClaim qs)
                   | Raise e =>
                       Raise (JsError (js "Failed to parse JSON: " ++ messageOf e))
                   end).
  { unfold parseJsonResponse, parseMatched. rewrite Hmatch, Hparse.
    destruct (rmap normalizePrediction (List.map JObject records));
      reflexivity. }
  assert (Hreturns : Forall readable records ->
                     exists ps, parseJsonResponse text = Ok ps).
  { intros Hreadable. rewrite Hrun.
    destruct (rmap_total normalizePrediction (List.map JObject records))
      as [qs ->].
    - apply Forall_fmap. eapply List.Forall_impl; [|exact Hreadable].
      intros members Hm. apply (proj1 (normalizePrediction_readable members)), Hm.
    - eexists. reflexivity. }
  split; [|split; [|split; [|split]]].
  - intros ps Hps. rewrite Hrun in Hps.
    destruct (rmap normalizePrediction (List.map JObject records))
      as [qs|e] eqn:Hmap; [|discriminate].
    injection Hps as <-. exists qs. split; [|split].
    + apply rmap_Forall2 in Hmap.
      apply Forall2_fmap_l in Hmap.
      eapply Forall2_impl; [exact Hmap|].
      intros members q Hq. apply normalizePrediction_sound, Hq.
    + reflexivity.
    + apply Forall_forall. intros p Hp.
      apply list_elem_of_In, filter_In in Hp. destruct Hp as [_ Hc].
      apply truthy_true_iff, Hc.
  - split; [|exact Hreturns].
    intros [ps Hps]. rewrite Hrun in Hps.
    destruct (rmap normalizePrediction (List.map JObject records))
      as [qs|e] eqn:Hmap; [|discriminate].
    apply rmap_Forall2, Forall2_fmap_l in Hmap.
    apply Forall2_Forall_l with (Q := readable) in Hmap; [exact Hmap|].
    apply Forall_forall. intros q _ members Hq.
    exact (proj1 (proj2 (normalizePrediction_readable members)) q Hq).
  - intros e He. rewrite Hrun in He.
    destruct (rmap normalizePrediction (List.map JObject records))
      as [qs|e'] eqn:Hmap; [discriminate|].
    injection He as <-.
    apply rmap_raise in Hmap. destruct Hmap as (x & Hin & Hx).
    apply in_map_iff in Hin. destruct Hin as (members & <- & _).
    rewrite (proj2 (proj2 (normalizePrediction_readable members)) e' Hx).
    reflexivity.
  - intros Hprintable. apply Hreturns.
    eapply List.Forall_impl; [|exact Hprintable].
    intros members. apply printable_readable.
  - reflexivity.
Qed.

(** The theorem above on a reply that wraps two records in prose. *)
Lemma parseJsonResponse_normalizes_witness :
  jsonMatch wrappedReply = Some wrappedSpan
  /\ JSON_parse wrappedSpan = Some (JArray (List.map JObject wrappedRecords))
  /\ @parseJsonResponse exampleEngine wrappedReply
     = Ok [ mkPrediction (js "Nifty falls") None (Some (js "6")) High Direction ]
  /\ (forall ps,
         @parseJsonResponse exampleEngine wrappedReply = Ok ps ->
         exists qs,
           Forall2 (@normalizedFrom exampleEngine) wrappedRecords qs
           /\ ps = List.filter hasClaim qs
           /\ Forall (fun p => trim (claim p) <> []) ps)
  /\ ((exists ps, @parseJsonResponse exampleEngine wrappedReply = Ok ps)
      <-> Forall (@readable exampleEngine) wrappedRecords)
  /\ (forall e,
         @parseJsonResponse exampleEngine wrappedReply = Raise e ->
         e = JsError (js "Failed to parse JSON: "
                      ++ @toPrimitiveMessage exampleEngine))
  /\ (Forall (@printable exampleEngine) wrappedRecords ->
      exists ps, @parseJsonResponse exampleEngine wrappedReply = Ok ps)
  /\ @parseJsonResponse exampleEngine marketUp
     = Ok [ mkPrediction (js "Market will go up") None None Medium Direction ].
Proof.
  split; [reflexivity|]. split; [reflexivity|]. split; [reflexivity|].
  apply (@parseJsonResponse_normalizes exampleEngine
           wrappedReply wrappedSpan wrappedRecords); reflexivity.
Defined.

(** C3, as claimed, fails on the response [[{"claim":{"toString":1}}]]:
    its bracketed span parses to an array of one record, and the record is
    not normalized, because [String] of its claim throws; the parser throws
    and returns no prediction. *)
Lemma parseJsonResponse_unconvertible_claim_throws :
  jsonMatch toStringReply = Some toStringReply
  /\ JSON_parse toStringReply = Some (JArray (List.map JObject toStringRecords))
  /\ @parseJsonResponse exampleEngine toStringReply
     = Raise (JsError (js "Failed to parse JSON: Cannot convert object to primitive value"))
  /\ ~ (exists ps, @parseJsonResponse exampleEngine toStringReply = Ok ps)
  /\ (forall engine : Engine,
        @parseJsonResponse engine toStringReply
        = Raise (JsError (js "Failed to parse JSON: "
                          ++ @toPrimitiveMessage engine))).
Proof.
  split; [reflexivity|]. split; [reflexivity|].
  assert (Hany : forall engine : Engine,
            @parseJsonResponse engine toStringReply
            = Raise (JsError (js "Failed to parse JSON: "
                              ++ @toPrimitiveMessage engine)))
    by (intros engine; reflexivity).
  assert (Hrun : @parseJsonResponse exampleEngine toStringReply
                 = Raise (JsError (js "Failed to parse JSON: Cannot convert object to primitive value")))
    by reflexivity.
  split; [exact Hrun|]. split; [|exact Hany].
  intros [ps Hps]. rewrite Hrun in Hps. discriminate Hps.
Qed.

End ParserFacts.

(* ===================================================================== *)
(** * Computations over the world                                         *)
(* ===================================================================== *)

Module EffectsFacts.

Import Effects.
Import Properties.

Lemma bind_run {S A B} (m : ST S A) (k : A -> ST S B) (s : S) :
  (m ≫= k) s
  = match m s with
    | (Ok a, s') => k a s'
    | (Raise e, s') => (Raise e, s')
    end.
Proof. reflexivity. Qed.

Lemma stable_refl (w : World) : stable w w.
Proof. repeat split. Qed.

Lemma stable_trans (a b c : World) : stable a b -> stable b c -> stable a c.
Proof.
  intros (H1 & H2 & H3 & H4) (G1 & G2 & G3 & G4).
  repeat split; congruence.
Qed.

Lemma keeps_ret {A} (a : A) : keeps (mret a).
Proof. intros w. apply stable_refl. Qed.


Lemma keeps_tryCatch {A} (m : M A) (h : Thrown -> M A) :
  keeps m -> (forall e, keeps (h e)) -> keeps (tryCatch m h).
Proof.
  intros Hm Hh w. unfold tryCatch. specialize (Hm w).
  destruct (m w) as [[a|e] w']; simpl in Hm.
  - exact Hm.
  - eapply stable_trans; [exact Hm | apply Hh].
Qed.



Lemma keeps_liftResult {A} (r : Result A) : keeps (liftResult r).
Proof. intros w. apply stable_refl. Qed.


Lemma keeps_sleep (ms : Z) : keeps (sleep ms).
Proof. intros w. repeat split. Qed.

Lemma keeps_generateContent (prompt : jsstring) : keeps (generateContent prompt).
Proof.
  intros w. unfold generateContent.
  destruct (modelReply w (modelCalls w)); repeat split.
Qed.

Lemma returns_ret {S A} (a : A) : returns (mret a : ST S A).
Proof. intros s. exists a. reflexivity. Qed.

Lemma returns_bind {S A B} (m : ST S A) (k : A -> ST S B) :
  returns m -> (forall a, returns (k a)) -> returns (m ≫= k).
Proof.
  intros Hm Hk s. rewrite bind_run. destruct (Hm s) as [a Ha].
  destruct (m s) as [[a'|e] s']; simpl in Ha; [|discriminate].
  apply Hk.
Qed.

Lemma returns_tryCatch {S A} (m : ST S A) (h : Thrown -> ST S A) :
  (forall e, returns (h e)) -> returns (tryCatch m h).
Proof.
  intros Hh s. unfold tryCatch.
  destruct (m s) as [[a|e] s']; [exists a; reflexivity | apply Hh].
Qed.

Lemma returns_modify {S} (f : S -> S) : returns (modify f).
Proof. intros s. exists tt. reflexivity. Qed.

Lemma returns_gets {S A} (f : S -> A) : returns (gets f).
Proof. intros s. eexists. reflexivity. Qed.

Lemma returns_sleep (ms : Z) : returns (sleep ms).
Proof. apply returns_modify. Qed.

Lemma modelCalls_app (w : World) (t : list Event) :
  modelCalls (withTrace (trace w ++ t) w)
  = modelCalls w + length (List.filter isModelCall t).
Proof.
  unfold modelCalls. simpl. rewrite List.filter_app, length_app. reflexivity.
Qed.

End EffectsFacts.

(* ===================================================================== *)
(** * The extractor                                                       *)
(* ===================================================================== *)

Module ExtractorFacts.

Import Effects.
Import Extractor.
Import Properties.
Import EffectsFacts.
Import Examples.

Lemma enforceRateLimit_run (w : World) :
  exists waits w1,
    enforceRateLimit w = (Ok tt, w1)
    /\ trace w1 = trace w ++ waits
    /\ (waits = [] \/ exists d, waits = [EvSleep d] /\ (0 < d)%Z)
    /\ stable w w1.
Proof.
  unfold enforceRateLimit, dateNow, MIN_REQUEST_INTERVAL_MS.
  cbv [mbind ST_bind gets mret ST_ret modify sleep].
  destruct (clock w - lastRequestTime w <? 1000)%Z eqn:Hlt.
  - eexists [EvSleep _], _. split; [reflexivity|]. simpl.
    split; [reflexivity|]. split; [|repeat split].
    right. eexists. split; [reflexivity|]. apply Z.ltb_lt in Hlt. lia.
  - eexists [], _. split; [reflexivity|]. simpl. rewrite app_nil_r.
    split; [reflexivity|]. split; [left; reflexivity | repeat split].
Qed.

Section WithEngine.
Context `{Engine}.

(** One pass through the [try]/[catch] of the retry loop. *)
Lemma attempt_run (block : SegmentedBlock) (attempt : nat) (w : World) :
  exists waits r w',
    tryCatch (ps ← attemptOnce block; mret (inl ps))
      (fun err => sleep (backoffMs attempt) ;; mret (inr err)) w
    = (Ok r, w')
    /\ (waits = [] \/ exists d, waits = [EvSleep d] /\ (0 < d)%Z)
    /\ stable w w'
    /\ modelCalls w' = S (modelCalls w)
    /\ match attemptFailure (modelReply w (modelCalls w)) with
       | Some e =>
           r = inr e
           /\ trace w' = trace w ++ waits
                ++ [EvModelCall (promptFor block); EvSleep (backoffMs attempt)]
       | None =>
           exists t ps,
             modelReply w (modelCalls w) = ModelText t
             /\ parseJsonResponse t = Ok ps
             /\ r = inl ps
             /\ trace w' = trace w ++ waits ++ [EvModelCall (promptFor block)]
       end.
Proof.
  destruct (enforceRateLimit_run w) as (waits & w1 & Hrl & Htr & Hshape & Hst).
  assert (Hcalls : modelCalls w1 = modelCalls w).
  { unfold modelCalls. rewrite Htr, List.filter_app, length_app.
    destruct Hshape as [->|(d & -> & _)]; simpl; lia. }
  assert (Hreply : modelReply w1 (modelCalls w1) = modelReply w (modelCalls w)).
  { destruct Hst as (_ & _ & Hm & _). rewrite Hm, Hcalls. reflexivity. }
  exists waits.
  cbv [tryCatch attemptOnce mbind ST_bind].
  rewrite Hrl. cbv [generateContent]. rewrite Hreply.
  unfold attemptFailure.
  assert (Hstable : forall t, stable w (withTrace t w1)).
  { intros t. destruct Hst as (H1 & H2 & H3 & H4). repeat split; assumption. }
  destruct (modelReply w (modelCalls w)) as [e|t] eqn:Hr.
  - eexists _, _. split; [reflexivity|]. split; [exact Hshape|].
    split; [apply Hstable|].
    split; [|split; [reflexivity|]].
    + unfold modelCalls in *. cbn [logEvent trace withTrace withClock].
      rewrite !List.filter_app, !length_app. simpl. lia.
    + simpl. rewrite Htr, <- !app_assoc. reflexivity.
  - cbv [liftResult mret ST_ret].
    destruct (parseJsonResponse t) as [ps|e] eqn:Hp.
    + eexists _, _. split; [reflexivity|]. split; [exact Hshape|].
      split; [apply Hstable|].
      split.
      * unfold modelCalls in *. cbn [logEvent trace withTrace withClock].
      rewrite !List.filter_app, !length_app. simpl. lia.
      * exists t, ps. split; [reflexivity|]. split; [exact Hp|].
        split; [reflexivity|]. simpl. rewrite Htr, <- !app_assoc. reflexivity.
    + eexists _, _. split; [reflexivity|]. split; [exact Hshape|].
      split; [apply Hstable|].
      split; [|split; [reflexivity|]].
      * unfold modelCalls in *. cbn [logEvent trace withTrace withClock].
      rewrite !List.filter_app, !length_app. simpl. lia.
      * simpl. rewrite Htr, <- !app_assoc. reflexivity.
Qed.

Lemma retryLoop_returns (result : ExtractionResult) (block : SegmentedBlock)
  (todo : nat) :
  forall attempt lastError w,
  exists r w',
    retryLoop result block todo attempt lastError w = (Ok r, w')
    /\ modelCalls w' <= modelCalls w + todo
    /\ stable w w'.
Proof.
  induction todo as [|todo IH]; intros attempt lastError w.
  - eexists _, w. split; [reflexivity|]. split; [lia | apply stable_refl].
  - cbn [retryLoop]. rewrite bind_run.
    destruct (attempt_run block attempt w)
      as (waits & r & w1 & -> & _ & Hst & Hcalls & _).
    destruct r as [ps|err].
    + eexists _, w1. split; [reflexivity|]. split; [lia | exact Hst].
    + destruct (IH (S attempt) (Some err) w1) as (r' & w' & Hrun & Hle & Hst').
      exists r', w'. split; [exact Hrun|].
      split; [lia | eapply stable_trans; eassumption].
Qed.

(** The events of [todo] failed attempts numbered from [attempt]. *)
Lemma retryLoop_all_fail (result : ExtractionResult) (block : SegmentedBlock)
  (todo : nat) :
  forall attempt lastError w (failures : nat -> Thrown),
    (forall a, a < todo ->
       attemptFailure (modelReply w (modelCalls w + a)) = Some (failures a)) ->
    exists w' (waits : nat -> list Event),
      retryLoop result block todo attempt lastError w
      = (Ok (withError
               (finalError match todo with
                           | 0 => lastError
                           | S n => Some (failures n)
                           end) result), w')
      /\ modelCalls w' = modelCalls w + todo
      /\ stable w w'
      /\ trace w'
         = trace w
           ++ concat (List.map
                        (fun a => waits a
                                  ++ [EvModelCall (promptFor block);
                                      EvSleep (backoffMs (attempt + a))])
                        (seq 0 todo))
      /\ (forall a, waits a = [] \/ exists d, waits a = [EvSleep d] /\ (0 < d)%Z).
Proof.
  induction todo as [|todo IH]; intros attempt lastError w failures Hfail.
  - exists w, (fun _ => []). split; [reflexivity|].
    split; [lia|]. split; [apply stable_refl|].
    split; [simpl; rewrite app_nil_r; reflexivity | intros; left; reflexivity].
  - cbn [retryLoop]. rewrite bind_run.
    destruct (attempt_run block attempt w)
      as (waits0 & r & w1 & -> & Hshape & Hst & Hcalls & Hcase).
    rewrite <- (Nat.add_0_r (modelCalls w)) in Hcase.
    rewrite (Hfail 0 ltac:(lia)) in Hcase. destruct Hcase as [-> Htr].
    destruct (IH (S attempt) (Some (failures 0)) w1 (fun a => failures (S a)))
      as (w' & waits & Hrun & Hcalls' & Hst' & Htr' & Hshape').
    { intros a Ha. destruct Hst as (_ & _ & Hm & _).
      rewrite Hm, Hcalls. replace (S (modelCalls w) + a) with (modelCalls w + S a) by lia.
      apply Hfail. lia. }
    exists w', (fun a => match a with 0 => waits0 | S a' => waits a' end).
    split; [|split; [|split; [|split]]].
    + rewrite Hrun. destruct todo; reflexivity.
    + lia.
    + eapply stable_trans; eassumption.
    + rewrite Htr', Htr. cbn [seq List.map concat].
      rewrite <- seq_shift, List.map_map, Nat.add_0_r, <- !app_assoc.
      do 3 f_equal.
      f_equal. apply List.map_ext. intros a.
      replace (S attempt + a) with (attempt + S a) by lia. reflexivity.
    + intros [|a]; [exact Hshape | apply Hshape'].
Qed.

Lemma extractPredictionsFromBlock_with_key (block : SegmentedBlock)
  (blockIndex retries : nat) (w : World) (key : jsstring) :
  GEMINI_API_KEY w = Some key -> key <> [] ->
  extractPredictionsFromBlock block blockIndex retries w
  = retryLoop
      (mkResult blockIndex (blockStartTime block) (chunkIds block)
         (blockText block) [] None)
      block retries 0 None w.
Proof.
  intros Hkey Hne. unfold extractPredictionsFromBlock.
  rewrite bind_run. cbv [gets]. rewrite Hkey.
  destruct key; [contradiction | reflexivity].
Qed.

Lemma extractPredictionsFromBlock_without_key (block : SegmentedBlock)
  (blockIndex retries : nat) (w : World) :
  GEMINI_API_KEY w = None \/ GEMINI_API_KEY w = Some [] ->
  extractPredictionsFromBlock block blockIndex retries w
  = (Ok (mkResult blockIndex (blockStartTime block) (chunkIds block)
           (blockText block) []
           (Some (js "GEMINI_API_KEY environment variable is not set"))), w).
Proof.
  intros Hkey. unfold extractPredictionsFromBlock.
  rewrite bind_run. cbv [gets]. destruct Hkey as [-> | ->]; reflexivity.
Qed.

(** C2, as the code has it.  [extractPredictionsFromBlock] always returns,
    after at most [retries] model calls; without an API key it returns at
    once, with the error that says so.  With the key, an attempt fails
    when the model call throws or when the parser throws on the answer,
    and nothing else of the failure is looked at than the thrown value.
    When all [retries] attempts fail, every attempt [a] is a model call
    followed by a sleep of [min(1000 * 2^a, 10000)] ms (after the wait of
    the rate limiter, if any); the result has no predictions, and its
    [error] is the message of the last thrown value, or "Max retries
    exceeded" when that message is empty or no attempt was made. *)
Theorem extractPredictionsFromBlock_retries
  (block : SegmentedBlock) (blockIndex retries : nat) (w : World) :
  (exists r w',
      extractPredictionsFromBlock block blockIndex retries w = (Ok r, w')
      /\ modelCalls w' <= modelCalls w + retries)
  /\ (GEMINI_API_KEY w = None \/ GEMINI_API_KEY w = Some [] ->
      extractPredictionsFromBlock block blockIndex retries w
      = (Ok (mkResult blockIndex (blockStartTime block) (chunkIds block)
               (blockText block) []
               (Some (js "GEMINI_API_KEY environment variable is not set"))),
         w))
  /\ (forall (key : jsstring) (failures : nat -> Thrown),
        GEMINI_API_KEY w = Some key -> key <> [] ->
        (forall a, a < retries ->
           attemptFailure (modelReply w (modelCalls w + a))
           = Some (failures a)) ->
        exists r w' (waits : nat -> list Event),
          extractPredictionsFromBlock block blockIndex retries w = (Ok r, w')
          /\ resultPredictions r = []
          /\ resultError r
             = Some match retries with
                    | 0 => js "Max retries exceeded"
                    | S n =>
                        if truthy (messageOf (failures n))
                        then messageOf (failures n)
                        else js "Max retries exceeded"
                    end
          /\ modelCalls w' = modelCalls w + retries
          /\ trace w'
             = trace w
               ++ concat (List.map
                            (fun a =>
                               waits a
                               ++ [EvModelCall (promptFor block);
                                   EvSleep (Z.min (1000 * 2 ^ Z.of_nat a) 10000)])
                            (seq 0 retries))
          /\ (forall a, waits a = []
                        \/ exists d, waits a = [EvSleep d] /\ (0 < d)%Z)).
Proof.
  split; [|split].
  - destruct (GEMINI_API_KEY w) as [[|c key]|] eqn:Hkey.
    + rewrite extractPredictionsFromBlock_without_key by (right; exact Hkey).
      eexists _, w. split; [reflexivity | lia].
    + rewrite (extractPredictionsFromBlock_with_key block blockIndex retries w
                 (c :: key) Hkey) by discriminate.
      destruct (retryLoop_returns
                  (mkResult blockIndex (blockStartTime block) (chunkIds block)
                     (blockText block) [] None) block retries 0 None w)
        as (r & w' & Hr & Hle & _).
      exists r, w'. split; assumption.
    + rewrite extractPredictionsFromBlock_without_key by (left; exact Hkey).
      eexists _, w. split; [reflexivity | lia].
  - apply extractPredictionsFromBlock_without_key.
  - intros key failures Hkey Hne Hfail.
    rewrite (extractPredictionsFromBlock_with_key block blockIndex retries w
               key Hkey Hne).
    destruct (retryLoop_all_fail
                (mkResult blockIndex (blockStartTime block) (chunkIds block)
                   (blockText block) [] None) block retries 0 None w
                failures Hfail)
      as (w' & waits & Hr & Hcalls & _ & Htr & Hshape).
    eexists _, w', waits. split; [exact Hr|].
    split; [reflexivity|]. split; [destruct retries; reflexivity|].
    split; [exact Hcalls|]. split; [exact Htr | exact Hshape].
Qed.









End WithEngine.

(** The theorem on the retries in [emptyWorld], whose model throws an
    [Error] with an empty message every time, with the default of three
    attempts: sleeps of 1000, 2000 and 4000 ms, and the error "Max retries
    exceeded". *)
Lemma extractPredictionsFromBlock_retries_witness :
  GEMINI_API_KEY emptyWorld = Some (js "key")
  /\ js "key" <> []
  /\ (forall a, a < 3 ->
        @attemptFailure exampleEngine
          (modelReply emptyWorld (modelCalls emptyWorld + a))
        = Some (JsError []))
  /\ List.map (fun a => Z.min (1000 * 2 ^ Z.of_nat a) 10000) (seq 0 3)
     = [1000; 2000; 4000]%Z
  /\ exists r w',
       @extractPredictionsFromBlock exampleEngine helloBlock 0 3 emptyWorld
       = (Ok r, w')
       /\ resultPredictions r = []
       /\ resultError r = Some (js "Max retries exceeded")
       /\ modelCalls w' = modelCalls emptyWorld + 3.
Proof.
  split; [reflexivity|]. split; [discriminate|].
  split; [intros a _; reflexivity|]. split; [reflexivity|].
  destruct (proj2 (proj2 (@extractPredictionsFromBlock_retries exampleEngine
                            helloBlock 0 3 emptyWorld))
              (js "key") (fun _ => JsError []) eq_refl ltac:(discriminate)
              (fun a _ => eq_refl))
    as (r & w' & waits & Hrun & Hp & He & Hc & _).
  exists r, w'. split; [exact Hrun|]. split; [exact Hp|].
  split; [exact He | exact Hc].
Defined.


(** C2, as claimed, fails in [emptyWorld]: the one attempt throws an
    [Error] with an empty message, and the [error] of the result is not
    that message but "Max retries exceeded". *)
Lemma extractPredictionsFromBlock_empty_message :
  modelReply emptyWorld (modelCalls emptyWorld) = ModelThrows (JsError [])
  /\ exists r,
       fst (@extractPredictionsFromBlock exampleEngine helloBlock 0 1 emptyWorld)
       = Ok r
       /\ resultError r = Some (js "Max retries exceeded")
       /\ resultError r <> Some (messageOf (JsError [])).
Proof.
  split; [reflexivity|]. eexists. split; [vm_compute; reflexivity|].
  split; [reflexivity | discriminate].
Qed.

End ExtractorFacts.

(* ===================================================================== *)
(** * The transcript fetch                                                *)
(* ===================================================================== *)

Module TranscriptFacts.

Import Effects.
Import Transcript.
Import Properties.
Import EffectsFacts.
Import Examples.

Section WithEngine.
Context `{Engine} `{CaptionSources}.

Lemma returns_fetchTranscriptForVideo (vid : jsstring) :
  returns (fetchTranscriptForVideo vid).
Proof.
  unfold fetchTranscriptForVideo. apply returns_tryCatch. intros e.
  apply returns_bind; [|intros _; apply returns_ret].
  destruct (isPermanent (messageOf e)); [|apply returns_ret].
  apply returns_tryCatch. intros _. apply returns_ret.
Qed.

(** C10. [fetchTranscriptForVideo] returns a result for every video id and
    never throws.  When the lookup finds the video with [transcriptFetched]
    set, the result is a success with [error] "Transcript already
    fetched" and no chunk stored, and nothing happened but the lookup: no
    caption source was asked, no chunk and no flag was written. *)
Theorem fetchTranscriptForVideo_never_throws (vid : jsstring) (w : World) :
  (exists r w', fetchTranscriptForVideo vid w = (Ok r, w'))
  /\ (forall v,
        videos w !! vid = Some v ->
        transcriptFetched v = true ->
        dbFault w VideoFindUnique (dbCalls VideoFindUnique w) = None ->
        fetchTranscriptForVideo vid w
        = (Ok (mkFetch true vid 0 (Some (js "Transcript already fetched")) None),
           logEvent (EvDb VideoFindUnique) w)).
Proof.
  split.
  - destruct (returns_fetchTranscriptForVideo vid w) as [r Hr].
    destruct (fetchTranscriptForVideo vid w) as [o w'] eqn:Hrun.
    simpl in Hr. subst o. exists r, w'. reflexivity.
  - intros v Hv Hflag Hok.
    unfold fetchTranscriptForVideo, tryCatch, video_findUnique.
    rewrite !bind_run. unfold dbCall. rewrite Hok. cbv [gets].
    cbn [videos logEvent withTrace]. rewrite Hv, Hflag. reflexivity.
Qed.

End WithEngine.

(** The theorem above in [oneVideoWorld]. *)
Lemma fetchTranscriptForVideo_never_throws_witness :
  videos oneVideoWorld !! js "v1" = Some (mkVideo (js "v1") (js "c1") true false)
  /\ transcriptFetched (mkVideo (js "v1") (js "c1") true false) = true
  /\ dbFault oneVideoWorld VideoFindUnique (dbCalls VideoFindUnique oneVideoWorld)
     = None
  /\ @fetchTranscriptForVideo exampleEngine noCaptions (js "v1") oneVideoWorld
     = (Ok (mkFetch true (js "v1") 0 (Some (js "Transcript already fetched")) None),
        logEvent (EvDb VideoFindUnique) oneVideoWorld).
Proof.
  split; [reflexivity|]. split; [reflexivity|]. split; [reflexivity|].
  exact (proj2 (@fetchTranscriptForVideo_never_throws exampleEngine noCaptions
                  (js "v1") oneVideoWorld)
           (mkVideo (js "v1") (js "c1") true false) eq_refl eq_refl eq_refl).
Defined.

End TranscriptFacts.

(* ===================================================================== *)
(** * The orchestrator                                                    *)
(* ===================================================================== *)

Module OrchestratorFacts.

Import Effects.
Import Extractor.
Import Transcript.
Import Orchestrator.
Import Properties.
Import EffectsFacts.
Import Examples.

Section WithCollaborators.
Context `{Engine} `{CaptionSources} `{VideoSource}.

(** Stage 1 never throws, and writes to the [videoFetch] part of the
    result only. *)
Lemma stage1_run (channel : jsstring) (options : PipelineOptions)
  (r : PipelineResult) (w : World) :
  exists r1 w1,
    stage1 channel options (r, w) = (Ok tt, (r1, w1))
    /\ creatorId r1 = creatorId r
    /\ transcriptFetch r1 = transcriptFetch r
    /\ predictionExtraction r1 = predictionExtraction r.
Proof.
  unfold stage1. destruct (skipVideoFetch options); cbn [negb].
  - eexists _, _. split; [reflexivity|]. repeat split.
  - unfold tryCatch. rewrite bind_run. unfold liftW. simpl snd.
    destruct (fetchVideosForChannel channel (maxVideosOr50 options) w)
      as [[fetched|e] w1].
    + eexists _, _. split; [reflexivity|]. repeat split.
    + eexists _, _. split; [reflexivity|]. repeat split.
Qed.

Lemma returns_attributeError (err : Thrown) : returns (attributeError err).
Proof. apply returns_modify. Qed.

(** What follows the outer [try]/[catch] never throws. *)
Lemma pipeline_returns (channel : jsstring) (options : PipelineOptions)
  (w : World) :
  exists r w', runIngestionPipeline channel options w = (Ok r, w').
Proof.
  unfold runIngestionPipeline. rewrite !bind_run. unfold tryCatch.
  destruct (pipelineBody channel options (initialResult channel, w))
    as [[[]|e] [r1 w1]].
  - eexists _, _. reflexivity.
  - eexists _, _. reflexivity.
Qed.

(** C5, as the code has it.  [runIngestionPipeline] always returns a
    result and never throws.  When the lookup after the discovery stage
    finds no creator for the channel, the run stops there, and the result
    is returned all the same: its [creatorId] is empty, stages 2 and 3 are
    not marked successful, and the message "Creator not found for channel:
    <id>" is the last error of the video stage when that stage failed,
    else the one error of the transcript stage. *)
Theorem runIngestionPipeline_always_returns
  (channel : jsstring) (options : PipelineOptions) (w : World) :
  (exists r w', runIngestionPipeline channel options w = (Ok r, w'))
  /\ (forall o r1 w1,
        stage1 channel options (initialResult channel, w) = (o, (r1, w1)) ->
        creators w1 !! channel = None ->
        dbFault w1 CreatorFindUnique (dbCalls CreatorFindUnique w1) = None ->
        exists r w',
          runIngestionPipeline channel options w = (Ok r, w')
          /\ creatorId r = []
          /\ transcriptFetchSuccess (transcriptFetch r) = false
          /\ predictionExtractionSuccess (predictionExtraction r) = false
          /\ predictionExtractionErrors (predictionExtraction r) = []
          /\ if videoFetchSuccess (videoFetch r1)
             then videoFetch r = videoFetch r1
                  /\ transcriptFetchErrors (transcriptFetch r)
                     = [js "Creator not found for channel: " ++ channel]
             else videoFetchErrors (videoFetch r)
                  = videoFetchErrors (videoFetch r1)
                    ++ [js "Creator not found for channel: " ++ channel]
                  /\ transcriptFetchErrors (transcriptFetch r) = []).
Proof.
  split; [apply pipeline_returns|].
  intros o r1 w1 Hstage Hnone Hok.
  destruct (stage1_run channel options (initialResult channel) w)
    as (r1' & w1' & Hrun & Hcid & Htf & Hpe).
  rewrite Hrun in Hstage. injection Hstage as <- <- <-.
  unfold runIngestionPipeline, pipelineBody.
  rewrite !bind_run. unfold tryCatch. rewrite !bind_run, Hrun.
  assert (Hfind : liftW (creator_findUnique channel) (r1', w1')
                  = (Ok None, (r1', logEvent (EvDb CreatorFindUnique) w1'))).
  { unfold liftW, creator_findUnique. cbn [fst snd]. rewrite bind_run.
    unfold dbCall. rewrite Hok. cbv [gets].
    cbn [creators logEvent withTrace]. rewrite Hnone. reflexivity. }
  rewrite bind_run, Hfind.
  cbv [throw attributeError update modify liftW dateNow gets fst snd
       mret ST_ret mbind ST_bind].
  destruct (videoFetchSuccess (videoFetch r1')) eqn:Hvf; cbn [negb].
  - rewrite Htf. simpl.
    eexists _, _. split; [reflexivity|]. simpl.
    rewrite Hcid, Htf, Hpe. simpl. repeat split; reflexivity.
  - eexists _, _. split; [reflexivity|]. simpl.
    rewrite Hcid, Htf, Hpe. simpl. repeat split; reflexivity.
Qed.

(** ** The lock *)

Lemma markPipelineRunning_free (channel : jsstring) (w : World) :
  (channel ∉ runningPipelines w) ->
  markPipelineRunning channel w
  = (Ok true, withRunning ({[ channel ]} ∪ runningPipelines w) w).
Proof.
  intros Hn. unfold markPipelineRunning. rewrite bind_run. cbv [gets].
  rewrite bool_decide_eq_false_2 by exact Hn. reflexivity.
Qed.

Lemma markPipelineRunning_held (channel : jsstring) (w : World) :
  (channel ∈ runningPipelines w) ->
  markPipelineRunning channel w = (Ok false, w).
Proof.
  intros Hin. unfold markPipelineRunning. rewrite bind_run. cbv [gets].
  rewrite bool_decide_eq_true_2 by exact Hin. reflexivity.
Qed.

Lemma released_out (channel : jsstring) (s : gset jsstring) :
  channel ∉ s ∖ {[ channel ]}.
Proof.
  intros Hin. apply elem_of_difference in Hin. destruct Hin as [_ Hn].
  apply Hn, elem_of_singleton. reflexivity.
Qed.

(** A run under a lock that was free: [run] starts with the lock held, and
    the [finally] block gives the lock back, whether [run] returned or
    threw. *)
Lemma withLock_free {A} (channel : jsstring) (run : M A) (w : World) :
  (channel ∉ runningPipelines w) ->
  withLock channel run w
  = let (o, w1) := run (withRunning ({[ channel ]} ∪ runningPipelines w) w) in
    (match o with
     | Ok a => Ok (Some a)
     | Raise e => Raise e
     end,
     withRunning (runningPipelines w1 ∖ {[ channel ]}) w1).
Proof.
  intros Hn. unfold withLock. rewrite bind_run, (markPipelineRunning_free _ _ Hn).
  unfold tryFinally. rewrite bind_run.
  destruct (run (withRunning ({[ channel ]} ∪ runningPipelines w) w))
    as [[a|e] w1]; reflexivity.
Qed.

(** A run under a lock that is held does not start: [run] is not called,
    and the [finally] block is not reached. *)
Lemma withLock_held {A} (channel : jsstring) (run : M A) (w : World) :
  (channel ∈ runningPipelines w) ->
  withLock channel run w = (Ok None, w).
Proof.
  intros Hin. unfold withLock.
  rewrite bind_run, (markPipelineRunning_held _ _ Hin). reflexivity.
Qed.

(** C6, as the code has it.  [markPipelineRunning] returns [true] and adds
    the channel to the set when it is not in it, and returns [false] and
    changes nothing when it is; once it returned [true] it returns [false]
    until [markPipelineComplete] is called, and [true] after that.  A run
    under the lock that finds the lock free starts with the channel in the
    set, and ends with the channel out of the set, whether the run
    returned or threw, so that [markPipelineRunning] returns [true] again;
    what the run returned or threw is what the caller gets.  So does
    [runIngestionPipelineWithLock]: it runs the pipeline with the lock
    held, returns its result, and the lock is free.  A run under the lock
    that finds the lock held is refused: nothing runs, [null] is returned,
    the channel stays in the set, which belongs to the run that holds it,
    and [markPipelineRunning] still returns [false]. *)
Theorem lock_released (channel : jsstring) (w : World) :
  ((channel ∉ runningPipelines w) ->
     markPipelineRunning channel w
     = (Ok true, withRunning ({[ channel ]} ∪ runningPipelines w) w))
  /\ ((channel ∈ runningPipelines w) ->
      markPipelineRunning channel w = (Ok false, w))
  /\ (forall w1,
        markPipelineRunning channel w = (Ok true, w1) ->
        markPipelineRunning channel w1 = (Ok false, w1)
        /\ fst (markPipelineRunning channel (snd (markPipelineComplete channel w1)))
           = Ok true)
  /\ (forall (run : M PipelineResult) o w',
        (channel ∉ runningPipelines w) ->
        withLock channel run w = (o, w') ->
        (channel ∉ runningPipelines w')
        /\ fst (markPipelineRunning channel w') = Ok true
        /\ (forall e,
              (o = Raise e) <->
              (exists w1,
                  run (withRunning ({[ channel ]} ∪ runningPipelines w) w)
                  = (Raise e, w1)))
        /\ (forall a,
              (o = Ok (Some a)) <->
              (exists w1,
                  run (withRunning ({[ channel ]} ∪ runningPipelines w) w)
                  = (Ok a, w1)))
        /\ o <> Ok None
        /\ w' = (let w1 := snd (run (withRunning
                                       ({[ channel ]} ∪ runningPipelines w) w)) in
                 withRunning (runningPipelines w1 ∖ {[ channel ]}) w1))
  /\ (forall options,
        (channel ∉ runningPipelines w) ->
        exists r w1,
          runIngestionPipeline channel options
            (withRunning ({[ channel ]} ∪ runningPipelines w) w) = (Ok r, w1)
          /\ runIngestionPipelineWithLock channel options w
             = (Ok (Some r), withRunning (runningPipelines w1 ∖ {[ channel ]}) w1)
          /\ (channel
                ∉ runningPipelines
                    (snd (runIngestionPipelineWithLock channel options w)))
          /\ fst (markPipelineRunning channel
                    (snd (runIngestionPipelineWithLock channel options w)))
             = Ok true)
  /\ (forall (run : M PipelineResult),
        (channel ∈ runningPipelines w) ->
        withLock channel run w = (Ok None, w))
  /\ (forall options,
        (channel ∈ runningPipelines w) ->
        runIngestionPipelineWithLock channel options w = (Ok None, w)
        /\ (channel
              ∈ runningPipelines
                  (snd (runIngestionPipelineWithLock channel options w)))
        /\ fst (markPipelineRunning channel
                  (snd (runIngestionPipelineWithLock channel options w)))
           = Ok false).
Proof.
  assert (Hfresh : forall w0, (channel ∉ runningPipelines w0) ->
            fst (markPipelineRunning channel w0) = Ok true).
  { intros w0 Hn. rewrite (markPipelineRunning_free _ _ Hn). reflexivity. }
  split; [apply markPipelineRunning_free|].
  split; [apply markPipelineRunning_held|].
  split; [|split; [|split; [|split]]].
  - intros w1 Hmark.
    destruct (decide (channel ∈ runningPipelines w)) as [Hin|Hn].
    { rewrite (markPipelineRunning_held _ _ Hin) in Hmark. discriminate Hmark. }
    rewrite (markPipelineRunning_free _ _ Hn) in Hmark. injection Hmark as <-.
    split.
    + apply markPipelineRunning_held. cbn [runningPipelines withRunning].
      apply elem_of_union_l, elem_of_singleton_2. reflexivity.
    + apply Hfresh. cbv [markPipelineComplete modify snd].
      cbn [runningPipelines withRunning]. apply released_out.
  - intros run o w' Hn. rewrite (withLock_free _ _ _ Hn).
    destruct (run (withRunning ({[ channel ]} ∪ runningPipelines w) w))
      as [[a|e] w1]; intros Heq; injection Heq as <- <-;
      cbn [runningPipelines withRunning snd].
    + split; [apply released_out|]. split; [apply Hfresh, released_out|].
      split; [|split; [|split]].
      * intros e. split; [discriminate | intros [w2 Hw2]; discriminate Hw2].
      * intros a'. split.
        -- intros Ho. injection Ho as <-. exists w1. reflexivity.
        -- intros [w2 Hw2]. injection Hw2 as -> _. reflexivity.
      * discriminate.
      * reflexivity.
    + split; [apply released_out|]. split; [apply Hfresh, released_out|].
      split; [|split; [|split]].
      * intros e'. split.
        -- intros Ho. injection Ho as <-. exists w1. reflexivity.
        -- intros [w2 Hw2]. injection Hw2 as -> _. reflexivity.
      * intros a. split; [discriminate | intros [w2 Hw2]; discriminate Hw2].
      * discriminate.
      * reflexivity.
  - intros options Hn.
    destruct (pipeline_returns channel options
                (withRunning ({[ channel ]} ∪ runningPipelines w) w))
      as (r & w1 & Hrun).
    assert (Hlock : runIngestionPipelineWithLock channel options w
                    = (Ok (Some r),
                       withRunning (runningPipelines w1 ∖ {[ channel ]}) w1)).
    { unfold runIngestionPipelineWithLock.
      rewrite (withLock_free _ _ _ Hn), Hrun. reflexivity. }
    exists r, w1. split; [exact Hrun|]. split; [exact Hlock|].
    rewrite Hlock. cbn [runningPipelines withRunning snd].
    split; [apply released_out | apply Hfresh, released_out].
  - intros run. apply withLock_held.
  - intros options Hin.
    assert (Hlock : runIngestionPipelineWithLock channel options w = (Ok None, w)).
    { unfold runIngestionPipelineWithLock. apply withLock_held, Hin. }
    split; [exact Hlock|]. rewrite Hlock. cbn [snd].
    split; [exact Hin|]. rewrite (markPipelineRunning_held _ _ Hin). reflexivity.
Qed.

End WithCollaborators.

(** The theorem on the pipeline in [emptyWorld], which has no creator. *)
Lemma runIngestionPipeline_always_returns_witness :
  @stage1 noVideos (js "UC1") defaultOptions (initialResult (js "UC1"), emptyWorld)
  = (Ok tt,
     (withVideoFetch (mkVideoFetch true 0 0 0 []) (initialResult (js "UC1")),
      emptyWorld))
  /\ creators emptyWorld !! js "UC1" = None
  /\ dbFault emptyWorld CreatorFindUnique (dbCalls CreatorFindUnique emptyWorld)
     = None
  /\ exists r w',
       @runIngestionPipeline exampleEngine noCaptions noVideos (js "UC1")
         defaultOptions emptyWorld = (Ok r, w')
       /\ creatorId r = []
       /\ transcriptFetchErrors (transcriptFetch r)
          = [js "Creator not found for channel: " ++ js "UC1"].
Proof.
  split; [reflexivity|]. split; [reflexivity|]. split; [reflexivity|].
  destruct (proj2 (@runIngestionPipeline_always_returns exampleEngine
                     noCaptions noVideos (js "UC1") defaultOptions emptyWorld)
              (Ok tt)
              (withVideoFetch (mkVideoFetch true 0 0 0 [])
                 (initialResult (js "UC1")))
              emptyWorld eq_refl eq_refl eq_refl)
    as (r & w' & Hrun & Hcid & _ & _ & _ & _ & Herr).
  exists r, w'. split; [exact Hrun|]. split; [exact Hcid | exact Herr].
Defined.

(** C5, as claimed, fails in [emptyWorld]: no creator exists for the
    channel after the discovery stage, and the run returns a result; it
    does not throw. *)
Lemma runIngestionPipeline_creator_missing_returns :
  creators emptyWorld !! js "UC1" = None
  /\ (exists r,
        fst (@runIngestionPipeline exampleEngine noCaptions noVideos (js "UC1")
               defaultOptions emptyWorld) = Ok r
        /\ transcriptFetchErrors (transcriptFetch r)
           = [js "Creator not found for channel: UC1"])
  /\ ~ (exists e,
          fst (@runIngestionPipeline exampleEngine noCaptions noVideos (js "UC1")
                 defaultOptions emptyWorld) = Raise e).
Proof.
  split; [reflexivity|]. split.
  - eexists. split; [vm_compute; reflexivity | reflexivity].
  - intros [e He]. vm_compute in He. discriminate He.
Qed.

(** The theorem on the lock in [emptyWorld], where no pipeline runs: the
    pipeline for [UC1] runs under the lock, its result is returned, and the
    lock is free after it. *)
Lemma lock_released_witness :
  (js "UC1" ∉ runningPipelines emptyWorld)
  /\ exists r w1,
       @runIngestionPipeline exampleEngine noCaptions noVideos (js "UC1")
         defaultOptions
         (withRunning ({[ js "UC1" ]} ∪ runningPipelines emptyWorld) emptyWorld)
       = (Ok r, w1)
       /\ @runIngestionPipelineWithLock exampleEngine noCaptions noVideos
            (js "UC1") defaultOptions emptyWorld
          = (Ok (Some r), withRunning (runningPipelines w1 ∖ {[ js "UC1" ]}) w1)
       /\ (js "UC1"
             ∉ runningPipelines
                 (snd (@runIngestionPipelineWithLock exampleEngine noCaptions
                         noVideos (js "UC1") defaultOptions emptyWorld)))
       /\ fst (markPipelineRunning (js "UC1")
                 (snd (@runIngestionPipelineWithLock exampleEngine noCaptions
                         noVideos (js "UC1") defaultOptions emptyWorld)))
          = Ok true.
Proof.
  split; [apply not_elem_of_empty|].
  apply (proj1 (proj2 (proj2 (proj2 (proj2 (@lock_released exampleEngine
                                              noCaptions noVideos (js "UC1")
                                              emptyWorld)))))).
  apply not_elem_of_empty.
Defined.

(** C6, as claimed, fails in [busyWorld], where a pipeline for [UC1]
    runs: [runIngestionPipelineWithLock] returns [null] at once, and after
    it [UC1] is still in the set and [markPipelineRunning] does not return
    [true]. *)
Lemma runIngestionPipelineWithLock_refused_keeps_lock :
  (js "UC1" ∈ runningPipelines busyWorld)
  /\ @runIngestionPipelineWithLock exampleEngine noCaptions noVideos
       (js "UC1") defaultOptions busyWorld
     = (Ok None, busyWorld)
  /\ ~ (js "UC1"
          ∉ runningPipelines
              (snd (@runIngestionPipelineWithLock exampleEngine noCaptions
                      noVideos (js "UC1") defaultOptions busyWorld)))
  /\ fst (markPipelineRunning (js "UC1")
            (snd (@runIngestionPipelineWithLock exampleEngine noCaptions
                    noVideos (js "UC1") defaultOptions busyWorld)))
     <> Ok true
  /\ (forall (engine : Engine) (captions : CaptionSources)
        (source : VideoSource) (options : PipelineOptions),
        @runIngestionPipelineWithLock engine captions source
          (js "UC1") options busyWorld
        = (Ok None, busyWorld)).
Proof.
  assert (Hin : js "UC1" ∈ runningPipelines busyWorld).
  { change (js "UC1" ∈ ({[ js "UC1" ]} : gset jsstring)).
    apply elem_of_singleton_2. reflexivity. }
  assert (Hlock : @runIngestionPipelineWithLock exampleEngine noCaptions noVideos
                    (js "UC1") defaultOptions busyWorld
                  = (Ok None, busyWorld)).
  { unfold runIngestionPipelineWithLock. apply withLock_held, Hin. }
  split; [exact Hin|]. split; [exact Hlock|]. rewrite Hlock. cbn [snd].
  split; [intros Hn; exact (Hn Hin)|].
  split; [rewrite (markPipelineRunning_held _ _ Hin); discriminate|].
  intros engine captions source options.
  unfold runIngestionPipelineWithLock. apply withLock_held, Hin.
Qed.

End OrchestratorFacts.

(* ===================================================================== *)
(** * More on the segmenter: what the blocks hold                         *)
(* ===================================================================== *)

Module SegmenterContent.

Import Segmenter.
Import JsStringFacts.
Import SegmenterFacts.
Import Properties.
Import Examples.

(** ** Trimmed strings *)

Lemma trimEnd_fixes (s : jsstring) :
  match last s with
  | Some c => isWhiteSpace c = false
  | None => True
  end -> trimEnd s = s.
Proof.
  intros Hl. unfold trimEnd.
  destruct (rev s) as [|c r] eqn:Hr.
  - apply (f_equal (@rev _)) in Hr. rewrite rev_involutive in Hr.
    subst s. reflexivity.
  - assert (Hs : s = rev r ++ [c]).
    { rewrite <- (rev_involutive s), Hr. reflexivity. }
    rewrite Hs, last_snoc in Hl. simpl. rewrite Hl. simpl.
    rewrite Hs. reflexivity.
Qed.

Lemma dropWhile_head {A} (p : A -> bool) (l : list A) :
  match dropWhile p l with
  | [] => True
  | x :: _ => p x = false
  end.
Proof.
  induction l as [|x r IH]; simpl; [exact I|].
  destruct (p x) eqn:E; [exact IH | exact E].
Qed.

Lemma trimEnd_last (s : jsstring) :
  match last (trimEnd s) with
  | Some c => isWhiteSpace c = false
  | None => True
  end.
Proof.
  unfold trimEnd. pose proof (dropWhile_head isWhiteSpace (rev s)) as Hh.
  destruct (dropWhile isWhiteSpace (rev s)) as [|c r]; [exact I|].
  simpl. rewrite last_snoc. exact Hh.
Qed.

(** A trimmed, non-empty string starts and ends with ink. *)
Lemma trimmed_ends (s : jsstring) :
  trim s = s -> s <> [] ->
  (exists c r, s = c :: r /\ isWhiteSpace c = false)
  /\ (exists c, last s = Some c /\ isWhiteSpace c = false).
Proof.
  intros Ht Hne. split.
  - pose proof (trimStart_head s) as Hh. unfold trim in Ht.
    destruct (trimStart s) as [|c r] eqn:E.
    + exfalso. apply Hne. rewrite <- Ht. reflexivity.
    + destruct (trimEnd_cons_ink c r Hh) as [r' Hr'].
      exists c, r'. split; [rewrite <- Ht; exact Hr' | exact Hh].
  - pose proof (trimEnd_last (trimStart s)) as Hl. fold (trim s) in Hl.
    rewrite Ht in Hl. destruct (last s) as [c|] eqn:E.
    + exists c. split; [reflexivity | exact Hl].
    + exfalso. apply Hne. apply last_None in E. exact E.
Qed.

Lemma ends_trimmed (s : jsstring) (c : N) (r : jsstring) (d : N) :
  s = c :: r -> isWhiteSpace c = false ->
  last s = Some d -> isWhiteSpace d = false ->
  trim s = s.
Proof.
  intros Hs Hc Hl Hd. unfold trim.
  rewrite (trimStart_fixes s) by (rewrite Hs; exact Hc).
  apply trimEnd_fixes. rewrite Hl. exact Hd.
Qed.

(** Joining two trimmed, non-empty strings around anything gives a
    trimmed string. *)
Lemma trimmed_sandwich (a mid b : jsstring) :
  trim a = a -> a <> [] -> trim b = b -> b <> [] ->
  trim (a ++ mid ++ b) = a ++ mid ++ b.
Proof.
  intros Ha Hane Hb Hbne.
  destruct (trimmed_ends a Ha Hane) as [(c & r & Hs & Hc) _].
  destruct (trimmed_ends b Hb Hbne) as [_ (d & Hl & Hd)].
  apply (ends_trimmed _ c (r ++ mid ++ b) d).
  - rewrite Hs. reflexivity.
  - exact Hc.
  - rewrite app_assoc. rewrite last_app, Hl. reflexivity.
  - exact Hd.
Qed.

Lemma appendChunk_trimmed (cur t : jsstring) :
  (cur = [] \/ (trim cur = cur /\ cur <> [])) ->
  trim t <> [] ->
  trim (appendChunk cur (trim t)) = appendChunk cur (trim t).
Proof.
  intros Hcur Ht. unfold appendChunk.
  destruct Hcur as [->|[Hc Hne]]; [apply trim_idem|].
  apply truthy_true_iff in Hne as Htr. rewrite Htr.
  apply trimmed_sandwich; [exact Hc | exact Hne | apply trim_idem | exact Ht].
Qed.

(** ** One iteration, in full *)

Lemma loopBody_kept_eq (chunks : list TranscriptChunk) (i : nat)
  (chunk : TranscriptChunk) (st : LoopState) :
  trim (text chunk) <> [] ->
  loopBody chunks i chunk st
  = if shouldFinalize (length chunks) i
         (appendChunk (currentText st) (trim (text chunk)))
         (currentChunkIds st ++ [id chunk])
    then {| blocks := blocks st ++
              [ mkBlock (trim (appendChunk (currentText st) (trim (text chunk))))
                  (currentStartTime st) (currentChunkIds st ++ [id chunk]) ];
            currentText := [];
            currentStartTime :=
              if i <? length chunks - 1
              then match chunks !! (i + 1) with
                   | Some next => startTime next
                   | None => currentStartTime st
                   end
              else currentStartTime st;
            currentChunkIds := [] |}
    else {| blocks := blocks st;
            currentText := appendChunk (currentText st) (trim (text chunk));
            currentStartTime := currentStartTime st;
            currentChunkIds := currentChunkIds st ++ [id chunk] |}.
Proof.
  intros Hkept. unfold loopBody.
  apply truthy_true_iff in Hkept as Ht. rewrite Ht. simpl negb. cbv iota.
  pose proof (appended_text_truthy (currentText st) (text chunk) Hkept) as Hg.
  cbv zeta. rewrite Hg, andb_true_r. reflexivity.
Qed.

Lemma kept_false (c : TranscriptChunk) : kept c = false <-> trim (text c) = [].
Proof. unfold kept. apply truthy_false_iff. Qed.

Lemma kept_true (c : TranscriptChunk) : kept c = true <-> trim (text c) <> [].
Proof. unfold kept. apply truthy_true_iff. Qed.

(** ** The shape of the running block and of the blocks pushed *)

Lemma runningShape_step (chunks : list TranscriptChunk) (k : nat)
  (c : TranscriptChunk) (s : LoopState) :
  runningShape s /\ Forall solidBlock (blocks s) ->
  runningShape (loopBody chunks k c s)
  /\ Forall solidBlock (blocks (loopBody chunks k c s)).
Proof.
  intros [Hshape Hsolid].
  destruct (decide (trim (text c) = [])) as [Hblank|Hkept].
  { rewrite loopBody_blank by exact Hblank. split; assumption. }
  assert (Hcur : currentText s = []
                 \/ (trim (currentText s) = currentText s /\ currentText s <> [])).
  { destruct Hshape as [[H1 _]|(Hink & Htrim & _)]; [left; exact H1|].
    right. split; [exact Htrim|]. apply truthy_true_iff, truthy_hasInk, Hink. }
  pose proof (appendChunk_trimmed (currentText s) (text c) Hcur Hkept) as Htr.
  assert (Hink : hasInk (appendChunk (currentText s) (trim (text c))) = true).
  { apply appendChunk_ink, trim_ink, Hkept. }
  rewrite loopBody_kept_eq by exact Hkept.
  destruct (shouldFinalize _ _ _ _); simpl.
  - split; [left; split; reflexivity|].
    apply Forall_app. split; [exact Hsolid|]. constructor; [|constructor].
    unfold solidBlock. simpl. split; [|split].
    + rewrite Htr. apply truthy_true_iff, truthy_hasInk, Hink.
    + apply trim_idem.
    + intros Habs. apply app_eq_nil in Habs. destruct Habs as [_ Habs].
      discriminate Habs.
  - split; [|exact Hsolid]. right. split; [exact Hink|]. split; [exact Htr|].
    intros Habs. apply app_eq_nil in Habs. destruct Habs as [_ Habs].
    discriminate Habs.
Qed.

Lemma final_state (chunks rest : list TranscriptChunk) (first : TranscriptChunk)
  (P : nat -> LoopState -> Prop) :
  chunks = first :: rest ->
  P 0 (initState first) ->
  (forall k c s, chunks !! k = Some c -> P k s -> P (S k) (loopBody chunks k c s)) ->
  P (length chunks) (forLoop chunks 0 chunks (initState first)).
Proof.
  intros Hchunks H0 Hstep.
  rewrite <- (take_ge chunks (length chunks)) at 3 by lia.
  apply (forLoop_prefix_invariant chunks P); [exact H0 | exact Hstep | lia].
Qed.

Lemma final_shape (chunks rest : list TranscriptChunk) (first : TranscriptChunk) :
  chunks = first :: rest ->
  runningShape (forLoop chunks 0 chunks (initState first))
  /\ Forall solidBlock (blocks (forLoop chunks 0 chunks (initState first))).
Proof.
  intros Hchunks.
  apply (final_state chunks rest first
           (fun _ st => runningShape st /\ Forall solidBlock (blocks st)) Hchunks).
  - split; [left; split; reflexivity | constructor].
  - intros k c s _. apply runningShape_step.
Qed.

(** What comes out, from the final state of the loop. *)
Lemma flushRemaining_shape (st : LoopState) :
  runningShape st ->
  flushRemaining st
  = blocks st
    ++ match currentText st with
       | [] => []
       | _ :: _ => [ mkBlock (currentText st) (currentStartTime st)
                       (currentChunkIds st) ]
       end.
Proof.
  intros Hshape. unfold flushRemaining.
  destruct Hshape as [[Ht _]|(Hink & Htrim & _)].
  - rewrite Ht. simpl. rewrite app_nil_r. reflexivity.
  - rewrite Htrim. apply truthy_hasInk in Hink.
    destruct (currentText st); [discriminate Hink | reflexivity].
Qed.

(** X3. Every block [segmentTranscript] returns has text that is not empty
    and is trimmed, and at least one chunk id: [chunkIds[0]], to which the
    extractor links the predictions of the block, always exists. *)
Theorem segmentTranscript_blocks_solid (chunks : list TranscriptChunk) :
  Forall (fun b => blockText b <> []
                   /\ trim (blockText b) = blockText b
                   /\ chunkIds b <> [])
    (segmentTranscript chunks).
Proof.
  destruct chunks as [|first rest] eqn:Hchunks; [constructor|].
  rewrite <- Hchunks.
  rewrite (segmentTranscript_cons chunks rest first Hchunks).
  destruct (final_shape chunks rest first Hchunks) as [Hshape Hsolid].
  rewrite (flushRemaining_shape _ Hshape).
  apply Forall_app. split; [exact Hsolid|].
  destruct Hshape as [[Ht _]|(Hink & Htrim & Hids)].
  - rewrite Ht. constructor.
  - apply truthy_hasInk in Hink as Htr.
    destruct (currentText _) as [|c r] eqn:Hcur; [discriminate Htr|].
    constructor; [|constructor]. simpl.
    split; [discriminate|]. split; [exact Htrim | exact Hids].
Qed.

(** ** The chunk ids *)

Lemma filter_take_S (chunks : list TranscriptChunk) (k : nat) (c : TranscriptChunk) :
  chunks !! k = Some c ->
  List.filter kept (take (S k) chunks)
  = List.filter kept (take k chunks) ++ (if kept c then [c] else []).
Proof.
  intros Hk. rewrite (take_S_r _ _ _ Hk), List.filter_app. reflexivity.
Qed.

Lemma ids_step (chunks : list TranscriptChunk) (k : nat) (c : TranscriptChunk)
  (s : LoopState) :
  chunks !! k = Some c ->
  concat (map chunkIds (blocks s)) ++ currentChunkIds s
  = map id (List.filter kept (take k chunks)) ->
  concat (map chunkIds (blocks (loopBody chunks k c s)))
    ++ currentChunkIds (loopBody chunks k c s)
  = map id (List.filter kept (take (S k) chunks)).
Proof.
  intros Hk IH. rewrite (filter_take_S _ _ _ Hk), map_app, <- IH.
  destruct (decide (trim (text c) = [])) as [Hblank|Hkept].
  - rewrite loopBody_blank by exact Hblank.
    apply kept_false in Hblank. rewrite Hblank. simpl.
    rewrite app_nil_r. reflexivity.
  - rewrite loopBody_kept_eq by exact Hkept.
    apply kept_true in Hkept. rewrite Hkept.
    destruct (shouldFinalize _ _ _ _); simpl.
    + rewrite map_app, concat_app. simpl. rewrite !app_nil_r.
      rewrite app_assoc. reflexivity.
    + rewrite app_assoc. reflexivity.
Qed.

(** X1. [segmentTranscript] neither loses nor repeats a chunk: the chunk
    ids of its blocks, read in order, are the ids of the chunks whose
    trimmed text is not empty, in the order of the input. *)
Theorem segmentTranscript_keeps_chunk_ids (chunks : list TranscriptChunk) :
  concat (map chunkIds (segmentTranscript chunks))
  = map id (List.filter (fun c => truthy (trim (text c))) chunks).
Proof.
  destruct chunks as [|first rest] eqn:Hchunks; [reflexivity|].
  rewrite <- Hchunks.
  rewrite (segmentTranscript_cons chunks rest first Hchunks).
  destruct (final_shape chunks rest first Hchunks) as [Hshape _].
  rewrite (flushRemaining_shape _ Hshape).
  pose proof (final_state chunks rest first
    (fun k st => concat (map chunkIds (blocks st)) ++ currentChunkIds st
                 = map id (List.filter kept (take k chunks))) Hchunks
    eq_refl (fun k c s Hk => ids_step chunks k c s Hk)) as Hfin.
  cbv beta in Hfin. rewrite take_ge in Hfin by lia.
  change (fun c => truthy (trim (text c))) with kept. rewrite <- Hfin.
  rewrite map_app, concat_app. f_equal.
  destruct Hshape as [[Ht Hi]|(Hink & _ & _)].
  - rewrite Ht, Hi. reflexivity.
  - apply truthy_hasInk in Hink.
    destruct (currentText _); [discriminate Hink|]. simpl.
    apply app_nil_r.
Qed.

(** ** The text *)

Lemma join_snoc (sep : jsstring) (l : list jsstring) (x : jsstring) :
  join sep (l ++ [x])
  = match l with
    | [] => x
    | _ :: _ => join sep l ++ sep ++ x
    end.
Proof.
  induction l as [|a r IH]; [reflexivity|].
  destruct r as [|b r'].
  - reflexivity.
  - change (join sep ((a :: b :: r') ++ [x]))
      with (a ++ sep ++ join sep ((b :: r') ++ [x])).
    rewrite IH.
    change (join sep (a :: b :: r')) with (a ++ sep ++ join sep (b :: r')).
    rewrite <- !app_assoc. reflexivity.
Qed.

Lemma textsOf_step (chunks : list TranscriptChunk) (k : nat) (c : TranscriptChunk)
  (s : LoopState) :
  runningShape s -> trim (text c) <> [] ->
  textsOf (loopBody chunks k c s)
  = map blockText (blocks s) ++ [appendChunk (currentText s) (trim (text c))].
Proof.
  intros Hshape Hkept.
  assert (Hcur : currentText s = []
                 \/ (trim (currentText s) = currentText s /\ currentText s <> [])).
  { destruct Hshape as [[H1 _]|(Hink & Htrim & _)]; [left; exact H1|].
    right. split; [exact Htrim|]. apply truthy_true_iff, truthy_hasInk, Hink. }
  pose proof (appendChunk_trimmed (currentText s) (text c) Hcur Hkept) as Htr.
  assert (Hink : hasInk (appendChunk (currentText s) (trim (text c))) = true).
  { apply appendChunk_ink, trim_ink, Hkept. }
  rewrite loopBody_kept_eq by exact Hkept. unfold textsOf.
  destruct (shouldFinalize _ _ _ _); simpl.
  - rewrite map_app. simpl. rewrite Htr, app_nil_r. reflexivity.
  - unfold optionalText. rewrite (truthy_hasInk _ Hink). reflexivity.
Qed.

Lemma texts_step (chunks : list TranscriptChunk) (k : nat) (c : TranscriptChunk)
  (s : LoopState) :
  chunks !! k = Some c ->
  (runningShape s /\ Forall solidBlock (blocks s))
  /\ join (js " ") (textsOf s) = join (js " ") (keptTexts (take k chunks))
  /\ (textsOf s = [] <-> keptTexts (take k chunks) = []) ->
  (runningShape (loopBody chunks k c s)
   /\ Forall solidBlock (blocks (loopBody chunks k c s)))
  /\ join (js " ") (textsOf (loopBody chunks k c s))
     = join (js " ") (keptTexts (take (S k) chunks))
  /\ (textsOf (loopBody chunks k c s) = [] <-> keptTexts (take (S k) chunks) = []).
Proof.
  intros Hk (Hshape & Hjoin & Hnil).
  split; [apply runningShape_step; exact Hshape|].
  destruct Hshape as [Hshape _].
  unfold keptTexts in *. rewrite (filter_take_S _ _ _ Hk), map_app.
  destruct (decide (trim (text c) = [])) as [Hblank|Hkept].
  { rewrite loopBody_blank by exact Hblank.
    apply kept_false in Hblank. rewrite Hblank. simpl. rewrite app_nil_r.
    split; assumption. }
  rewrite (textsOf_step chunks k c s Hshape Hkept).
  apply kept_true in Hkept as Hk'. rewrite Hk'. simpl map.
  split.
  2:{ split; intros Habs; apply app_eq_nil in Habs; destruct Habs as [_ Habs];
      discriminate Habs. }
  assert (Hsame : join (js " ")
                    (map blockText (blocks s)
                       ++ [appendChunk (currentText s) (trim (text c))])
                  = join (js " ") (textsOf s ++ [trim (text c)])).
  { unfold textsOf, optionalText, appendChunk.
    destruct (truthy (currentText s)).
    - rewrite (join_snoc _ (map blockText (blocks s) ++ [currentText s])).
      destruct (map blockText (blocks s)) as [|a r]; [reflexivity|].
      change ((a :: r) ++ [currentText s]) with (a :: r ++ [currentText s]).
      cbv iota. change (a :: r ++ [currentText s]) with ((a :: r) ++ [currentText s]).
      rewrite !join_snoc. rewrite <- !app_assoc. reflexivity.
    - rewrite app_nil_r. reflexivity. }
  rewrite Hsame, !join_snoc.
  destruct (textsOf s) as [|a r] eqn:Ha.
  - destruct Hnil as [Hnil _]. rewrite (Hnil eq_refl). reflexivity.
  - destruct (map _ (List.filter kept (take k chunks))) as [|b r'] eqn:Hb.
    + destruct Hnil as [_ Hnil]. discriminate (Hnil eq_refl).
    + rewrite Hjoin. reflexivity.
Qed.

(** X2. [segmentTranscript] keeps the text: the texts of its blocks, joined
    with single spaces, are the trimmed texts of the chunks it keeps (those
    whose trimmed text is not empty), joined with single spaces. *)
Theorem segmentTranscript_keeps_text (chunks : list TranscriptChunk) :
  join (js " ") (map blockText (segmentTranscript chunks))
  = join (js " ")
      (map (fun c => trim (text c))
         (List.filter (fun c => truthy (trim (text c))) chunks)).
Proof.
  destruct chunks as [|first rest] eqn:Hchunks; [reflexivity|].
  rewrite <- Hchunks.
  rewrite (segmentTranscript_cons chunks rest first Hchunks).
  pose proof (final_state chunks rest first
    (fun k st =>
       (runningShape st /\ Forall solidBlock (blocks st))
       /\ join (js " ") (textsOf st) = join (js " ") (keptTexts (take k chunks))
       /\ (textsOf st = [] <-> keptTexts (take k chunks) = [])) Hchunks) as Hfin.
  cbv beta in Hfin.
  destruct Hfin as ([Hshape _] & Hjoin & _).
  - split; [split; [left; split; reflexivity | constructor]|].
    split; [reflexivity | split; reflexivity].
  - intros k c s Hk. apply texts_step, Hk.
  - rewrite take_ge in Hjoin by lia.
    change (map (fun c => trim (text c))
              (List.filter (fun c => truthy (trim (text c))) chunks))
      with (keptTexts chunks).
    rewrite <- Hjoin, (flushRemaining_shape _ Hshape), map_app.
    unfold textsOf, optionalText. f_equal. f_equal.
    destruct Hshape as [[Ht _]|(Hink & _ & _)].
    + rewrite Ht. reflexivity.
    + apply truthy_hasInk in Hink. rewrite Hink.
      destruct (currentText _); [discriminate Hink | reflexivity].
Qed.


(** ** Why a block was closed *)

Lemma segmentTranscript_early (Q : SegmentedBlock -> Prop)
  (chunks : list TranscriptChunk) :
  (forall i cur t ids,
      i <> length chunks - 1 ->
      shouldFinalize (length chunks) i cur ids = true ->
      Q (mkBlock (trim cur) t ids)) ->
  exists early tail,
    segmentTranscript chunks = early ++ tail
    /\ length tail <= 1
    /\ Forall Q early.
Proof.
  intros HQ.
  destruct chunks as [|first rest] eqn:Hchunks.
  { exists [], []. repeat split; [simpl; lia | constructor]. }
  rewrite <- Hchunks in *.
  set (n := length chunks) in *.
  assert (Hn : 1 <= n) by (subst n; rewrite Hchunks; simpl; lia).
  destruct (lookup_lt_is_Some_2 chunks (n - 1) ltac:(lia)) as [c Hc].
  set (pre := forLoop chunks 0 (take (n - 1) chunks) (initState first)).
  assert (Hpre : stateBefore chunks (n - 1) = Some pre).
  { apply (stateBefore_cons chunks rest first), Hchunks. }
  assert (Hearly : n - 1 <= n - 1 -> Forall Q (blocks pre)).
  { apply (forLoop_prefix_invariant chunks
             (fun k st => k <= n - 1 -> Forall Q (blocks st))).
    - intros _. constructor.
    - intros k c0 s Hk IH Hle. specialize (IH ltac:(lia)).
      destruct (decide (trim (text c0) = [])) as [Hblank|Hkept].
      { rewrite loopBody_blank by exact Hblank. exact IH. }
      destruct (loopBody_kept chunks k c0 s Hkept)
        as [(Hsf & Hbl & _)|(_ & Hbl & _)]; rewrite Hbl; [|exact IH].
      apply Forall_app. split; [exact IH|].
      constructor; [|constructor]. apply (HQ k); [lia | exact Hsf].
    - lia. }
  specialize (Hearly (Nat.le_refl _)).
  rewrite (segmentTranscript_through chunks (n - 1) c pre Hc Hpre).
  replace (S (n - 1)) with (length chunks) by (subst n; lia).
  rewrite drop_all. simpl forLoop.
  destruct (decide (trim (text c) = [])) as [Hblank|Hkept].
  - rewrite loopBody_blank by exact Hblank. unfold flushRemaining.
    destruct (truthy (trim (currentText pre))).
    + eexists (blocks pre), [_]. repeat split; [simpl; lia | exact Hearly].
    + exists (blocks pre), []. rewrite app_nil_r.
      repeat split; [simpl; lia | exact Hearly].
  - destruct (loopBody_kept chunks (n - 1) c pre Hkept)
      as [(_ & Hbl & Ht)|(Hsf & _ & _)].
    + unfold flushRemaining. rewrite Ht, Hbl. simpl.
      eexists (blocks pre), [_]. repeat split; [simpl; lia | exact Hearly].
    + exfalso.
      assert (Htrue : shouldFinalize (length chunks) (n - 1)
                (appendChunk (currentText pre) (trim (text c)))
                (currentChunkIds pre ++ [id c]) = true).
      { apply shouldFinalize_true. left. reflexivity. }
      rewrite Htrue in Hsf. discriminate Hsf.
Qed.

Lemma endsWithSentence_trim (t : jsstring) :
  endsWithSentence (trim t) = endsWithSentence t.
Proof. unfold endsWithSentence. rewrite trim_idem. reflexivity. Qed.

(** X4. [segmentTranscript] prefers sentence boundaries: every block it
    returns, except possibly the last, has at least 30 words and ends with
    [.], [!] or [?], unless it has reached 120 words or 5 chunks. *)
Theorem segmentTranscript_prefers_sentence_ends (chunks : list TranscriptChunk) :
  exists early tail,
    segmentTranscript chunks = early ++ tail
    /\ length tail <= 1
    /\ Forall (fun b =>
                 MIN_WORDS_PER_BLOCK <= countWords (blockText b)
                 /\ (endsWithSentence (blockText b) = true
                     \/ MAX_WORDS_PER_BLOCK <= countWords (blockText b)
                     \/ TARGET_CHUNKS_PER_BLOCK <= length (chunkIds b)))
         early.
Proof.
  apply segmentTranscript_early.
  intros i cur t ids Hi Hsf. simpl.
  rewrite countWords_trim, endsWithSentence_trim.
  apply shouldFinalize_true in Hsf.
  destruct Hsf as [Hlast|Hsf]; [exfalso; apply Hi; exact Hlast | exact Hsf].
Qed.

(** ** Where a block starts *)

Lemma span_step (chunks : list TranscriptChunk) (k : nat) (c : TranscriptChunk)
  (st : LoopState) :
  chunks !! k = Some c ->
  spanState chunks k st -> spanState chunks (S k) (loopBody chunks k c st).
Proof.
  intros Hk [(s & Hs & Hids & Hstart) Hblocks].
  assert (Htake : take (S k - s) (drop s chunks)
                  = take (k - s) (drop s chunks) ++ [c]).
  { replace (S k - s) with (S (k - s)) by lia.
    apply take_S_r. rewrite lookup_drop.
    replace (s + (k - s)) with k by lia. exact Hk. }
  destruct (decide (trim (text c) = [])) as [Hblank|Hkept].
  { rewrite loopBody_blank by exact Hblank. split; [|exact Hblocks].
    exists s. split; [lia|]. split; [|exact Hstart].
    rewrite Htake, List.filter_app. apply kept_false in Hblank.
    simpl. rewrite Hblank, app_nil_r. exact Hids. }
  assert (Hids' : currentChunkIds st ++ [id c]
                  = map id (List.filter kept (take (S k - s) (drop s chunks)))).
  { rewrite Htake, List.filter_app, map_app, <- Hids.
    apply kept_true in Hkept. simpl. rewrite Hkept. reflexivity. }
  rewrite loopBody_kept_eq by exact Hkept.
  destruct (shouldFinalize _ _ _ _); simpl; split; simpl.
  - exists (S k). split; [lia|]. split.
    + rewrite Nat.sub_diag. reflexivity.
    + intros c0 Hc0.
      assert (Hlt : S k < length chunks) by (apply lookup_lt_Some in Hc0; exact Hc0).
      replace (k <? length chunks - 1) with true
        by (symmetry; apply Nat.ltb_lt; lia).
      rewrite Nat.add_1_r, Hc0. reflexivity.
  - apply Forall_app. split; [exact Hblocks|]. constructor; [|constructor].
    destruct (lookup_lt_is_Some_2 chunks s) as [c0 Hc0].
    { apply lookup_lt_Some in Hk. lia. }
    exists s, (S k - s), c0. simpl.
    split; [exact Hc0|]. split; [lia|]. split; [apply Hstart, Hc0|].
    split; [exact Hids'|].
    intros Hkc. rewrite Hids'.
    replace (S k - s) with (S (k - s)) by lia.
    rewrite (drop_S _ _ _ Hc0). simpl. rewrite Hkc. reflexivity.
  - exists s. split; [lia|]. split; [exact Hids' | exact Hstart].
  - exact Hblocks.
Qed.

(** X5. Every block [segmentTranscript] returns covers a run of consecutive
    chunks of the input: its chunk ids are the ids of the kept chunks of
    the run, and its start time is the start time of the first chunk of
    the run, kept or not.  When that first chunk is kept, it is the first
    chunk of the block. *)
Theorem segmentTranscript_block_runs (chunks : list TranscriptChunk) :
  Forall (fun b =>
            exists (s len : nat) (c0 : TranscriptChunk),
              chunks !! s = Some c0 /\ 1 <= len
              /\ blockStartTime b = startTime c0
              /\ chunkIds b
                 = map id (List.filter (fun c => truthy (trim (text c)))
                             (take len (drop s chunks)))
              /\ (truthy (trim (text c0)) = true
                  -> head (chunkIds b) = Some (id c0)))
    (segmentTranscript chunks).
Proof.
  change (Forall (spanBlock chunks) (segmentTranscript chunks)).
  destruct chunks as [|first rest] eqn:Hchunks; [constructor|].
  rewrite <- Hchunks.
  rewrite (segmentTranscript_cons chunks rest first Hchunks).
  destruct (final_shape chunks rest first Hchunks) as [Hshape _].
  rewrite (flushRemaining_shape _ Hshape).
  pose proof (final_state chunks rest first (spanState chunks) Hchunks) as Hfin.
  destruct Hfin as [(s & Hs & Hids & Hstart) Hblocks].
  - split; [|constructor]. exists 0. split; [lia|]. split; [reflexivity|].
    intros c0 Hc0. rewrite Hchunks in Hc0. simpl in Hc0.
    injection Hc0 as <-. reflexivity.
  - intros k c s. apply span_step.
  - apply Forall_app. split; [exact Hblocks|].
    destruct Hshape as [[Ht _]|(Hink & _ & Hne)].
    { rewrite Ht. constructor. }
    apply truthy_hasInk in Hink.
    destruct (currentText _) as [|u r] eqn:Hcur; [discriminate Hink|].
    constructor; [|constructor].
    assert (Hlt : s < length chunks).
    { destruct (decide (s < length chunks)) as [H|H]; [exact H|].
      exfalso. apply Hne. rewrite Hids.
      replace (length chunks - s) with 0 by lia. reflexivity. }
    destruct (lookup_lt_is_Some_2 chunks s Hlt) as [c0 Hc0].
    exists s, (length chunks - s), c0. simpl.
    split; [exact Hc0|]. split; [lia|]. split; [apply Hstart, Hc0|].
    split; [exact Hids|].
    intros Hkc. rewrite Hids.
    replace (length chunks - s) with (S (length chunks - s - 1)) by lia.
    rewrite (drop_S _ _ _ Hc0). simpl. rewrite Hkc. reflexivity.
Qed.

(** ** Groups of a fixed number of chunks *)

Lemma chunkCountLoop_groups (chunks : list TranscriptChunk) (k : nat) :
  1 <= k ->
  forall fuel j out,
    length chunks - j * k < fuel ->
    exists bs,
      chunkCountLoop fuel chunks k (j * k) out = Some (out ++ bs)
      /\ Forall (groupBlock chunks k) bs
      /\ (Forall (fun c => trim (text c) <> []) chunks ->
          concat (map chunkIds bs) = map id (drop (j * k) chunks)).
Proof.
  intros Hk fuel. induction fuel as [|fuel IH]; intros j out Hfuel; [lia|].
  simpl. destruct (j * k <? length chunks) eqn:Hi.
  2:{ apply Nat.ltb_ge in Hi. exists []. rewrite app_nil_r.
      split; [reflexivity|]. split; [constructor|].
      intros _. rewrite drop_ge by exact Hi. reflexivity. }
  apply Nat.ltb_lt in Hi.
  destruct (lookup_lt_is_Some_2 chunks (j * k) Hi) as [c0 Hc0].
  assert (Hslice : slice chunks (j * k) (j * k + k)
                   = c0 :: take (k - 1) (drop (S (j * k)) chunks)).
  { unfold slice. replace (j * k + k - j * k) with (S (k - 1)) by lia.
    rewrite (drop_S _ _ _ Hc0). reflexivity. }
  assert (Hgroup : slice chunks (j * k) (j * k + k) = take k (drop (j * k) chunks)).
  { unfold slice. f_equal. lia. }
  replace (j * k + k) with (S j * k) in * by lia.
  rewrite Hslice.
  set (g := take (k - 1) (drop (S (j * k)) chunks)) in *.
  set (t := join (js " ") (List.map (fun c => trim (text c)) (c0 :: g))).
  set (b := {| blockText := trim t; blockStartTime := startTime c0;
               chunkIds := List.map id (c0 :: g) |}).
  assert (Hb : groupBlock chunks k b).
  { exists j, c0. subst b. cbn [blockStartTime chunkIds].
    split; [exact Hc0|]. split; [reflexivity|]. split; [reflexivity|].
    rewrite <- Hgroup, Hslice. reflexivity. }
  assert (Hsplit : map id (c0 :: g) ++ map id (drop (S j * k) chunks)
                   = map id (drop (j * k) chunks)).
  { rewrite <- map_app. f_equal. rewrite <- Hslice, Hgroup.
    rewrite <- (take_drop k (drop (j * k) chunks)) at 2.
    rewrite drop_drop. f_equal. f_equal. lia. }
  destruct (truthy (trim t)) eqn:Ht.
  - destruct (IH (S j) (out ++ [b]) ltac:(lia)) as (bs & Hrun & Hall & Hcat).
    exists (b :: bs). rewrite Hrun, <- app_assoc.
    split; [reflexivity|]. split; [constructor; assumption|].
    intros Hnb. simpl. rewrite (Hcat Hnb). exact Hsplit.
  - destruct (IH (S j) out ltac:(lia)) as (bs & Hrun & Hall & Hcat).
    exists bs. split; [exact Hrun|]. split; [exact Hall|].
    intros Hnb. exfalso.
    assert (Hc0' : trim (text c0) <> []).
    { rewrite Forall_forall in Hnb. apply Hnb.
      apply (list_elem_of_lookup_2 _ _ _ Hc0). }
    rewrite truthy_trim in Ht. subst t. cbn [List.map] in Ht.
    rewrite hasInk_join_head in Ht; [discriminate Ht|].
    apply trim_ink, Hc0'.
Qed.

(** X6. With [chunksPerBlock >= 1], [segmentByChunkCount] returns blocks
    that are groups of the input: a block holds the ids of the chunks at
    positions [j * chunksPerBlock] to [(j + 1) * chunksPerBlock - 1] for
    some [j] and starts where the first chunk of its group starts, blank or
    not.  When no chunk is blank, the ids of the blocks, read in order, are
    the ids of the input: no chunk is lost or repeated. *)
Theorem segmentByChunkCount_groups (chunks : list TranscriptChunk) (k : nat) :
  1 <= k ->
  exists bs,
    segmentByChunkCount chunks k = Some bs
    /\ Forall (fun b =>
                 exists (j : nat) (c0 : TranscriptChunk),
                   chunks !! (j * k) = Some c0
                   /\ blockStartTime b = startTime c0
                   /\ head (chunkIds b) = Some (id c0)
                   /\ chunkIds b = map id (take k (drop (j * k) chunks))) bs
    /\ (Forall (fun c => trim (text c) <> []) chunks ->
        concat (map chunkIds bs) = map id chunks).
Proof.
  intros Hk. destruct chunks as [|c r] eqn:Hchunks.
  { exists []. split; [reflexivity|]. split; [constructor | reflexivity]. }
  rewrite <- Hchunks. unfold segmentByChunkCount.
  destruct (chunkCountLoop_groups chunks k Hk (S (length chunks)) 0 [] ltac:(simpl; lia))
    as (bs & Hrun & Hall & Hcat).
  exists bs. rewrite Hchunks at 1. split; [exact Hrun|].
  split; [exact Hall | exact Hcat].
Qed.

(** The theorem on the groups on seven chunks, three to a block. *)
Lemma segmentByChunkCount_groups_witness :
  exists bs,
    segmentByChunkCount sevenChunks 3 = Some bs
    /\ Forall (fun b =>
                 exists (j : nat) (c0 : TranscriptChunk),
                   sevenChunks !! (j * 3) = Some c0
                   /\ blockStartTime b = startTime c0
                   /\ head (chunkIds b) = Some (id c0)
                   /\ chunkIds b = map id (take 3 (drop (j * 3) sevenChunks))) bs
    /\ (Forall (fun c => trim (text c) <> []) sevenChunks ->
        concat (map chunkIds bs) = map id sevenChunks).
Proof. apply (segmentByChunkCount_groups sevenChunks 3). lia. Defined.

(** X7. With [chunksPerBlock = 0] the loop of [segmentByChunkCount] never
    ends on a transcript that is not empty: the index stays at 0, and
    whatever the number of iterations allowed, the loop has not returned. *)
Theorem segmentByChunkCount_zero_never_ends (chunks : list TranscriptChunk)
  (fuel : nat) (out : list SegmentedBlock) :
  chunks <> [] ->
  chunkCountLoop fuel chunks 0 0 out = None
  /\ segmentByChunkCount chunks 0 = None.
Proof.
  intros Hne.
  assert (Hloop : forall f o, chunkCountLoop f chunks 0 0 o = None).
  { induction f as [|f IH]; intros o; [reflexivity|]. simpl.
    destruct chunks as [|c r]; [contradiction|]. simpl.
    apply IH. }
  split; [apply Hloop|]. unfold segmentByChunkCount.
  destruct chunks; [contradiction | apply Hloop].
Qed.

(** The theorem on a block size of 0 on three chunks, with a thousand
    iterations allowed. *)
Lemma segmentByChunkCount_zero_never_ends_witness :
  chunkCountLoop 1000 helloBye 0 0 [] = None
  /\ segmentByChunkCount helloBye 0 = None.
Proof.
  apply (segmentByChunkCount_zero_never_ends helloBye 1000 []). discriminate.
Defined.

(** ** Blocks that overlap *)

Lemma sliceZ_window {A} (l : list A) (i k : nat) :
  i < length l ->
  sliceZ l (Z.of_nat i) (Z.of_nat i + Z.of_nat k) = take k (drop i l).
Proof.
  intros Hi. unfold sliceZ.
  replace (Z.of_nat i <? 0)%Z with false by (symmetry; apply Z.ltb_ge; lia).
  replace (Z.of_nat i + Z.of_nat k <? 0)%Z with false
    by (symmetry; apply Z.ltb_ge; lia).
  rewrite (Z.min_l (Z.of_nat i)) by lia. rewrite Nat2Z.id.
  destruct (decide (i + k <= length l)) as [Hle|Hgt].
  - rewrite Z.min_l by lia. f_equal. lia.
  - rewrite Z.min_r by lia.
    replace (Z.to_nat (Z.of_nat (length l) - Z.of_nat i)) with (length (drop i l))
      by (rewrite length_drop; lia).
    rewrite firstn_all. symmetry. apply take_ge. rewrite length_drop. lia.
Qed.

Lemma overlapLoop_spec (chunks : list TranscriptChunk) (s o : nat) :
  1 <= s ->
  forall fuel i out,
    i < length chunks ->
    length chunks - i <= fuel ->
    exists bs,
      overlapLoop fuel chunks (Z.of_nat (s + o)) (Z.of_nat s) (Z.of_nat i) out
      = Some (out ++ bs)
      /\ Forall (fun b => 1 <= length (chunkIds b) <= s + o) bs
      /\ (Forall (fun c => trim (text c) <> []) chunks ->
          (exists b0 rest,
              bs = b0 :: rest
              /\ chunkIds b0 = map id (take (s + o) (drop i chunks)))
          /\ overlapChain (s + o) s o bs
          /\ coveredFrom chunks i bs).
Proof.
  intros Hs fuel. induction fuel as [|fuel IH]; intros i out Hi Hfuel; [lia|].
  cbn [overlapLoop].
  replace (Z.of_nat i <? Z.of_nat (length chunks))%Z with true
    by (symmetry; apply Z.ltb_lt; lia).
  rewrite sliceZ_window by exact Hi.
  destruct (lookup_lt_is_Some_2 chunks i Hi) as [c0 Hc0].
  assert (Hw : take (s + o) (drop i chunks)
               = c0 :: take (s + o - 1) (drop (S i) chunks)).
  { replace (s + o) with (S (s + o - 1)) at 1 by lia.
    rewrite (drop_S _ _ _ Hc0). reflexivity. }
  assert (Hwlen : length (take (s + o) (drop i chunks))
                  = Nat.min (s + o) (length chunks - i)).
  { rewrite length_take, length_drop. reflexivity. }
  set (w := take (s + o) (drop i chunks)) in *.
  rewrite Hw. rewrite <- Hw.
  set (t := join (js " ") (List.map (fun c => trim (text c)) w)).
  set (b := {| blockText := trim t; blockStartTime := startTime c0;
               chunkIds := List.map id w |}).
  assert (Hsize : 1 <= length (chunkIds b) <= s + o).
  { subst b. cbn [chunkIds]. rewrite length_map. lia. }
  assert (Hnb : Forall (fun c => trim (text c) <> []) chunks ->
                truthy (trim t) = true).
  { intros Hall.
    assert (Hc0' : trim (text c0) <> []).
    { rewrite Forall_forall in Hall. apply Hall.
      apply (list_elem_of_lookup_2 _ _ _ Hc0). }
    rewrite truthy_trim. subst t. rewrite Hw. cbn [List.map].
    apply hasInk_join_head, trim_ink, Hc0'. }
  assert (Hcover : forall p c, i <= p -> p < i + (s + o) ->
                     chunks !! p = Some c -> id c ∈ chunkIds b).
  { intros p c Hp Hp' Hc. subst b. cbn [chunkIds].
    apply list_elem_of_fmap. exists c. split; [reflexivity|].
    apply (list_elem_of_lookup_2 _ (p - i)). subst w.
    rewrite lookup_take_lt by lia. rewrite lookup_drop.
    replace (i + (p - i)) with p by lia. exact Hc. }
  destruct (Z.of_nat (length chunks) <=? Z.of_nat i + Z.of_nat (s + o))%Z eqn:Hend.
  - apply Z.leb_le in Hend.
    destruct (truthy (trim t)) eqn:Ht.
    + exists [b]. split; [reflexivity|]. split; [constructor; [exact Hsize|constructor]|].
      intros Hall. split; [exists b, []; split; reflexivity|]. split.
      * intros j b1 b2 _ H2. destruct j; discriminate H2.
      * intros p c Hp Hc. exists b. split; [left|].
        apply (Hcover p c Hp); [|exact Hc]. apply lookup_lt_Some in Hc. lia.
    + exists []. rewrite app_nil_r. split; [reflexivity|]. split; [constructor|].
      intros Hall. discriminate (Hnb Hall).
  - apply Z.leb_gt in Hend.
    replace (Z.of_nat i + Z.of_nat s)%Z with (Z.of_nat (i + s)) by lia.
    destruct (truthy (trim t)) eqn:Ht.
    + destruct (IH (i + s) (out ++ [b]) ltac:(lia) ltac:(lia))
        as (bs & Hrun & Hall & Hrest).
      exists (b :: bs). rewrite Hrun, <- app_assoc.
      split; [reflexivity|]. split; [constructor; assumption|].
      intros Hnbl. destruct (Hrest Hnbl) as ((b1 & rest & Hbs & Hb1) & Hchain & Hcov).
      split; [exists b, bs; split; reflexivity|]. split.
      * intros j x y Hx Hy. destruct j as [|j].
        -- injection Hx as <-. rewrite Hbs in Hy. injection Hy as <-.
           split.
           ++ subst b. cbn [chunkIds]. rewrite length_map. lia.
           ++ rewrite Hb1. subst b w. cbn [chunkIds].
              rewrite skipn_map, firstn_map. f_equal.
              rewrite take_take, Nat.min_l by lia.
              rewrite <- drop_drop.
              rewrite (take_drop_commute (drop i chunks) o s).
              reflexivity.
        -- apply (Hchain j x y); assumption.
      * intros p c Hp Hc.
        destruct (decide (p < i + (s + o))) as [Hin|Hout].
        -- exists b. split; [left | apply (Hcover p c Hp Hin Hc)].
        -- destruct (Hcov p c ltac:(lia) Hc) as (x & Hx & Hid).
           exists x. split; [right; exact Hx | exact Hid].
    + destruct (IH (i + s) out ltac:(lia) ltac:(lia)) as (bs & Hrun & Hall & Hrest).
      exists bs. split; [exact Hrun|]. split; [exact Hall|].
      intros Hnbl. discriminate (Hnb Hnbl).
Qed.

Lemma segmentWithOverlap_nonempty (fuel : nat) (chunks : list TranscriptChunk)
  (k o : Z) :
  chunks <> [] ->
  segmentWithOverlap fuel chunks k o = overlapLoop fuel chunks k (k - o) 0 [].
Proof. intros Hne. destruct chunks; [contradiction | reflexivity]. Qed.

Lemma segmentWithOverlap_spec (chunks : list TranscriptChunk) (k o fuel : nat) :
  o < k -> length chunks <= fuel ->
  exists bs,
    segmentWithOverlap fuel chunks (Z.of_nat k) (Z.of_nat o) = Some bs
    /\ Forall (fun b => 1 <= length (chunkIds b) <= k) bs
    /\ (Forall (fun c => trim (text c) <> []) chunks ->
        overlapChain k (k - o) o bs /\ coveredFrom chunks 0 bs).
Proof.
  intros Ho Hfuel. destruct chunks as [|c r] eqn:Hchunks.
  { exists []. split; [reflexivity|]. split; [constructor|]. intros _. split.
    - intros j b b' Hb. destruct j; discriminate Hb.
    - intros p c _ Hc. destruct p; discriminate Hc. }
  rewrite <- Hchunks in *.
  destruct (overlapLoop_spec chunks (k - o) o ltac:(lia) fuel 0 [])
    as (bs & Hrun & Hall & Hrest).
  { rewrite Hchunks. simpl. lia. }
  { lia. }
  replace (k - o + o) with k in * by lia.
  exists bs. split.
  - rewrite segmentWithOverlap_nonempty by (rewrite Hchunks; discriminate).
    replace (Z.of_nat k - Z.of_nat o)%Z with (Z.of_nat (k - o)) by lia.
    exact Hrun.
  - split; [exact Hall|]. intros Hnb.
    destruct (Hrest Hnb) as (_ & Hchain & Hcov). split; assumption.
Qed.

(** X8. With [0 <= overlapChunks < chunksPerBlock], [segmentWithOverlap]
    ends, within one iteration per chunk.  Every block holds at least one
    and at most [chunksPerBlock] chunk ids, and when no chunk is blank
    every chunk of the input is in some block. *)
Theorem segmentWithOverlap_covers (chunks : list TranscriptChunk)
  (chunksPerBlock overlapChunks fuel : nat) :
  overlapChunks < chunksPerBlock -> length chunks <= fuel ->
  exists bs,
    segmentWithOverlap fuel chunks (Z.of_nat chunksPerBlock)
      (Z.of_nat overlapChunks) = Some bs
    /\ Forall (fun b => 1 <= length (chunkIds b) <= chunksPerBlock) bs
    /\ (Forall (fun c => trim (text c) <> []) chunks ->
        forall c, c ∈ chunks -> exists b, b ∈ bs /\ id c ∈ chunkIds b).
Proof.
  intros Ho Hfuel.
  destruct (segmentWithOverlap_spec chunks chunksPerBlock overlapChunks fuel
              Ho Hfuel) as (bs & Hrun & Hall & Hrest).
  exists bs. split; [exact Hrun|]. split; [exact Hall|].
  intros Hnb c Hc. destruct (Hrest Hnb) as [_ Hcov].
  apply list_elem_of_lookup_1 in Hc. destruct Hc as [p Hp].
  apply (Hcov p c); [lia | exact Hp].
Qed.

(** The theorem on the cover on seven chunks, six to a block with an
    overlap of two. *)
Lemma segmentWithOverlap_covers_witness :
  exists bs,
    segmentWithOverlap 7 sevenChunks (Z.of_nat 6) (Z.of_nat 2) = Some bs
    /\ Forall (fun b => 1 <= length (chunkIds b) <= 6) bs
    /\ (Forall (fun c => trim (text c) <> []) sevenChunks ->
        forall c, c ∈ sevenChunks -> exists b, b ∈ bs /\ id c ∈ chunkIds b).
Proof.
  apply (segmentWithOverlap_covers sevenChunks 6 2 7); [lia | simpl; lia].
Defined.

(** X9. With [0 <= overlapChunks < chunksPerBlock] and no blank chunk, two
    blocks of [segmentWithOverlap] that follow each other overlap by
    exactly [overlapChunks] chunks: the first of the two holds
    [chunksPerBlock] ids, and its ids after the first
    [chunksPerBlock - overlapChunks] are the first [overlapChunks] ids of
    the second. *)
Theorem segmentWithOverlap_overlaps (chunks : list TranscriptChunk)
  (chunksPerBlock overlapChunks fuel : nat) (bs : list SegmentedBlock)
  (j : nat) (b b' : SegmentedBlock) :
  overlapChunks < chunksPerBlock -> length chunks <= fuel ->
  Forall (fun c => trim (text c) <> []) chunks ->
  segmentWithOverlap fuel chunks (Z.of_nat chunksPerBlock)
    (Z.of_nat overlapChunks) = Some bs ->
  bs !! j = Some b -> bs !! (S j) = Some b' ->
  length (chunkIds b) = chunksPerBlock
  /\ drop (chunksPerBlock - overlapChunks) (chunkIds b)
     = take overlapChunks (chunkIds b').
Proof.
  intros Ho Hfuel Hnb Hrun Hb Hb'.
  destruct (segmentWithOverlap_spec chunks chunksPerBlock overlapChunks fuel
              Ho Hfuel) as (bs0 & Hrun0 & _ & Hrest).
  rewrite Hrun in Hrun0. injection Hrun0 as <-.
  destruct (Hrest Hnb) as [Hchain _].
  apply (Hchain j b b' Hb Hb').
Qed.

(** The theorem on the overlap on seven chunks, six to a block with an
    overlap of two: the block of chunks 0 to 5 and the block of chunks 4
    to 6 share chunks 4 and 5. *)
Lemma segmentWithOverlap_overlaps_witness :
  exists b b',
    segmentWithOverlap 7 sevenChunks (Z.of_nat 6) (Z.of_nat 2) = Some [b; b']
    /\ length (chunkIds b) = 6
    /\ drop (6 - 2) (chunkIds b) = take 2 (chunkIds b').
Proof.
  eexists _, _. split; [vm_compute; reflexivity|].
  eapply (segmentWithOverlap_overlaps sevenChunks 6 2 7 _ 0).
  - lia.
  - simpl. lia.
  - repeat constructor; discriminate.
  - vm_compute. reflexivity.
  - reflexivity.
  - reflexivity.
Defined.

(** X10. With [overlapChunks = chunksPerBlock >= 1] the step of the loop is
    0, and on a transcript longer than one block [segmentWithOverlap]
    never ends: whatever the number of iterations allowed, the loop has
    not returned. *)
Theorem segmentWithOverlap_step_zero_never_ends (chunks : list TranscriptChunk)
  (chunksPerBlock fuel : nat) :
  1 <= chunksPerBlock -> chunksPerBlock < length chunks ->
  segmentWithOverlap fuel chunks (Z.of_nat chunksPerBlock)
    (Z.of_nat chunksPerBlock) = None.
Proof.
  intros Hk Hlen.
  assert (Hloop : forall f out,
             overlapLoop f chunks (Z.of_nat chunksPerBlock) 0 0 out = None).
  { induction f as [|f IH]; intros out; [reflexivity|].
    cbn [overlapLoop].
    replace (0 <? Z.of_nat (length chunks))%Z with true
      by (symmetry; apply Z.ltb_lt; lia).
    change 0%Z with (Z.of_nat 0) at 1 2.
    rewrite sliceZ_window by lia.
    destruct chunks as [|c r] eqn:Hchunks; [simpl in Hlen; lia|].
    rewrite <- Hchunks in *.
    assert (Hw : take chunksPerBlock (drop 0 chunks)
                 = c :: take (chunksPerBlock - 1) r).
    { rewrite Hchunks. replace chunksPerBlock with (S (chunksPerBlock - 1)) at 1 by lia.
      reflexivity. }
    rewrite Hw.
    replace (Z.of_nat (length chunks) <=? 0 + Z.of_nat chunksPerBlock)%Z
      with false by (symmetry; apply Z.leb_gt; lia).
    apply IH. }
  rewrite segmentWithOverlap_nonempty, Z.sub_diag; [apply Hloop|].
  intros ->. simpl in Hlen. lia.
Qed.

(** The theorem on a step of 0 on seven chunks, two to a block with an
    overlap of two, with a thousand iterations allowed. *)
Lemma segmentWithOverlap_step_zero_never_ends_witness :
  segmentWithOverlap 1000 sevenChunks (Z.of_nat 2) (Z.of_nat 2) = None.
Proof.
  apply (segmentWithOverlap_step_zero_never_ends sevenChunks 2 1000);
    simpl; lia.
Defined.

End SegmenterContent.


(* ===================================================================== *)
(** * More on the parser: the span it reads and the errors it throws      *)
(* ===================================================================== *)

Module ParserEdges.

Import JsString.
Import Json.
Import Parser.
Import JsStringFacts.
Import ParserFacts.
Import Properties.
Import Examples.
Import SegmenterContent.

(** ** What [dropWhile] drops and keeps *)

Lemma dropWhile_split {A} (p : A -> bool) (l : list A) :
  exists pre, l = pre ++ dropWhile p l /\ Forall (fun x => p x = true) pre.
Proof.
  induction l as [|x r (pre & Hl & Hpre)]; [exists []; split; [reflexivity|constructor]|].
  simpl. destruct (p x) eqn:E.
  - exists (x :: pre). split; [simpl; f_equal; exact Hl | constructor; assumption].
  - exists []. split; [reflexivity | constructor].
Qed.

Lemma dropWhile_stop {A} (p : A -> bool) (a : list A) (x : A) (b : list A) :
  p x = false -> exists u, dropWhile p (a ++ x :: b) = u ++ x :: b.
Proof.
  intros Hx. induction a as [|y a' (u & IH)]; simpl.
  - rewrite Hx. exists []. reflexivity.
  - destruct (p y); [exists u; exact IH | exists (y :: a'); reflexivity].
Qed.

Lemma trim_inside (s : jsstring) : exists a b, s = a ++ trim s ++ b.
Proof.
  unfold trim, trimStart, trimEnd.
  destruct (dropWhile_split isWhiteSpace s) as (a & Ha & _).
  destruct (dropWhile_split isWhiteSpace (rev (dropWhile isWhiteSpace s)))
    as (b & Hb & _).
  exists a, (rev b). rewrite Ha at 1. f_equal.
  apply (f_equal (@rev _)) in Hb. rewrite rev_involutive, rev_app_distr in Hb.
  exact Hb.
Qed.

Lemma isPrefix_spec (p s : jsstring) :
  isPrefix p s = true -> exists post, s = p ++ post.
Proof.
  revert s. induction p as [|a p IH]; intros s Hp; [exists s; reflexivity|].
  destruct s as [|b s]; [discriminate Hp|]. simpl in Hp.
  apply andb_true_iff in Hp. destruct Hp as [Hab Hp].
  apply N.eqb_eq in Hab. subst b.
  destruct (IH s Hp) as [post ->]. exists post. reflexivity.
Qed.

Lemma includes_spec (hay needle : jsstring) :
  includes hay needle = true -> exists pre post, hay = pre ++ needle ++ post.
Proof.
  induction hay as [|c r IH]; simpl; intros Hi.
  - rewrite orb_false_r in Hi. apply isPrefix_spec in Hi.
    destruct Hi as [post Hp]. exists [], post. exact Hp.
  - apply orb_true_iff in Hi. destruct Hi as [Hp|Hr].
    + apply isPrefix_spec in Hp. destruct Hp as [post Hp].
      exists [], post. exact Hp.
    + destruct (IH Hr) as (pre & post & ->). exists (c :: pre), post. reflexivity.
Qed.

(** ** The span between the brackets *)

Lemma jsonMatch_found (text pre mid post : jsstring) :
  text = pre ++ 91%N :: mid ++ 93%N :: post -> jsonMatch text <> None.
Proof.
  intros ->. unfold jsonMatch.
  destruct (dropWhile_stop (fun c => negb (c =? 91)%N) pre 91%N
              (mid ++ 93%N :: post) eq_refl) as [u Hu].
  rewrite Hu.
  assert (Hrest : exists open u', u ++ 91%N :: mid ++ 93%N :: post
                                  = open :: u' ++ 93%N :: post).
  { destruct u as [|o u''].
    - exists 91%N, mid. reflexivity.
    - exists o, (u'' ++ 91%N :: mid). simpl. rewrite <- app_assoc. reflexivity. }
  destruct Hrest as (open & u' & ->).
  rewrite rev_app_distr. simpl rev. rewrite <- app_assoc. simpl app.
  destruct (dropWhile_stop (fun c => negb (c =? 93)%N) (rev post) 93%N
              (rev u') eq_refl) as [v Hv].
  rewrite Hv, rev_app_distr. simpl.
  destruct ((rev (rev u') ++ [93%N]) ++ rev v) eqn:E; [|discriminate].
  apply app_eq_nil in E. destruct E as [E _].
  apply app_eq_nil in E. destruct E as [_ E]. discriminate E.
Qed.

Lemma jsonMatch_Some (text span : jsstring) :
  jsonMatch text = Some span ->
  exists pre body post,
    text = pre ++ span ++ post
    /\ span = 91%N :: body ++ [93%N]
    /\ ~ In 91%N pre /\ ~ In 93%N post.
Proof.
  unfold jsonMatch. intros Hm.
  destruct (dropWhile_split (fun c => negb (c =? 91)%N) text) as (pre & Htext & Hpre).
  pose proof (dropWhile_head (fun c => negb (c =? 91)%N) text) as Hopen.
  destruct (dropWhile _ text) as [|open rest]; [discriminate Hm|].
  apply negb_false_iff, N.eqb_eq in Hopen. subst open.
  destruct (dropWhile_split (fun c => negb (c =? 93)%N) (rev rest))
    as (post & Hrest & Hpost).
  pose proof (dropWhile_head (fun c => negb (c =? 93)%N) (rev rest)) as Hclose.
  destruct (dropWhile _ (rev rest)) as [|close d]; [discriminate Hm|].
  apply negb_false_iff, N.eqb_eq in Hclose. subst close.
  assert (Hspan : span = 91%N :: rev d ++ [93%N]).
  { simpl in Hm. destruct (rev d ++ [93%N]) eqn:E.
    - apply app_eq_nil in E. destruct E as [_ E]. discriminate E.
    - injection Hm as <-. reflexivity. }
  apply (f_equal (@rev _)) in Hrest.
  rewrite rev_involutive, rev_app_distr in Hrest. simpl in Hrest.
  exists pre, (rev d), (rev post). split; [|split; [exact Hspan|split]].
  - rewrite Htext, Hspan, Hrest. simpl. rewrite <- !app_assoc. reflexivity.
  - intros Hin. rewrite List.Forall_forall in Hpre. apply Hpre in Hin.
    discriminate Hin.
  - intros Hin. apply in_rev in Hin.
    rewrite List.Forall_forall in Hpost. apply Hpost in Hin. discriminate Hin.
Qed.

(** X11. The span [parseJsonResponse] hands to [JSON.parse] runs from the
    first opening bracket of the response to the last closing bracket
    after it: the response is [pre ++ span ++ post] with no opening
    bracket in [pre] and no closing bracket in [post].  There is no span
    exactly when no opening bracket of the response is followed by a
    closing one. *)
Theorem jsonMatch_first_to_last (text : jsstring) :
  match jsonMatch text with
  | Some span =>
      exists pre body post,
        text = pre ++ span ++ post
        /\ span = 91%N :: body ++ [93%N]
        /\ ~ In 91%N pre /\ ~ In 93%N post
  | None =>
      forall pre mid post, text <> pre ++ 91%N :: mid ++ 93%N :: post
  end.
Proof.
  destruct (jsonMatch text) as [span|] eqn:Hm.
  - apply jsonMatch_Some, Hm.
  - intros pre mid post Habs. apply (jsonMatch_found _ _ _ _ Habs), Hm.
Qed.

(** ** A response without an array *)

Lemma lowerUnit_bracket (c b : N) :
  b = 91%N \/ b = 93%N -> lowerUnit c = b -> c = b.
Proof.
  intros Hb. unfold lowerUnit.
  destruct ((65 <=? c) && (c <=? 90))%N eqn:E.
  - apply andb_true_iff in E. destruct E as [E1 E2].
    apply N.leb_le in E1, E2. lia.
  - destruct (c =? 8490)%N eqn:E'; [lia | intros H; exact H].
Qed.

Lemma toLowerCase_brackets (text pre post : jsstring) :
  toLowerCase text = pre ++ [91%N; 93%N] ++ post ->
  exists pre' post', text = pre' ++ 91%N :: [] ++ 93%N :: post'.
Proof.
  unfold toLowerCase. intros Hm.
  apply List.map_eq_app in Hm. destruct Hm as (pre' & r & -> & _ & Hr).
  destruct r as [|a r]; [discriminate Hr|].
  destruct r as [|b r]; [discriminate Hr|].
  simpl in Hr. injection Hr as Ha Hb _.
  apply (lowerUnit_bracket _ 91%N) in Ha; [|left; reflexivity].
  apply (lowerUnit_bracket _ 93%N) in Hb; [|right; reflexivity].
  subst a b. exists pre', r. reflexivity.
Qed.

Lemma no_empty_array (text : jsstring) :
  jsonMatch text = None ->
  includes (toLowerCase text) (js "[]") = false
  /\ eqb (trim text) (js "[]") = false.
Proof.
  intros Hm. split.
  - destruct (includes _ _) eqn:E; [exfalso | reflexivity].
    apply includes_spec in E. destruct E as (pre & post & E).
    apply toLowerCase_brackets in E. destruct E as (pre' & post' & E).
    apply (jsonMatch_found _ _ _ _ E), Hm.
  - destruct (eqb _ _) eqn:E; [exfalso | reflexivity].
    apply eqb_true in E. destruct (trim_inside text) as (a & b & Ht).
    rewrite E in Ht.
    apply (jsonMatch_found text a [] b); [|exact Hm]. exact Ht.
Qed.

(** X12. On a response in which no opening bracket is followed by a closing
    one, [parseJsonResponse] returns the empty list when the response,
    in lower case, contains "no prediction", and throws "No JSON array
    found in response" otherwise: the two tests for an empty array in that
    branch never decide. *)
Theorem parseJsonResponse_without_array `{Engine} (text : jsstring) :
  jsonMatch text = None ->
  parseJsonResponse text
  = if includes (toLowerCase text) (js "no prediction")
    then Ok []
    else Raise (JsError (js "No JSON array found in response")).
Proof.
  intros Hm. unfold parseJsonResponse. rewrite Hm.
  destruct (no_empty_array text Hm) as [-> ->].
  rewrite !orb_false_r. reflexivity.
Qed.

(** The theorem on a response without an array, on one that says so in
    capitals. *)
Lemma parseJsonResponse_without_array_witness :
  jsonMatch (js "There are No Predictions here.") = None
  /\ @parseJsonResponse exampleEngine (js "There are No Predictions here.") = Ok [].
Proof.
  split; [reflexivity|].
  apply (@parseJsonResponse_without_array exampleEngine). reflexivity.
Defined.

(** X13. Whatever [parseJsonResponse] throws is an [Error] whose message is
    "No JSON array found in response" or starts with "Failed to parse
    JSON: "; the message is never empty. *)
Theorem parseJsonResponse_error_message `{Engine} (text : jsstring) (e : Thrown) :
  parseJsonResponse text = Raise e ->
  exists m,
    e = JsError m /\ m <> []
    /\ (m = js "No JSON array found in response"
        \/ exists detail, m = js "Failed to parse JSON: " ++ detail).
Proof.
  unfold parseJsonResponse. intros Hp.
  destruct (jsonMatch text) as [span|].
  - destruct (parseMatched span) as [ps|err]; [discriminate Hp|].
    injection Hp as <-. eexists. split; [reflexivity|].
    split; [discriminate|]. right. eexists. reflexivity.
  - destruct (_ || _); [discriminate Hp|]. injection Hp as <-.
    eexists. split; [reflexivity|]. split; [discriminate|]. left. reflexivity.
Qed.

(** The theorem on the messages, on a response without an array and
    without the phrase. *)
Lemma parseJsonResponse_error_message_witness :
  @parseJsonResponse exampleEngine (js "Sorry, nothing.")
  = Raise (JsError (js "No JSON array found in response"))
  /\ exists m,
       JsError (js "No JSON array found in response") = JsError m /\ m <> []
       /\ (m = js "No JSON array found in response"
           \/ exists detail, m = js "Failed to parse JSON: " ++ detail).
Proof.
  split; [reflexivity|].
  apply (@parseJsonResponse_error_message exampleEngine (js "Sorry, nothing.")).
  reflexivity.
Defined.

(** ** Elements that are not records *)

Lemma normalizePrediction_propertyless `{Engine} (v : value) :
  propertyless v ->
  normalizePrediction v = Ok (mkPrediction [] None None Medium Direction).
Proof. destruct v; simpl; intros Hv; try contradiction; reflexivity. Qed.

Lemma rmap_propertyless `{Engine} (items : list value) :
  Forall propertyless items ->
  rmap normalizePrediction items
  = Ok (List.map (fun _ => mkPrediction [] None None Medium Direction) items).
Proof.
  induction 1 as [|v r Hv _ IH]; [reflexivity|].
  simpl. rewrite (normalizePrediction_propertyless v Hv). simpl.
  rewrite IH. reflexivity.
Qed.

(** X14. Elements of the parsed array that are not records are not
    rejected one by one.  A number, a string, a boolean or an array
    normalizes to a prediction with an empty claim, which is dropped: an
    array of such elements yields the empty list.  A [null] after such
    elements makes the whole response fail, with the message of the
    [TypeError] of reading [claim] of [null]. *)
Theorem parseJsonResponse_non_records `{Engine}
  (text span : jsstring) (items rest : list value) :
  jsonMatch text = Some span ->
  Forall (fun v => match v with
                   | JNull | JObject _ => False
                   | _ => True
                   end) items ->
  (JSON_parse span = Some (JArray items) -> parseJsonResponse text = Ok [])
  /\ (JSON_parse span = Some (JArray (items ++ JNull :: rest)) ->
      parseJsonResponse text
      = Raise (JsError (js "Failed to parse JSON: "
                        ++ nullPropertyMessage (js "claim")))).
Proof.
  intros Hm Hitems. unfold parseJsonResponse, parseMatched. rewrite Hm.
  split; intros ->.
  - rewrite (rmap_propertyless items Hitems). simpl.
    replace (List.filter hasClaim _) with (@nil ExtractedPrediction);
      [reflexivity|].
    clear. induction items as [|v r IH]; [reflexivity | exact IH].
  - assert (Hr : rmap normalizePrediction (items ++ JNull :: rest)
                 = Raise (JsError (nullPropertyMessage (js "claim")))).
    { clear Hm. induction Hitems as [|v r Hv _ IH]; [reflexivity|].
      simpl. rewrite (normalizePrediction_propertyless v Hv). simpl.
      rewrite IH. reflexivity. }
    rewrite Hr. reflexivity.
Qed.

(** The theorem on elements that are not records, on an array of a
    number, a string, a boolean and an array. *)
Lemma parseJsonResponse_non_records_witness :
  jsonMatch (jsq "Here: [1, 'x', true, [2]]") = Some (jsq "[1, 'x', true, [2]]")
  /\ JSON_parse (jsq "[1, 'x', true, [2]]")
     = Some (JArray [JNumber (js "1"); JString (js "x"); JBool true;
                     JArray [JNumber (js "2")]])
  /\ @parseJsonResponse exampleEngine (jsq "Here: [1, 'x', true, [2]]") = Ok [].
Proof.
  split; [reflexivity|]. split; [vm_compute; reflexivity|].
  apply (@parseJsonResponse_non_records exampleEngine
           (jsq "Here: [1, 'x', true, [2]]") (jsq "[1, 'x', true, [2]]")
           [JNumber (js "1"); JString (js "x"); JBool true;
            JArray [JNumber (js "2")]] []).
  - reflexivity.
  - repeat constructor.
  - vm_compute. reflexivity.
Defined.

End ParserEdges.


(* ===================================================================== *)
(** * More on the extractor: pacing, first success, what is stored        *)
(* ===================================================================== *)

Module ExtractorAccounts.

Import Effects.
Import Extractor.
Import Properties.
Import Examples.
Import EffectsFacts.
Import ExtractorFacts.

(** X15. After [enforceRateLimit] the clock stands at the later of now and
    one second after the last request, and that instant is the new last
    request: two requests are at least 1000 ms apart, and the wait is no
    longer than that takes. *)
Theorem enforceRateLimit_spacing (w : World) :
  exists w',
    enforceRateLimit w = (Ok tt, w')
    /\ clock w' = Z.max (clock w) (lastRequestTime w + 1000)
    /\ lastRequestTime w' = clock w'.
Proof.
  unfold enforceRateLimit, dateNow, MIN_REQUEST_INTERVAL_MS.
  cbv [mbind ST_bind gets mret ST_ret modify sleep].
  destruct (clock w - lastRequestTime w <? 1000)%Z eqn:Hlt.
  - eexists. split; [reflexivity|]. simpl.
    apply Z.ltb_lt in Hlt. split; [lia | reflexivity].
  - eexists. split; [reflexivity|]. simpl.
    apply Z.ltb_ge in Hlt. split; [lia | reflexivity].
Qed.

(** ** Composition of what a computation preserves *)

Section Preserves.

Variable R : World -> World -> Prop.
Hypothesis R_refl : forall w, R w w.
Hypothesis R_trans : forall a b c, R a b -> R b c -> R a c.







End Preserves.








Section WithEngine.
Context `{Engine}.

(** ** The first attempt that succeeds *)

Lemma retryLoop_first_success (result : ExtractionResult)
  (block : SegmentedBlock) (a : nat) :
  forall todo attempt lastError w (failures : nat -> Thrown) t ps,
    a < todo ->
    (forall j, j < a ->
       attemptFailure (modelReply w (modelCalls w + j)) = Some (failures j)) ->
    modelReply w (modelCalls w + a) = ModelText t ->
    parseJsonResponse t = Ok ps ->
    exists w' (waits : nat -> list Event),
      retryLoop result block todo attempt lastError w
      = (Ok (withPredictionList ps result), w')
      /\ modelCalls w' = modelCalls w + S a
      /\ stable w w'
      /\ trace w'
         = trace w
           ++ concat (List.map
                        (fun j => waits j
                                  ++ [EvModelCall (promptFor block);
                                      EvSleep (backoffMs (attempt + j))])
                        (seq 0 a))
           ++ waits a ++ [EvModelCall (promptFor block)]
      /\ (forall j, waits j = [] \/ exists d, waits j = [EvSleep d] /\ (0 < d)%Z).
Proof.
  induction a as [|a IH];
    intros todo attempt lastError w failures t ps Hlt Hfail Ht Hps;
    (destruct todo as [|todo]; [lia|]);
    cbn [retryLoop]; rewrite bind_run;
    destruct (attempt_run block attempt w)
      as (waits0 & r & w1 & -> & Hshape & Hst & Hcalls & Hcase).
  - rewrite Nat.add_0_r in Ht. unfold attemptFailure in Hcase.
    rewrite Ht, Hps in Hcase.
    destruct Hcase as (t' & ps' & Ht' & Hps' & -> & Htr).
    injection Ht' as <-. rewrite Hps in Hps'. injection Hps' as <-.
    exists w1, (fun _ => waits0). split; [reflexivity|].
    split; [lia|]. split; [exact Hst|]. split; [|intros _; exact Hshape].
    rewrite Htr. reflexivity.
  - pose proof (Hfail 0 ltac:(lia)) as Hf0. rewrite Nat.add_0_r in Hf0.
    rewrite Hf0 in Hcase. destruct Hcase as [-> Htr].
    assert (Hm : modelReply w1 = modelReply w) by (destruct Hst as (_ & _ & Hm & _); exact Hm).
    destruct (IH todo (S attempt) (Some (failures 0)) w1
                (fun j => failures (S j)) t ps ltac:(lia))
      as (w' & waits & Hrun & Hcalls' & Hst' & Htr' & Hshape').
    { intros j Hj. rewrite Hm, Hcalls.
      replace (S (modelCalls w) + j) with (modelCalls w + S j) by lia.
      apply Hfail. lia. }
    { rewrite Hm, Hcalls.
      replace (S (modelCalls w) + a) with (modelCalls w + S a) by lia.
      exact Ht. }
    { exact Hps. }
    exists w', (fun j => match j with 0 => waits0 | S j' => waits j' end).
    split; [exact Hrun|]. split; [lia|].
    split; [eapply stable_trans; eassumption|].
    split; [|intros [|j]; [exact Hshape | apply Hshape']].
    rewrite Htr', Htr. cbn [seq List.map concat].
    rewrite <- seq_shift, List.map_map, Nat.add_0_r, <- !app_assoc.
    do 3 f_equal. f_equal. f_equal.
    apply List.map_ext. intros j.
    replace (S attempt + j) with (attempt + S j) by lia. reflexivity.
Qed.

(** X16. [extractPredictionsFromBlock] stops at the first attempt that
    succeeds.  With an API key, when the first [a] attempts fail and
    attempt [a < retries] gets a response that parses to [ps], the result
    holds [ps] and no error; the model was called [a + 1] times, and each
    failed attempt [j] was followed by a sleep of [min(1000 * 2^j, 10000)]
    ms, the successful one by none. *)
Theorem extractPredictionsFromBlock_first_success
  (block : SegmentedBlock) (blockIndex retries a : nat) (w : World)
  (key : jsstring) (failures : nat -> Thrown) (t : jsstring)
  (ps : list ExtractedPrediction) :
  GEMINI_API_KEY w = Some key -> key <> [] ->
  a < retries ->
  (forall j, j < a ->
     attemptFailure (modelReply w (modelCalls w + j)) = Some (failures j)) ->
  modelReply w (modelCalls w + a) = ModelText t ->
  parseJsonResponse t = Ok ps ->
  exists w' (waits : nat -> list Event),
    extractPredictionsFromBlock block blockIndex retries w
    = (Ok (mkResult blockIndex (blockStartTime block) (chunkIds block)
             (blockText block) ps None), w')
    /\ modelCalls w' = modelCalls w + S a
    /\ trace w'
       = trace w
         ++ concat (List.map
                      (fun j => waits j
                                ++ [EvModelCall (promptFor block);
                                    EvSleep (Z.min (1000 * 2 ^ Z.of_nat j) 10000)])
                      (seq 0 a))
         ++ waits a ++ [EvModelCall (promptFor block)]
    /\ (forall j, waits j = [] \/ exists d, waits j = [EvSleep d] /\ (0 < d)%Z).
Proof.
  intros Hkey Hne Ha Hfail Ht Hps.
  rewrite (extractPredictionsFromBlock_with_key block blockIndex retries w key
             Hkey Hne).
  destruct (retryLoop_first_success
              (mkResult blockIndex (blockStartTime block) (chunkIds block)
                 (blockText block) [] None)
              block a retries 0 None w failures t ps Ha Hfail Ht Hps)
    as (w' & waits & Hrun & Hcalls & _ & Htr & Hshape).
  exists w', waits. split; [exact Hrun|]. split; [exact Hcalls|].
  split; [exact Htr | exact Hshape].
Qed.

(** ** What the extraction of a video stores *)










Lemma video_update_tables (vid : jsstring) (f : Video -> Video) (w : World) :
  exists r w',
    video_update vid f w = (r, w')
    /\ creators w' = creators w
    /\ transcriptChunks w' = transcriptChunks w
    /\ predictions w' = predictions w
    /\ (forall other, other <> vid -> videos w' !! other = videos w !! other).
Proof.
  unfold video_update. rewrite bind_run. unfold dbCall.
  destruct (dbFault w VideoUpdate (dbCalls VideoUpdate w)).
  { eexists _, _. split; [reflexivity|]. repeat split. }
  rewrite bind_run. cbv [gets].
  change (videos (logEvent (EvDb VideoUpdate) w)) with (videos w).
  destruct (videos w !! vid) as [row|].
  - eexists _, _. split; [reflexivity|]. simpl. repeat split.
    intros other Hne. rewrite lookup_insert_ne by congruence. reflexivity.
  - eexists _, _. split; [reflexivity|]. repeat split.
Qed.


End WithEngine.

(** The theorem on the first success in [flakyWorld], with the default of
    three attempts: the first attempt throws and is followed by a sleep of
    1000 ms, the second returns the prediction. *)
Lemma extractPredictionsFromBlock_first_success_witness :
  exists w' (waits : nat -> list Event),
    @extractPredictionsFromBlock exampleEngine helloBlock 0 3 flakyWorld
    = (Ok (mkResult 0 (blockStartTime helloBlock) (chunkIds helloBlock)
             (blockText helloBlock)
             [ mkPrediction (js "Market will go up") None None Medium Direction ]
             None), w')
    /\ modelCalls w' = modelCalls flakyWorld + 2
    /\ trace w'
       = trace flakyWorld
         ++ concat (List.map
                      (fun j => waits j
                                ++ [EvModelCall (promptFor helloBlock);
                                    EvSleep (Z.min (1000 * 2 ^ Z.of_nat j) 10000)])
                      (seq 0 1))
         ++ waits 1 ++ [EvModelCall (promptFor helloBlock)]
    /\ (forall j, waits j = [] \/ exists d, waits j = [EvSleep d] /\ (0 < d)%Z).
Proof.
  apply (@extractPredictionsFromBlock_first_success exampleEngine helloBlock 0 3 1
           flakyWorld (js "key") (fun _ => JsError (js "busy")) marketUp
           [ mkPrediction (js "Market will go up") None None Medium Direction ]).
  - reflexivity.
  - discriminate.
  - lia.
  - intros [|j] Hj; [reflexivity | lia].
  - reflexivity.
  - vm_compute. reflexivity.
Defined.

End ExtractorAccounts.


(* ===================================================================== *)
(** * More on the transcripts: what a result means                        *)
(* ===================================================================== *)

Module TranscriptResults.

Import JsString.
Import Effects.
Import Transcript.
Import Properties.
Import Examples.
Import JsStringFacts.
Import ParserFacts.
Import EffectsFacts.
Import TranscriptFacts.
Import SegmenterContent.
Import ParserEdges.

(** ** Normalized entries *)

Lemma replaceAll_unit_gone (c : N) (rep s : jsstring) :
  ~ In c rep -> ~ In c (replaceAll [c] rep s).
Proof.
  intros Hrep. unfold replaceAll.
  induction s as [|x r IH]; [intros []|].
  cbn [replaceAllFrom isPrefix length Nat.sub].
  destruct (c =? x)%N eqn:E.
  - destruct r; simpl andb; cbv iota; intros Hin; apply in_app_or in Hin;
      destruct Hin as [Hin|Hin]; [apply Hrep, Hin | apply IH, Hin
                                 | apply Hrep, Hin | apply IH, Hin].
  - simpl andb. cbv iota. intros [Hx|Hin]; [|apply IH, Hin].
    apply N.eqb_neq in E. congruence.
Qed.

Lemma trim_In (x : N) (s : jsstring) : In x (trim s) -> In x s.
Proof.
  intros Hin. destruct (trim_inside s) as (a & b & Hs). rewrite Hs.
  apply in_or_app. right. apply in_or_app. left. exact Hin.
Qed.

(** X18. [normalizeTranscript] keeps the entries one for one and in order;
    every text it returns is trimmed and holds no line break, and every
    start time is the offset of the raw entry divided by 1000. *)
Theorem normalizeTranscript_clean (rawTranscript : list RawEntry) :
  Forall2 (fun raw entry =>
             entryStartTime entry = (offset raw / 1000)%Q
             /\ trim (entryText entry) = entryText entry
             /\ ~ In 10%N (entryText entry))
    rawTranscript (normalizeTranscript rawTranscript).
Proof.
  unfold normalizeTranscript.
  induction rawTranscript as [|raw rest IH]; [constructor|].
  simpl. constructor; [|exact IH]. simpl.
  split; [reflexivity|]. split; [apply trim_idem|].
  intros Hin. apply trim_In in Hin. revert Hin.
  apply replaceAll_unit_gone. intros [Habs|[]]. discriminate Habs.
Qed.

(** ** The transaction *)



Section WithEngine.
Context `{Engine} `{CaptionSources}.


(** ** The inner [try] block *)


(** ** The [catch] block *)

Lemma catch_run (vid : jsstring) (result : FetchTranscriptResult)
  (err : Thrown) (w : World) :
  exists w',
    ((if isPermanent (messageOf err)
      then tryCatch (video_update vid setTranscriptFetched) (fun _ => mret tt)
      else mret tt) ;;
     mret (withFetchError (messageOf err) result)) w
    = (Ok (withFetchError (messageOf err) result), w')
    /\ (isPermanent (messageOf err) = false -> w' = w)
    /\ (isPermanent (messageOf err) = true ->
        w' = snd (video_update vid setTranscriptFetched w)).
Proof.
  rewrite bind_run. destruct (isPermanent (messageOf err)).
  - unfold tryCatch.
    destruct (video_update vid setTranscriptFetched w) as [[[]|e] w1];
      exists w1; (split; [reflexivity|]); split; intros; try discriminate;
      reflexivity.
  - exists w. split; [reflexivity|]. split; intros; try discriminate; reflexivity.
Qed.

Lemma video_update_sets (vid : jsstring) (f : Video -> Video) (v : Video)
  (w : World) :
  videos w !! vid = Some v ->
  dbFault w VideoUpdate (dbCalls VideoUpdate w) = None ->
  videos (snd (video_update vid f w)) = <[vid := f v]> (videos w).
Proof.
  intros Hv Hfault. unfold video_update. rewrite bind_run. unfold dbCall.
  rewrite Hfault, bind_run. cbv [gets].
  change (videos (logEvent (EvDb VideoUpdate) w)) with (videos w).
  rewrite Hv. reflexivity.
Qed.



(** X20. An error while the transcript is fetched or stored marks the
    video as fetched only when its message names a transcript that is
    switched off.  When the video is there, not fetched yet, and the inner
    block throws [e], the result is a failure with the message of [e].
    When no permanent phrase is in the message, nothing more is written,
    and the video stays to be retried; when one is, the video is marked
    [transcriptFetched], without any chunk, provided the update goes
    through. *)
Theorem fetchTranscriptForVideo_marks_only_permanent
  (vid : jsstring) (w w2 : World) (v : Video) (e : Thrown) :
  videos w !! vid = Some v ->
  transcriptFetched v = false ->
  dbFault w VideoFindUnique (dbCalls VideoFindUnique w) = None ->
  fetchAndStore vid (mkFetch false vid 0 None None)
    (logEvent (EvDb VideoFindUnique) w) = (Raise e, w2) ->
  exists w',
    fetchTranscriptForVideo vid w
    = (Ok (mkFetch false vid 0 (Some (messageOf e)) None), w')
    /\ (isPermanent (messageOf e) = false -> w' = w2)
    /\ (isPermanent (messageOf e) = true ->
        transcriptChunks w' = transcriptChunks w2
        /\ forall v2,
             videos w2 !! vid = Some v2 ->
             dbFault w2 VideoUpdate (dbCalls VideoUpdate w2) = None ->
             videos w' = <[vid := setTranscriptFetched v2]> (videos w2)).
Proof.
  intros Hv Hf Hfault Hraise.
  unfold fetchTranscriptForVideo. unfold tryCatch at 1.
  rewrite bind_run. unfold video_findUnique. rewrite bind_run. unfold dbCall.
  rewrite Hfault. cbv [gets].
  change (videos (logEvent (EvDb VideoFindUnique) w)) with (videos w).
  rewrite Hv, Hf, Hraise. cbv beta zeta.
  destruct (catch_run vid (mkFetch false vid 0 None None) e w2)
    as (w' & -> & Htransient & Hpermanent).
  exists w'. split; [reflexivity|]. split; [exact Htransient|].
  intros Hp. rewrite (Hpermanent Hp). split.
  - destruct (ExtractorAccounts.video_update_tables vid setTranscriptFetched w2)
      as (r & w3 & -> & _ & Ht & _). exact Ht.
  - intros v2 Hv2 Hfault2. apply video_update_sets; assumption.
Qed.

(** ** Several videos *)



End WithEngine.


(** The theorem on errors in [freshVideoWorld]: a transcript that is
    switched off marks the video, a network failure does not. *)
Lemma fetchTranscriptForVideo_marks_only_permanent_witness :
  (exists w',
      @fetchTranscriptForVideo exampleEngine disabledCaptions (js "v1")
        freshVideoWorld
      = (Ok (mkFetch false (js "v1") 0
               (Some (js "Transcript is disabled on this video")) None), w')
      /\ videos w'
         = <[js "v1" := mkVideo (js "v1") (js "c1") true false]>
             (videos freshVideoWorld))
  /\ @fetchTranscriptForVideo exampleEngine offlineCaptions (js "v1")
       freshVideoWorld
     = (Ok (mkFetch false (js "v1") 0 (Some (js "fetch failed")) None),
        logEvent (EvDb VideoFindUnique) freshVideoWorld).
Proof.
  split.
  - destruct (@fetchTranscriptForVideo_marks_only_permanent exampleEngine
                disabledCaptions (js "v1") freshVideoWorld
                (logEvent (EvDb VideoFindUnique) freshVideoWorld)
                (mkVideo (js "v1") (js "c1") false false)
                (JsError (js "Transcript is disabled on this video"))
                eq_refl eq_refl eq_refl eq_refl)
      as (w' & Hrun & _ & Hp).
    exists w'. split; [exact Hrun|].
    destruct (Hp eq_refl) as [_ Hset].
    apply (Hset (mkVideo (js "v1") (js "c1") false false)); reflexivity.
  - destruct (@fetchTranscriptForVideo_marks_only_permanent exampleEngine
                offlineCaptions (js "v1") freshVideoWorld
                (logEvent (EvDb VideoFindUnique) freshVideoWorld)
                (mkVideo (js "v1") (js "c1") false false)
                (JsError (js "fetch failed"))
                eq_refl eq_refl eq_refl eq_refl)
      as (w' & Hrun & Ht & _).
    rewrite Hrun, (Ht eq_refl). reflexivity.
Defined.

End TranscriptResults.


(* ===================================================================== *)
(** * The rate limiter                                                    *)
(* ===================================================================== *)

Module RateLimitFacts.

Import JsString.
Import RateLimit.
Import Properties.

Lemma map_seq_S {A} (f : nat -> A) (n : nat) :
  List.map f (seq 0 (S n)) = f 0 :: List.map (fun j => f (S j)) (seq 0 n).
Proof. simpl. rewrite <- seq_shift, List.map_map. reflexivity. Qed.

(** Inside a window: a call is admitted while the count is below the
    maximum. *)
Lemma admits_live (config : RateLimitConfig) (key : jsstring) (later : list Z) :
  forall (store : Store) (entry : RateLimitEntry),
    store !! key = Some entry ->
    Forall (fun t => (t < resetAt entry)%Z) later ->
    admits config key later store
    = List.map (fun j => (count entry + Z.of_nat j <? maxRequests config)%Z)
        (seq 0 (length later)).
Proof.
  induction later as [|now later IH]; intros store entry Hentry Hlive;
    [reflexivity|].
  apply Forall_cons in Hlive. destruct Hlive as [Hnow Hlive].
  cbn [admits length]. rewrite map_seq_S. unfold checkRateLimit.
  rewrite Hentry.
  replace (resetAt entry <=? now)%Z with false by (symmetry; apply Z.leb_gt; lia).
  rewrite Z.add_0_r.
  destruct (maxRequests config <=? count entry)%Z eqn:Hfull.
  - apply Z.leb_le in Hfull. cbn [allowed].
    replace (count entry <? maxRequests config)%Z with false
      by (symmetry; apply Z.ltb_ge; lia).
    f_equal. rewrite (IH store entry Hentry Hlive).
    apply List.map_ext. intros j.
    transitivity false; [|symmetry]; apply Z.ltb_ge; lia.
  - apply Z.leb_gt in Hfull. cbn [allowed].
    replace (count entry <? maxRequests config)%Z with true
      by (symmetry; apply Z.ltb_lt; lia).
    f_equal.
    rewrite (IH _ (mkRateLimitEntry (count entry + 1) (resetAt entry)));
      [|apply lookup_insert_eq | exact Hlive].
    apply List.map_ext. intros j. cbn [count]. f_equal. lia.
Qed.

(** X22. A window admits its first request, and after it requests up to
    [maxRequests] in all.  When there is no entry for the key, or its
    window is over at [t0], and the calls that follow the one at [t0]
    come before [t0 + windowMs], then call number [i] (from 0) is allowed
    exactly when [i = 0] or [i < maxRequests]: the opening call is
    allowed even when [maxRequests] is 0 or less. *)
Theorem checkRateLimit_admits_max_per_window
  (config : RateLimitConfig) (key : jsstring) (t0 : Z) (later : list Z)
  (store : Store) :
  (store !! key = None
   \/ exists entry, store !! key = Some entry /\ (resetAt entry <= t0)%Z) ->
  Forall (fun t => (t < t0 + windowMs config)%Z) later ->
  admits config key (t0 :: later) store
  = List.map (fun i => (i =? 0) || (Z.of_nat i <? maxRequests config)%Z)
      (seq 0 (S (length later))).
Proof.
  intros Hopen Hlive. cbn [admits]. rewrite map_seq_S.
  assert (Hfirst : checkRateLimit t0 key config store
                   = (mkRateLimitResult true (maxRequests config - 1)
                        (t0 + windowMs config),
                      <[key := mkRateLimitEntry 1 (t0 + windowMs config)]> store)).
  { unfold checkRateLimit. destruct Hopen as [-> | (entry & -> & Hover)];
      [reflexivity|].
    replace (resetAt entry <=? t0)%Z with true
      by (symmetry; apply Z.leb_le; exact Hover).
    reflexivity. }
  rewrite Hfirst. cbn [allowed]. f_equal.
  rewrite (admits_live config key later _
             (mkRateLimitEntry 1 (t0 + windowMs config)));
    [|apply lookup_insert_eq | exact Hlive].
  apply List.map_ext. intros j. cbn [count]. simpl Nat.eqb. cbn [orb].
  f_equal. lia.
Qed.

(** The theorem on the window with the limit of the ingest route, five
    requests a minute: of seven calls within the minute, the first five
    are allowed. *)
Lemma checkRateLimit_admits_max_per_window_witness :
  admits INGEST_RATE_LIMIT (js "ingest:unknown") [0; 10; 20; 30; 40; 50; 59999]%Z ∅
  = [true; true; true; true; true; false; false].
Proof.
  apply (checkRateLimit_admits_max_per_window INGEST_RATE_LIMIT
           (js "ingest:unknown") 0 [10; 20; 30; 40; 50; 59999]%Z ∅).
  - left. reflexivity.
  - repeat constructor.
Defined.

(** X23. The keys of the rate limiter do not touch each other, and a
    refusal changes nothing.  The answer to a call for [key] depends on
    the entry of [key] alone; the call leaves the entries of all other
    keys as they are; and when the call is refused, the whole store is as
    before, with [remaining] 0. *)
Theorem checkRateLimit_keys_independent
  (now : Z) (key : jsstring) (config : RateLimitConfig) (store : Store) :
  (forall store2 : Store,
      store2 !! key = store !! key ->
      fst (checkRateLimit now key config store2)
      = fst (checkRateLimit now key config store))
  /\ (forall other,
        other <> key ->
        snd (checkRateLimit now key config store) !! other = store !! other)
  /\ (allowed (fst (checkRateLimit now key config store)) = false ->
      snd (checkRateLimit now key config store) = store
      /\ remaining (fst (checkRateLimit now key config store)) = 0%Z).
Proof.
  split; [|split].
  - intros store2 Hsame. unfold checkRateLimit. rewrite Hsame.
    destruct (store !! key) as [entry|]; [|reflexivity].
    destruct (resetAt entry <=? now)%Z; [reflexivity|].
    destruct (maxRequests config <=? count entry)%Z; reflexivity.
  - intros other Hne. unfold checkRateLimit.
    destruct (store !! key) as [entry|];
      [|simpl; apply lookup_insert_ne; congruence].
    destruct (resetAt entry <=? now)%Z;
      [simpl; apply lookup_insert_ne; congruence|].
    destruct (maxRequests config <=? count entry)%Z;
      [reflexivity | simpl; apply lookup_insert_ne; congruence].
  - unfold checkRateLimit.
    destruct (store !! key) as [entry|]; [|discriminate].
    destruct (resetAt entry <=? now)%Z; [discriminate|].
    destruct (maxRequests config <=? count entry)%Z; [|discriminate].
    intros _. split; reflexivity.
Qed.

(** X24. [cleanupRateLimitStore] deletes exactly the entries whose window
    is over, and no later call can tell: at any instant from the cleanup
    on, [checkRateLimit] answers the same with or without it. *)
Theorem cleanupRateLimitStore_unseen (now : Z) (store : Store) :
  (forall key entry,
      cleanupRateLimitStore now store !! key = Some entry
      <-> store !! key = Some entry /\ (now < resetAt entry)%Z)
  /\ (forall now' key config,
        (now <= now')%Z ->
        fst (checkRateLimit now' key config (cleanupRateLimitStore now store))
        = fst (checkRateLimit now' key config store)).
Proof.
  assert (Hlookup : forall key entry,
             cleanupRateLimitStore now store !! key = Some entry
             <-> store !! key = Some entry /\ (now < resetAt entry)%Z).
  { intros key entry. unfold cleanupRateLimitStore.
    apply (map_lookup_filter_Some (fun kv => (now < resetAt kv.2)%Z) store key entry). }
  split; [exact Hlookup|].
  intros now' key config Hle. unfold checkRateLimit.
  destruct (cleanupRateLimitStore now store !! key) as [entry|] eqn:Hclean.
  - apply Hlookup in Hclean. destruct Hclean as [-> _].
    destruct (resetAt entry <=? now')%Z; [reflexivity|].
    destruct (maxRequests config <=? count entry)%Z; reflexivity.
  - destruct (store !! key) as [entry|] eqn:Hstore; [|reflexivity].
    destruct (decide (now < resetAt entry)%Z) as [Hlive|Hover].
    + assert (Habs : cleanupRateLimitStore now store !! key = Some entry)
        by (apply Hlookup; split; assumption).
      rewrite Hclean in Habs. discriminate Habs.
    + replace (resetAt entry <=? now')%Z with true
        by (symmetry; apply Z.leb_le; lia).
      reflexivity.
Qed.

End RateLimitFacts.


(* ===================================================================== *)
(** * The discovery of videos                                             *)
(* ===================================================================== *)

Module FetchVideosFacts.

Import JsString.
Import Effects.
Import Orchestrator.
Import FetchVideos.
Import Properties.
Import Examples.
Import JsStringFacts.
Import EffectsFacts.
Import ParserEdges.

(** ** Keywords *)

Lemma isPrefix_app (p post : jsstring) : isPrefix p (p ++ post) = true.
Proof.
  induction p as [|a p IH]; [reflexivity|]. simpl.
  rewrite N.eqb_refl. exact IH.
Qed.

Lemma includes_unfold (hay needle : jsstring) :
  includes hay needle
  = isPrefix needle hay
    || match hay with
       | [] => false
       | _ :: r => includes r needle
       end.
Proof. destruct hay; reflexivity. Qed.

Lemma includes_intro (pre needle post : jsstring) :
  includes (pre ++ needle ++ post) needle = true.
Proof.
  induction pre as [|c pre IH].
  - simpl app. rewrite includes_unfold, isPrefix_app. reflexivity.
  - simpl. rewrite IH. apply orb_true_r.
Qed.

Lemma includes_iff (hay needle : jsstring) :
  includes hay needle = true <-> exists pre post, hay = pre ++ needle ++ post.
Proof.
  split; [apply includes_spec|].
  intros (pre & post & ->). apply includes_intro.
Qed.

(** A needle that does not hold the separator is found on one side of it. *)
Lemma includes_separated (a b k : jsstring) (sep : N) :
  k <> [] -> ~ In sep k ->
  includes (a ++ sep :: b) k = includes a k || includes b k.
Proof.
  intros Hne Hsep. apply eq_true_iff_eq.
  rewrite orb_true_iff, !includes_iff. split.
  - intros (pre & post & Heq).
    apply app_eq_app in Heq. destruct Heq as [l [[Ha Hk]|[Hpre Hb]]].
    + apply app_eq_app in Hk. destruct Hk as [l2 [[Hk Hb]|[Hl Hpost]]].
      * destruct l2 as [|x l2].
        -- left. exists pre, []. rewrite app_nil_r in *. subst. reflexivity.
        -- exfalso. apply Hsep. injection Hb as <- _. rewrite Hk.
           apply in_or_app. right. left. reflexivity.
      * left. exists pre, l2. subst. reflexivity.
    + destruct l as [|x l].
      * exfalso. simpl in Hb. destruct k as [|y k]; [contradiction|].
        injection Hb as <- _. apply Hsep. left. reflexivity.
      * right. injection Hb as _ Hb. exists l, post. exact Hb.
  - intros [(pre & post & ->)|(pre & post & ->)].
    + exists pre, (post ++ sep :: b). rewrite <- !app_assoc. reflexivity.
    + exists (a ++ sep :: pre), post. rewrite <- app_assoc. reflexivity.
Qed.

(** X25. [isFinanceRelated] holds exactly when the title or the description
    alone, in lower case, contains one of the four keywords: the space
    put between the two never makes a keyword. *)
Theorem isFinanceRelated_title_or_description (title description : jsstring) :
  isFinanceRelated title description
  = existsb (fun keyword =>
               includes (toLowerCase title) keyword
               || includes (toLowerCase description) keyword)
      FINANCE_KEYWORDS.
Proof.
  unfold isFinanceRelated, toLowerCase. rewrite List.map_app.
  change (List.map lowerUnit (js " " ++ description))
    with (32%N :: List.map lowerUnit description).
  unfold FINANCE_KEYWORDS. cbn [existsb].
  rewrite !includes_separated; try discriminate; try reflexivity.
  all: intros Hin; simpl in Hin;
    repeat (destruct Hin as [Hin|Hin]; [discriminate Hin|]); exact Hin.
Qed.

(** ** The loops *)

Section WithApi.
Context `{YouTubeApi}.

Lemma liftV_run {A} (m : M A) (r : FetchVideosResult) (w : World) :
  liftV m (r, w) = let (o, w') := m w in (o, (r, w')).
Proof. reflexivity. Qed.

Lemma videoStep_run (creatorId : jsstring) (video : SearchItem)
  (s : FetchVideosResult * World) :
  exists o s',
    videoStep creatorId video s = (o, s')
    /\ fetchedFound (fst s') = fetchedFound (fst s)
    /\ (fetchedInserted (fst s) <= fetchedInserted (fst s'))%Z
    /\ (fetchedSkipped (fst s) <= fetchedSkipped (fst s'))%Z
    /\ match o with
       | Ok _ => settled (fst s') = (settled (fst s) + 1)%Z
       | Raise _ => fst s' = fst s
       end.
Proof.
  destruct s as [r w]. unfold videoStep, settled.
  destruct (orNull (itemVideoId video)) as [videoId|].
  2:{ eexists _, _. split; [reflexivity|]. simpl. rewrite length_app. simpl.
      repeat split; lia. }
  destruct (orNull (itemPublishedAt video)) as [publishedAt|].
  2:{ eexists _, _. split; [reflexivity|]. simpl. rewrite length_app. simpl.
      repeat split; lia. }
  destruct (isFinanceRelated _ _).
  2:{ eexists _, _. split; [reflexivity|]. simpl. repeat split; lia. }
  cbn [negb]. rewrite bind_run, liftV_run.
  destruct (video_findUnique videoId w) as [[[v|]|e] w1].
  - eexists _, _. split; [reflexivity|]. simpl. repeat split; lia.
  - unfold tryCatch. rewrite bind_run, liftV_run.
    match goal with
    | |- context [video_create ?d w1] => destruct (video_create d w1) as [[[]|e] w2]
    end.
    + eexists _, _. split; [reflexivity|]. simpl. repeat split; lia.
    + eexists _, _. split; [reflexivity|]. simpl. rewrite length_app. simpl.
      repeat split; lia.
  - eexists _, _. split; [reflexivity|]. simpl. repeat split; lia.
Qed.

Lemma videosLoop_run (creatorId : jsstring) (videos : list SearchItem) :
  forall s : FetchVideosResult * World,
  exists o s',
    videosLoop creatorId videos s = (o, s')
    /\ fetchedFound (fst s') = fetchedFound (fst s)
    /\ (fetchedInserted (fst s) <= fetchedInserted (fst s'))%Z
    /\ (fetchedSkipped (fst s) <= fetchedSkipped (fst s'))%Z
    /\ match o with
       | Ok _ => settled (fst s') = (settled (fst s) + Z.of_nat (length videos))%Z
       | Raise _ =>
           (settled (fst s) <= settled (fst s')
            <= settled (fst s) + Z.of_nat (length videos))%Z
       end.
Proof.
  induction videos as [|video rest IH]; intros s.
  - exists (Ok tt), s. split; [reflexivity|]. simpl. repeat split; lia.
  - cbn [videosLoop]. rewrite bind_run.
    destruct (videoStep_run creatorId video s)
      as (o & s1 & -> & Hf & Hi & Hs & Ho).
    destruct o as [[]|e].
    + destruct (IH s1) as (o' & s' & -> & Hf' & Hi' & Hs' & Ho').
      exists o', s'. split; [reflexivity|].
      split; [congruence|]. split; [lia|]. split; [lia|].
      cbn [length]. destruct o'; lia.
    + exists (Raise e), s1. split; [reflexivity|].
      split; [exact Hf|]. split; [exact Hi|]. split; [exact Hs|].
      rewrite Ho. cbn [length]. lia.
Qed.

Lemma pageStep_run (apiKey channelId creatorId : jsstring) (maxResults : Z)
  (pageToken : option jsstring) (totalFetched : Z)
  (s : FetchVideosResult * World) :
  match search_list apiKey channelId (Z.min 50 (maxResults - totalFetched))
          pageToken (snd s) with
  | (Raise e, w1) =>
      pageStep apiKey channelId creatorId maxResults pageToken totalFetched s
      = (Raise e, (fst s, w1))
  | (Ok response, w1) =>
      let p := Z.of_nat (length (pageVideos response)) in
      exists o s',
        pageStep apiKey channelId creatorId maxResults pageToken totalFetched s
        = (o, s')
        /\ fetchedFound (fst s') = (fetchedFound (fst s) + p)%Z
        /\ (fetchedInserted (fst s) <= fetchedInserted (fst s'))%Z
        /\ (fetchedSkipped (fst s) <= fetchedSkipped (fst s'))%Z
        /\ match o with
           | Ok next =>
               next = (orNull (nextPageToken response), (totalFetched + p)%Z)
               /\ settled (fst s') = (settled (fst s) + p)%Z
           | Raise _ =>
               (settled (fst s) <= settled (fst s') <= settled (fst s) + p)%Z
           end
  end.
Proof.
  destruct s as [r w]. unfold pageStep. rewrite bind_run, liftV_run.
  cbn [snd fst].
  destruct (search_list apiKey channelId (Z.min 50 (maxResults - totalFetched))
              pageToken w) as [[response|e] w1]; [|reflexivity].
  cbv zeta. fold (pageVideos response). rewrite bind_run.
  unfold updateV at 1, modify at 1. cbn [fst snd]. rewrite bind_run.
  destruct (videosLoop_run creatorId (pageVideos response) (addFound (Z.of_nat (length (pageVideos response))) r, w1))
    as (o & s' & -> & Hf & Hi & Hs & Ho).
  simpl in Hf, Hi, Hs. unfold settled in Ho. simpl in Ho.
  destruct o as [[]|e].
  - eexists _, s'. split; [reflexivity|]. simpl.
    split; [exact Hf|]. split; [exact Hi|]. split; [exact Hs|].
    split; [reflexivity | exact Ho].
  - eexists _, s'. split; [reflexivity|]. simpl.
    split; [exact Hf|]. split; [exact Hi|]. split; [exact Hs|]. exact Ho.
Qed.

Lemma pagesLoop_accounts (apiKey channelId creatorId : jsstring)
  (maxResults : Z) (fuel : nat) :
  forall pageToken totalFetched (s : FetchVideosResult * World) out s',
    pagesLoop fuel apiKey channelId creatorId maxResults pageToken
      totalFetched s = Some (out, s') ->
    (fetchedInserted (fst s) <= fetchedInserted (fst s'))%Z
    /\ (fetchedSkipped (fst s) <= fetchedSkipped (fst s'))%Z
    /\ (fetchedFound (fst s) <= fetchedFound (fst s'))%Z
    /\ match out with
       | Ok _ =>
           (settled (fst s') - settled (fst s)
            = fetchedFound (fst s') - fetchedFound (fst s))%Z
       | Raise _ =>
           (0 <= settled (fst s') - settled (fst s)
            <= fetchedFound (fst s') - fetchedFound (fst s))%Z
       end.
Proof.
  induction fuel as [|fuel IH]; intros pageToken totalFetched s out s' Hrun;
    [discriminate Hrun|].
  cbn [pagesLoop] in Hrun.
  pose proof (pageStep_run apiKey channelId creatorId maxResults pageToken
                totalFetched s) as Hstep.
  destruct (search_list apiKey channelId (Z.min 50 (maxResults - totalFetched))
              pageToken (snd s)) as [[response|e] w1].
  - destruct Hstep as (o & s1 & Hpage & Hf & Hi & Hs & Ho).
    rewrite Hpage in Hrun.
    destruct o as [[[token|] total]|e].
    + destruct Ho as [_ Hset].
      destruct (total <? maxResults)%Z.
      * apply IH in Hrun. destruct Hrun as (Hi' & Hs' & Hf' & Hout).
        split; [lia|]. split; [lia|]. split; [lia|].
        destruct out; lia.
      * injection Hrun as <- <-. repeat split; lia.
    + destruct Ho as [_ Hset]. injection Hrun as <- <-. repeat split; lia.
    + injection Hrun as <- <-. repeat split; lia.
  - rewrite Hstep in Hrun. injection Hrun as <- <-. simpl. repeat split; lia.
Qed.

(** X26. [fetchVideosForChannel] throws only before it starts: when the
    API key is not set, or when [ensureCreator] throws.  Every result it
    returns accounts for the videos found: each is inserted, skipped or
    named in an error, so the three add up to [videosFound]; unless the
    loop was cut short, in which case the last error is the "API error"
    that cut it, and the videos of the page not looked at yet are not
    accounted for. *)
Theorem fetchVideosForChannel_accounts (fuel : nat) (channelId : jsstring)
  (maxResults : Z) (w : World) (out : Result FetchVideosResult) (w' : World) :
  fetchVideosForChannel fuel channelId maxResults w = Some (out, w') ->
  match out with
  | Raise e =>
      ((YOUTUBE_API_KEY = None \/ YOUTUBE_API_KEY = Some [])
       /\ e = JsError (js "YOUTUBE_API_KEY environment variable is not set")
       /\ w' = w)
      \/ ensureCreator channelId w = (Raise e, w')
  | Ok r =>
      (0 <= fetchedInserted r)%Z /\ (0 <= fetchedSkipped r)%Z
      /\ ((fetchedInserted r + fetchedSkipped r
           + Z.of_nat (length (fetchedErrors r)) = fetchedFound r)%Z
          \/ exists before message,
               fetchedErrors r = before ++ [js "API error: " ++ message]
               /\ (fetchedInserted r + fetchedSkipped r
                   + Z.of_nat (length before) <= fetchedFound r)%Z)
  end.
Proof.
  unfold fetchVideosForChannel.
  destruct YOUTUBE_API_KEY as [[|c k]|] eqn:Hkey.
  - intros Hrun. injection Hrun as <- <-. left.
    split; [right; reflexivity|]. split; reflexivity.
  - destruct (ensureCreator channelId w) as [[creatorId|e] w1] eqn:Hcreator.
    2:{ intros Hrun. injection Hrun as <- <-. right. reflexivity. }
    destruct (pagesLoop fuel (c :: k) channelId creatorId maxResults None 0
                (mkFetchVideos 0 0 0 [], w1)) as [[o [r w2]]|] eqn:Hloop;
      [|discriminate].
    apply pagesLoop_accounts in Hloop.
    destruct Hloop as (Hi & Hs & Hf & Hout). unfold settled in Hout.
    simpl in Hi, Hs, Hf, Hout.
    destruct o as [[]|err]; intros Hrun; injection Hrun as <- <-.
    + split; [lia|]. split; [lia|]. left. lia.
    + unfold addError.
      cbn [fetchedInserted fetchedSkipped fetchedFound fetchedErrors].
      split; [lia|]. split; [lia|]. right.
      exists (fetchedErrors r), (messageOf err).
      split; [reflexivity | unfold jsstring in *; lia].
  - intros Hrun. injection Hrun as <- <-. left.
    split; [left; reflexivity|]. split; reflexivity.
Qed.

(** ** The pages asked for *)

Lemma pagesLoop_ends (apiKey channelId creatorId : jsstring) (maxResults : Z) :
  (forall key channel n token w response w1,
      search_list key channel n token w = (Ok response, w1) ->
      length (pageVideos response) <= Z.to_nat n
      /\ (orNull (nextPageToken response) <> None ->
          1 <= length (pageVideos response))) ->
  forall fuel pageToken totalFetched (s : FetchVideosResult * World),
    (0 <= totalFetched)%Z ->
    totalFetched = 0%Z \/ (totalFetched < maxResults)%Z ->
    Z.to_nat (maxResults - totalFetched) < fuel ->
    exists out s',
      pagesLoop fuel apiKey channelId creatorId maxResults pageToken
        totalFetched s = Some (out, s')
      /\ (fetchedFound (fst s') - fetchedFound (fst s)
          <= Z.max 0 (maxResults - totalFetched))%Z.
Proof.
  intros Hpages fuel.
  induction fuel as [|fuel IH]; intros pageToken totalFetched s Hpos Hroom Hfuel;
    [lia|].
  cbn [pagesLoop].
  pose proof (pageStep_run apiKey channelId creatorId maxResults pageToken
                totalFetched s) as Hstep.
  destruct (search_list apiKey channelId (Z.min 50 (maxResults - totalFetched))
              pageToken (snd s)) as [[response|e] w1] eqn:Hsearch.
  2:{ rewrite Hstep. eexists _, _. split; [reflexivity|]. simpl. lia. }
  destruct (Hpages _ _ _ _ _ _ _ Hsearch) as [Hsize Hmore].
  destruct Hstep as (o & s1 & -> & Hf & _ & _ & Ho).
  assert (Hp : (Z.of_nat (length (pageVideos response))
                <= Z.max 0 (maxResults - totalFetched))%Z) by lia.
  destruct o as [[[token|] total]|e].
  - destruct Ho as [Hnext _]. injection Hnext as Htoken ->.
    assert (Hone : 1 <= length (pageVideos response)).
    { apply Hmore. rewrite <- Htoken. discriminate. }
    destruct (totalFetched + Z.of_nat (length (pageVideos response))
              <? maxResults)%Z eqn:Hlt.
    + apply Z.ltb_lt in Hlt.
      destruct (IH (Some token)
                  (totalFetched + Z.of_nat (length (pageVideos response)))%Z s1)
        as (out & s' & Hrun & Hbound); [lia | right; lia | lia |].
      exists out, s'. split; [exact Hrun|]. lia.
    + eexists _, _. split; [reflexivity|]. lia.
  - eexists _, _. split; [reflexivity|]. lia.
  - eexists _, _. split; [reflexivity|]. lia.
Qed.

(** X27. [fetchVideosForChannel] ends, and finds no more videos than asked
    for, when the search API keeps to the page size it is asked for and
    never sends an empty page with a token for the next: within
    [maxResults + 1] pages it returns, and [videosFound] is at most
    [maxResults]. *)
Theorem fetchVideosForChannel_ends_within_maxResults
  (fuel : nat) (channelId : jsstring) (maxResults : Z) (w : World) :
  (forall key channel n token w0 response w1,
      search_list key channel n token w0 = (Ok response, w1) ->
      length (pageVideos response) <= Z.to_nat n
      /\ (orNull (nextPageToken response) <> None ->
          1 <= length (pageVideos response))) ->
  Z.to_nat maxResults < fuel ->
  exists out w',
    fetchVideosForChannel fuel channelId maxResults w = Some (out, w')
    /\ forall r, out = Ok r ->
                 (0 <= fetchedFound r <= Z.max 0 maxResults)%Z.
Proof.
  intros Hpages Hfuel. unfold fetchVideosForChannel.
  destruct YOUTUBE_API_KEY as [[|c k]|].
  - eexists _, _. split; [reflexivity|]. intros r Habs. discriminate Habs.
  - destruct (ensureCreator channelId w) as [[creatorId|e] w1].
    2:{ eexists _, _. split; [reflexivity|]. intros r Habs. discriminate Habs. }
    destruct (pagesLoop_ends (c :: k) channelId creatorId maxResults Hpages
                fuel None 0%Z (mkFetchVideos 0 0 0 [], w1))
      as (o & [r w2] & Hrun & Hbound); [lia | left; reflexivity
                                        | rewrite Z.sub_0_r; exact Hfuel |].
    pose proof (pagesLoop_accounts _ _ _ _ _ _ _ _ _ _ Hrun) as (_ & _ & Hf & _).
    rewrite Hrun. simpl in Hbound, Hf. rewrite Z.sub_0_r in Hbound.
    destruct o as [[]|err]; eexists _, _; (split; [reflexivity|]);
      intros r' Hr'; injection Hr' as <-; simpl; lia.
  - eexists _, _. split; [reflexivity|]. intros r Habs. discriminate Habs.
Qed.

End WithApi.

(** ** What is inserted *)

Section Inserts.

Variable api : YouTubeApi.
Variable create : VideoData -> M unit.
Hypothesis create_agrees :
  forall d w,
    isFinanceRelated (dataTitle d) (dataDescription d) = true ->
    dataId d <> [] -> dataPublishedAt d <> [] ->
    dataUrl d = js "https://www.youtube.com/watch?v=" ++ dataId d ->
    videos w !! dataId d = None ->
    create d w = @video_create api d w.

Lemma videoStep_create_agrees (creatorId : jsstring) (video : SearchItem)
  (s : FetchVideosResult * World) :
  @videoStep (withVideoCreate create api) creatorId video s
  = @videoStep api creatorId video s.
Proof.
  destruct s as [r w]. unfold videoStep.
  destruct (orNull (itemVideoId video)) as [videoId|] eqn:Hid; [|reflexivity].
  destruct (orNull (itemPublishedAt video)) as [publishedAt|] eqn:Hdate;
    [|reflexivity].
  destruct (isFinanceRelated _ _) eqn:Hfin; [|reflexivity].
  cbn [negb]. rewrite !bind_run, !liftV_run.
  unfold video_findUnique. rewrite bind_run. unfold dbCall.
  destruct (dbFault w VideoFindUnique (dbCalls VideoFindUnique w));
    [reflexivity|].
  cbv [gets].
  change (videos (logEvent (EvDb VideoFindUnique) w)) with (videos w).
  destruct (videos w !! videoId) as [v|] eqn:Hv; [reflexivity|].
  unfold tryCatch. rewrite !bind_run, !liftV_run.
  cbn [video_create withVideoCreate].
  rewrite create_agrees; [reflexivity | exact Hfin | | | reflexivity | exact Hv].
  - cbn [dataId]. destruct (itemVideoId video) as [[|x i]|];
      try discriminate Hid. injection Hid as <-. discriminate.
  - cbn [dataPublishedAt]. destruct (itemPublishedAt video) as [[|x i]|];
      try discriminate Hdate. injection Hdate as <-. discriminate.
Qed.

Lemma videosLoop_create_agrees (creatorId : jsstring) (videos : list SearchItem) :
  forall s,
    @videosLoop (withVideoCreate create api) creatorId videos s
    = @videosLoop api creatorId videos s.
Proof.
  induction videos as [|video rest IH]; intros s; [reflexivity|].
  cbn [videosLoop]. rewrite !bind_run, videoStep_create_agrees.
  destruct (@videoStep api creatorId video s) as [[[]|e] s1];
    [apply IH | reflexivity].
Qed.

Lemma pageStep_create_agrees (apiKey channelId creatorId : jsstring)
  (maxResults : Z) (pageToken : option jsstring) (totalFetched : Z)
  (s : FetchVideosResult * World) :
  @pageStep (withVideoCreate create api) apiKey channelId creatorId maxResults
    pageToken totalFetched s
  = @pageStep api apiKey channelId creatorId maxResults pageToken
      totalFetched s.
Proof.
  unfold pageStep. rewrite !bind_run. cbn [search_list withVideoCreate].
  destruct (liftV _ s) as [[response|e] s1]; [|reflexivity].
  rewrite !bind_run.
  destruct (updateV _ s1) as [[[]|e] s2]; [|reflexivity].
  rewrite !bind_run, videosLoop_create_agrees. reflexivity.
Qed.

Lemma pagesLoop_create_agrees (apiKey channelId creatorId : jsstring)
  (maxResults : Z) (fuel : nat) :
  forall pageToken totalFetched s,
    @pagesLoop (withVideoCreate create api) fuel apiKey channelId creatorId
      maxResults pageToken totalFetched s
    = @pagesLoop api fuel apiKey channelId creatorId maxResults pageToken
        totalFetched s.
Proof.
  induction fuel as [|fuel IH]; intros pageToken totalFetched s; [reflexivity|].
  cbn [pagesLoop]. rewrite pageStep_create_agrees.
  destruct (@pageStep api apiKey channelId creatorId maxResults pageToken
              totalFetched s) as [[[[token|] total]|e] s1]; try reflexivity.
  destruct (total <? maxResults)%Z; [apply IH | reflexivity].
Qed.

(** X28. [prisma.video.create] is reached only with the data of a video
    that has an id and a date, is finance related, and is not in the
    table at that moment: the run of [fetchVideosForChannel] is the same
    whatever the insert would do with any other data. *)
Theorem fetchVideosForChannel_inserts_only_new_finance_videos
  (fuel : nat) (channelId : jsstring) (maxResults : Z) (w : World) :
  @fetchVideosForChannel (withVideoCreate create api) fuel channelId
    maxResults w
  = @fetchVideosForChannel api fuel channelId maxResults w.
Proof.
  unfold fetchVideosForChannel. cbn [YOUTUBE_API_KEY withVideoCreate].
  destruct (@YOUTUBE_API_KEY api) as [[|c k]|]; try reflexivity.
  change (@ensureCreator (withVideoCreate create api) channelId w)
    with (@ensureCreator api channelId w).
  destruct (@ensureCreator api channelId w) as [[creatorId|e] w1];
    [|reflexivity].
  rewrite pagesLoop_create_agrees. reflexivity.
Qed.

End Inserts.

(** The theorem on the account in [emptyWorld], with one page of two
    videos: the one on finance is inserted, the other skipped. *)
Lemma fetchVideosForChannel_accounts_witness :
  exists w',
    @fetchVideosForChannel twoVideosApi 1 (js "UC1") 50 emptyWorld
    = Some (Ok (mkFetchVideos 2 1 1 []), w')
    /\ ((0 <= 1)%Z /\ (0 <= 1)%Z
        /\ ((1 + 1 + 0 = 2)%Z
            \/ exists before message,
                 [] = before ++ [js "API error: " ++ message]
                 /\ (1 + 1 + Z.of_nat (length before) <= 2)%Z)).
Proof.
  eexists. split; [reflexivity|].
  apply (@fetchVideosForChannel_accounts twoVideosApi 1 (js "UC1") 50 emptyWorld
           (Ok (mkFetchVideos 2 1 1 [])) _ eq_refl).
Defined.

(** The theorem on the pages with the same API, which sends one page of
    at most the size asked for. *)
Lemma fetchVideosForChannel_ends_within_maxResults_witness :
  exists out w',
    @fetchVideosForChannel twoVideosApi 2 (js "UC1") 1 emptyWorld
    = Some (out, w')
    /\ forall r, out = Ok r -> (0 <= fetchedFound r <= Z.max 0 1)%Z.
Proof.
  apply (@fetchVideosForChannel_ends_within_maxResults twoVideosApi 2
           (js "UC1") 1 emptyWorld).
  - intros key channel n token w0 response w1 Hsearch.
    injection Hsearch as <- _. unfold pageVideos. cbn [items nextPageToken].
    split; [rewrite length_take; lia | intros Habs; contradiction].
  - simpl. lia.
Defined.

(** The theorem on the inserts with an insert that rejects everything
    that is not about finance. *)
Lemma fetchVideosForChannel_inserts_only_new_finance_videos_witness :
  @fetchVideosForChannel (withVideoCreate pickyCreate twoVideosApi) 1
    (js "UC1") 50 emptyWorld
  = @fetchVideosForChannel twoVideosApi 1 (js "UC1") 50 emptyWorld.
Proof.
  apply (fetchVideosForChannel_inserts_only_new_finance_videos twoVideosApi
           pickyCreate).
  intros d w Hfin _ _ _ _. unfold pickyCreate. rewrite Hfin. reflexivity.
Defined.

End FetchVideosFacts.


(* ===================================================================== *)
(** * The ingest route                                                    *)
(* ===================================================================== *)

Module IngestRouteFacts.

Import JsString.
Import Json.
Import Effects.
Import Transcript.
Import Orchestrator.
Import RateLimit.
Import IngestRoute.
Import Properties.
Import Examples.
Import EffectsFacts.
Import OrchestratorFacts.

Lemma checkRateLimit_refusal (now : Z) (key : jsstring)
  (config : RateLimitConfig) (store : Store) :
  allowed (fst (checkRateLimit now key config store)) = false ->
  snd (checkRateLimit now key config store) = store.
Proof.
  unfold checkRateLimit.
  destruct (store !! key) as [entry|]; [|discriminate].
  destruct (resetAt entry <=? now)%Z; [discriminate|].
  destruct (maxRequests config <=? count entry)%Z; [|discriminate].
  reflexivity.
Qed.

Lemma liftH_run {A} (m : M A) (server : Server) (w : World) :
  liftH m (server, w) = let (o, w') := m w in (o, (server, w')).
Proof. reflexivity. Qed.

Section WithCollaborators.
Context `{Engine} `{CaptionSources} `{VideoSource} `{Platform}.

(** A run under a lock that was free: the pipeline runs with the lock
    held, returns, and the lock is free again. *)
Lemma withLock_free_run (channel : jsstring) (options : PipelineOptions)
  (w : World) :
  (channel ∉ runningPipelines w) ->
  exists r w1,
    runIngestionPipeline channel options
      (withRunning ({[ channel ]} ∪ runningPipelines w) w) = (Ok r, w1)
    /\ runIngestionPipelineWithLock channel options w
       = (Ok (Some r), withRunning (runningPipelines w1 ∖ {[ channel ]}) w1).
Proof.
  intros Hfree.
  destruct (pipeline_returns channel options
              (withRunning ({[ channel ]} ∪ runningPipelines w) w))
    as (r & w1 & Hrun).
  exists r, w1. split; [exact Hrun|].
  unfold runIngestionPipelineWithLock, withLock, markPipelineRunning.
  rewrite !bind_run. cbv [gets].
  rewrite bool_decide_eq_false_2 by exact Hfree.
  rewrite bind_run. cbv [modify mret ST_ret].
  unfold tryFinally. rewrite bind_run, Hrun. reflexivity.
Qed.

Lemma ingest_run (request : Request) (limit : RateLimitResult)
  (server : Server) (w : World) :
  exists o w',
    ingest request limit (server, w) = (o, (server, w'))
    /\ match o with
       | Raise _ => w' = w
       | Ok response =>
           ((status response = 400 \/ status response = 409) /\ w' = w)
           \/ exists body channel options r w1,
                requestJson request = Ok body
                /\ getProperty body (js "channelId") = Ok (Some (JString channel))
                /\ getProperty body (js "options") = Ok options
                /\ isPrefix (js "UC") channel = true
                /\ length channel = 24
                /\ (channel ∉ runningPipelines w)
                /\ runIngestionPipeline channel (decodeOptions options)
                     (withRunning ({[ channel ]} ∪ runningPipelines w) w)
                   = (Ok r, w1)
                /\ w' = withRunning (runningPipelines w1 ∖ {[ channel ]}) w1
                /\ response = completed r limit
       end.
Proof.
  unfold ingest. rewrite bind_run. unfold liftResult at 1.
  destruct (requestJson request) as [body|e] eqn:Hbody.
  2:{ exists (Raise e), w. split; reflexivity. }
  rewrite bind_run. unfold liftResult at 1.
  destruct (getProperty body (js "channelId")) as [channelId|e] eqn:Hchannel.
  2:{ exists (Raise e), w. split; reflexivity. }
  destruct (truthyValue channelId) eqn:Htruthy; cbn [negb].
  2:{ eexists _, w. split; [reflexivity|]. left. split; [left|]; reflexivity. }
  destruct channelId as [[| | |channel| |]|];
    try (eexists (Raise _), w; split; reflexivity).
  destruct (isPrefix (js "UC") channel) eqn:Hprefix; cbn [negb orb].
  2:{ eexists _, w. split; [reflexivity|]. left. split; [left|]; reflexivity. }
  destruct (length channel =? 24) eqn:Hlen; cbn [negb].
  2:{ eexists _, w. split; [reflexivity|]. left. split; [left|]; reflexivity. }
  apply Nat.eqb_eq in Hlen.
  rewrite bind_run, liftH_run. unfold isPipelineRunning. cbv [gets].
  destruct (bool_decide (channel ∈ runningPipelines w)) eqn:Hrunning.
  { eexists _, w. split; [reflexivity|]. left. split; [right|]; reflexivity. }
  apply bool_decide_eq_false_1 in Hrunning.
  rewrite bind_run. unfold liftResult at 1.
  assert (Hoptions : exists options, getProperty body (js "options") = Ok options).
  { destruct body; try (eexists; reflexivity). discriminate Hchannel. }
  destruct Hoptions as [options Hoptions]. rewrite Hoptions.
  rewrite bind_run, liftH_run.
  destruct (withLock_free_run channel (decodeOptions options) w Hrunning)
    as (r & w1 & Hrun & ->).
  eexists _, _. split; [reflexivity|]. right.
  exists body, channel, options, r, w1. repeat split; assumption.
Qed.

(** X29. [POST /api/ingest/channel] always answers, with one of six
    statuses, and the pipeline runs only behind all its guards.  A 401 or
    a 429 leaves the whole process as it was: a request without the right
    key does not use up the rate limit.  Every answer but 200 leaves the
    world as it was.  A 200 means that the key was accepted, that the rate
    limiter let the request of this client in, that the channel id of the
    body is a string of 24 units that starts with [UC], that no pipeline
    ran for it, that the pipeline ran under the lock and returned the
    result in the response, and that the lock is free again. *)
Theorem POST_runs_behind_guards (request : Request) (server : Server)
  (w : World) :
  let limit :=
    checkRateLimit (clock w) (js "ingest:" ++ clientIpOf request)
      INGEST_RATE_LIMIT (rateLimitStore server) in
  exists response server' w',
    POST request (server, w) = (Ok response, (server', w'))
    /\ In (status response) [200; 400; 401; 409; 429; 500]
    /\ (status response = 401 \/ status response = 429 ->
        server' = server /\ w' = w)
    /\ (status response <> 200 -> w' = w)
    /\ (status response = 200 ->
        validateApiKey (INGEST_API_KEY server) (headerApiKey request) = true
        /\ allowed (fst limit) = true
        /\ server' = withStore (snd limit) server
        /\ exists body channel options r w1,
             requestJson request = Ok body
             /\ getProperty body (js "channelId") = Ok (Some (JString channel))
             /\ getProperty body (js "options") = Ok options
             /\ isPrefix (js "UC") channel = true
             /\ length channel = 24
             /\ (channel ∉ runningPipelines w)
             /\ runIngestionPipeline channel (decodeOptions options)
                  (withRunning ({[ channel ]} ∪ runningPipelines w) w)
                = (Ok r, w1)
             /\ responseResult response = Some r
             /\ (channel ∉ runningPipelines w')).
Proof.
  cbv zeta. unfold POST, tryCatch. rewrite bind_run. cbv [gets]. cbn [fst].
  destruct (validateApiKey (INGEST_API_KEY server) (headerApiKey request))
    eqn:Hkey; cbn [negb].
  2:{ exists unauthorized, server, w. split; [reflexivity|].
      split; [simpl; tauto|]. split; [intros _; split; reflexivity|].
      split; [reflexivity | discriminate]. }
  rewrite bind_run, liftH_run. cbv [dateNow gets]. rewrite bind_run.
  cbv [gets]. cbn [fst]. rewrite bind_run. cbv [modify]. cbn [fst snd].
  set (limit := checkRateLimit (clock w) (js "ingest:" ++ clientIpOf request)
                  INGEST_RATE_LIMIT (rateLimitStore server)).
  destruct (allowed (fst limit)) eqn:Hallowed; cbn [negb].
  2:{ exists (rateLimited (clock w) (fst limit)), (withStore (snd limit) server), w.
      split; [reflexivity|]. split; [simpl; tauto|].
      split.
      { intros _. split; [|reflexivity]. subst limit.
        rewrite (checkRateLimit_refusal _ _ _ _ Hallowed).
        destruct server; reflexivity. }
      split; [reflexivity | discriminate]. }
  destruct (ingest_run request (fst limit) (withStore (snd limit) server) w)
    as (o & w' & -> & Ho).
  destruct o as [response|e].
  - exists response, (withStore (snd limit) server), w'.
    split; [reflexivity|].
    destruct Ho as [[Hstatus ->]|(body & channel & options & r & w1 & Hbody
                                   & Hchannel & Hoptions & Hprefix & Hlen
                                   & Hfree & Hrun & -> & ->)].
    + split; [destruct Hstatus as [-> | ->]; simpl; tauto|].
      split; [intros [Habs|Habs]; destruct Hstatus as [Hs|Hs]; rewrite Hs in Habs;
              discriminate Habs|].
      split; [reflexivity|].
      intros Habs. destruct Hstatus as [Hs|Hs]; rewrite Hs in Habs;
        discriminate Habs.
    + split; [simpl; tauto|].
      split; [intros [Habs|Habs]; discriminate Habs|].
      split; [intros Habs; exfalso; apply Habs; reflexivity|].
      intros _. split; [reflexivity|]. split; [reflexivity|].
      split; [reflexivity|].
      exists body, channel, options, r, w1.
      repeat split; try assumption.
      cbn [runningPipelines withRunning]. intros Hin.
      apply elem_of_difference in Hin. destruct Hin as [_ Hn].
      apply Hn, elem_of_singleton. reflexivity.
  - subst w'. exists (internalError (messageOf e)), (withStore (snd limit) server), w.
    split; [reflexivity|]. split; [simpl; tauto|].
    split; [intros [Habs|Habs]; discriminate Habs|].
    split; [reflexivity | discriminate].
Qed.

End WithCollaborators.

End IngestRouteFacts.


(* ===================================================================== *)
(** * More on the pipeline: the transcript stage                          *)
(* ===================================================================== *)

Module StageFacts.

Import JsString.
Import Effects.
Import Transcript.
Import Orchestrator.
Import Properties.
Import Examples.
Import EffectsFacts.
Import TranscriptFacts.
Import OrchestratorFacts.

Lemma liftW_run {A} (m : M A) (r : PipelineResult) (w : World) :
  liftW m (r, w) = let (o, w') := m w in (o, (r, w')).
Proof. reflexivity. Qed.

Section WithCollaborators.
Context `{Engine} `{CaptionSources} `{VideoSource}.

Lemma transcriptLoop_run (todo : list Video) :
  forall (r : PipelineResult) (w : World),
  exists r' w' processed failed,
    transcriptLoop todo (r, w) = (Ok tt, (r', w'))
    /\ channelId r' = channelId r
    /\ creatorId r' = creatorId r
    /\ videoFetch r' = videoFetch r
    /\ predictionExtraction r' = predictionExtraction r
    /\ transcriptFetchSuccess (transcriptFetch r')
       = transcriptFetchSuccess (transcriptFetch r)
    /\ transcriptVideosProcessed (transcriptFetch r')
       = transcriptVideosProcessed (transcriptFetch r) + processed
    /\ length (transcriptFetchErrors (transcriptFetch r'))
       = length (transcriptFetchErrors (transcriptFetch r)) + failed
    /\ totalChunks (transcriptFetch r) <= totalChunks (transcriptFetch r')
    /\ processed + failed <= length todo.
Proof.
  induction todo as [|video rest IH]; intros r w.
  - exists r, w, 0, 0. split; [reflexivity|]. repeat split; simpl; lia.
  - cbn [transcriptLoop]. rewrite bind_run, liftW_run.
    destruct (returns_fetchTranscriptForVideo (videoKey video) w) as [result Hr].
    destruct (fetchTranscriptForVideo (videoKey video) w) as [o w1].
    simpl in Hr. subst o. rewrite bind_run.
    destruct (success result).
    + cbv [update modify]. cbn [fst snd].
      destruct (IH (countTranscript (chunksStored result) r) w1)
        as (r' & w' & processed & failed & -> & Hc & Hcr & Hv & Hp & Hs & Hn
            & He & Ht & Hle).
      exists r', w', (S processed), failed. split; [reflexivity|].
      simpl in *. repeat split; try assumption; lia.
    + destruct (error result) as [[|c e]|].
      * cbv [mret ST_ret].
        destruct (IH r w1)
          as (r' & w' & processed & failed & -> & Hc & Hcr & Hv & Hp & Hs & Hn
              & He & Ht & Hle).
        exists r', w', processed, failed. split; [reflexivity|].
        simpl in *. repeat split; try assumption; lia.
      * cbv [update modify]. cbn [fst snd].
        destruct (IH (pushTranscriptFetchError
                        (videoKey video ++ js ": " ++ c :: e) r) w1)
          as (r' & w' & processed & failed & -> & Hc & Hcr & Hv & Hp & Hs & Hn
              & He & Ht & Hle).
        exists r', w', processed, (S failed). split; [reflexivity|].
        cbn [pushTranscriptFetchError withTranscriptFetch channelId creatorId
               videoFetch predictionExtraction transcriptFetch
               transcriptFetchSuccess transcriptVideosProcessed
               transcriptFetchErrors totalChunks] in *.
        rewrite length_app in He. cbn [length] in *.
        repeat split; try assumption; lia.
      * cbv [mret ST_ret].
        destruct (IH r w1)
          as (r' & w' & processed & failed & -> & Hc & Hcr & Hv & Hp & Hs & Hn
              & He & Ht & Hle).
        exists r', w', processed, failed. split; [reflexivity|].
        simpl in *. repeat split; try assumption; lia.
Qed.

(** X30. The transcript stage never fails on account of a video.  Its
    loop runs to the end whatever [fetchTranscriptForVideo] finds; every
    video is counted at most once, as processed or with an error, and no
    other part of the result is written.  The stage throws only when it is
    not skipped and the list of videos cannot be read; in every other case
    it ends with its [success] set. *)
Theorem stage2_swallows_video_errors (creator : Creator)
  (options : PipelineOptions) (todo : list Video) (r : PipelineResult)
  (w : World) :
  (exists r' w' processed failed,
      transcriptLoop todo (r, w) = (Ok tt, (r', w'))
      /\ channelId r' = channelId r
      /\ creatorId r' = creatorId r
      /\ videoFetch r' = videoFetch r
      /\ predictionExtraction r' = predictionExtraction r
      /\ transcriptVideosProcessed (transcriptFetch r')
         = transcriptVideosProcessed (transcriptFetch r) + processed
      /\ length (transcriptFetchErrors (transcriptFetch r'))
         = length (transcriptFetchErrors (transcriptFetch r)) + failed
      /\ processed + failed <= length todo)
  /\ (exists o r' w',
        stage2 creator options (r, w) = (o, (r', w'))
        /\ match o with
           | Ok _ => transcriptFetchSuccess (transcriptFetch r') = true
           | Raise e =>
               skipTranscriptFetch options = false
               /\ getUnfetchedVideos (creatorKey creator) w = (Raise e, w')
               /\ r' = r
           end).
Proof.
  split.
  - destruct (transcriptLoop_run todo r w)
      as (r' & w' & processed & failed & Hrun & Hc & Hcr & Hv & Hp & _ & Hn
          & He & _ & Hle).
    exists r', w', processed, failed. repeat split; assumption.
  - unfold stage2. destruct (skipTranscriptFetch options); cbn [negb].
    { eexists (Ok tt), _, w. split; reflexivity. }
    rewrite bind_run, liftW_run.
    destruct (getUnfetchedVideos (creatorKey creator) w) as [[videos|e] w1].
    + rewrite bind_run.
      destruct (transcriptLoop_run videos r w1)
        as (r' & w' & processed & failed & -> & _).
      eexists (Ok tt), _, w'. split; reflexivity.
    + exists (Raise e), r, w1. split; [reflexivity|]. repeat split.
Qed.

End WithCollaborators.

End StageFacts.
